(** * dousei: a shallow embedding of the dual-commute optimizer

    The development follows the Python sources module by module:
    [config.py], [commute_optimizer.py] (graph construction, bounded
    Dijkstra with route tracking, ranking, station search),
    [database_manager.py] (the station upsert), [data_fetcher.py] (the
    per-operator fetch) and [app.py] (the analyze endpoint).

    Modelling conventions.
    - Python [float] values are modelled by the rationals they denote
      ([Q]).  Every time the engine computes is a finite sum of the two
      edge weights 2.5 and 5.0, and binary64 adds such values exactly, so
      the comparisons the code makes are the comparisons made here.
      The one quotient the code takes, in the balance score, is rounded
      in binary64 and exact here: about it only what rounding keeps is
      stated (its range, its order, and its value away from 1).
    - Python [int] is [Z]; [str] is [string] (a byte string, compared
      byte-wise, which is the code-point order on UTF-8).
    - A [dict] whose iteration order is observed is an insertion-ordered
      association list ([dict_get], [dict_set]); a [dict] that is only
      indexed is a [gmap]; a [set] is a [gset], and iterating over a set
      goes through [elements], whose order is left unspecified by its
      lemmas just as Python leaves it unspecified.
    - Code that can raise returns [result]. *)

From Stdlib Require Import ZArith QArith Qabs Lqa Lia List String Ascii Bool Sorted.
From stdpp Require Import base gmap sets list strings.

Open Scope string_scope.
Open Scope list_scope.
Open Scope Z_scope.

(** ** Python scaffolding *)

Inductive exn : Type :=
| ValueError (msg : string)
| AttributeError (msg : string)
| ZeroDivisionError
| RequestException (msg : string).

Inductive result (A : Type) : Type :=
| Ok (a : A)
| Raise (e : exn).
Arguments Ok {A} a.
Arguments Raise {A} e.

Definition is_ok {A} (r : result A) : bool :=
  match r with Ok _ => true | Raise _ => false end.

(** [a < b] on floats. *)
Definition Qlt_bool (a b : Q) : bool := negb (Qle_bool b a).

(** Insertion-ordered dictionary: [d.get(k)], [k in d] and [d[k] = v]
    (an existing key keeps its position). *)
Fixpoint dict_get {K V} `{EqDecision K} (k : K) (d : list (K * V)) : option V :=
  match d with
  | [] => None
  | (k', v) :: d' => if decide (k = k') then Some v else dict_get k d'
  end.

Fixpoint dict_set {K V} `{EqDecision K} (k : K) (v : V) (d : list (K * V))
  : list (K * V) :=
  match d with
  | [] => [(k, v)]
  | (k', v') :: d' =>
      if decide (k = k') then (k, v) :: d' else (k', v') :: dict_set k v d'
  end.

Definition dict_contains {K V} `{EqDecision K} (k : K) (d : list (K * V)) : bool :=
  match dict_get k d with Some _ => true | None => false end.

(** [list.sort(key=...)] / [sorted]: a stable sort that only asks [<] of
    the keys.  [lt a b] is [key(a) < key(b)]. *)
Fixpoint sort_insert {A} (lt : A → A → bool) (x : A) (l : list A) : list A :=
  match l with
  | [] => [x]
  | y :: l' => if lt y x then y :: sort_insert lt x l' else x :: y :: l'
  end.

Definition py_sort {A} (lt : A → A → bool) (l : list A) : list A :=
  foldr (sort_insert lt) [] l.

(** [l[:n]] for a Python int [n]: a negative [n] counts from the end. *)
Definition slice_to {A} (n : Z) (l : list A) : list A :=
  if 0 <=? n then take (Z.to_nat n) l
  else take (Z.to_nat (Z.of_nat (length l) + n)) l.

(** ** config.py *)

Definition DEFAULT_AVG_TIME_PER_STOP : Q := 2.5%Q.
Definition DEFAULT_TRANSFER_TIME : Q := 5.0%Q.
Definition DEFAULT_MAX_COMMUTE_TIME : Q := 120%Q.
Definition DEFAULT_TOP_N_RESULTS : Z := 10.

(** ** commute_optimizer.py: data *)

(** One adjacency entry of [network_graph] (a dict literal in the source). *)
Record Connection : Type := mkConnection {
  c_to_station : string;
  c_travel_time : Q;
  c_railway : string;
  c_num_stops : Z
}.

Record RouteSegment : Type := mkRouteSegment {
  from_station : string;
  to_station : string;
  railway : string;
  travel_time : Q;
  num_stops : Z
}.

Record Route : Type := mkRoute {
  segments : list RouteSegment;
  total_time : Q;
  total_stops : Z
}.

(** Python's [sum(...)]: a left fold from 0. *)
Definition sum_stops (path : list RouteSegment) : Z :=
  fold_left Z.add (map num_stops path) 0.

Definition sum_times (path : list RouteSegment) : Q :=
  fold_left Qplus (map travel_time path) 0%Q.

(** ** commute_optimizer.py: [_dijkstra_with_path] *)

Definition pq_entry : Type := Q * string * list RouteSegment.

(** Tuple comparison of heap entries.  Two entries of the queue never
    agree on both time and station (a station is pushed again only with
    a strictly smaller time, see [queue_inv_loop]), so the comparison is
    settled before it would reach the third component. *)
Definition entry_lt (a b : pq_entry) : bool :=
  let '(ta, sa, _) := a in
  let '(tb, sb, _) := b in
  if Qeq_bool ta tb then String.ltb sa sb else Qlt_bool ta tb.

(** [heappop]: the least entry, and the heap without it.  The heap is
    kept as a plain list: with distinct keys the least entry is unique
    ([heappop_least]), so the layout of the binary heap is not observed. *)
Fixpoint pop_min (e : pq_entry) (l : list pq_entry) : pq_entry * list pq_entry :=
  match l with
  | [] => (e, [])
  | x :: l' =>
      let '(m, rest) := pop_min x l' in
      if entry_lt m e then (m, e :: rest) else (e, x :: l')
  end.

Definition heappop (pq : list pq_entry) : option (pq_entry * list pq_entry) :=
  match pq with
  | [] => None
  | e :: l => Some (pop_min e l)
  end.

Definition heappush (pq : list pq_entry) (e : pq_entry) : list pq_entry :=
  pq ++ [e].

Record DijkstraState : Type := mkDijkstraState {
  distances : gmap string (Q * Route);
  pq : list pq_entry;
  visited : gset string
}.

(** The body of [for connection in self.network_graph[current_station]]. *)
Definition relax (max_time : Q) (current_station : string) (current_time : Q)
    (path_segments : list RouteSegment)
    (st : gmap string (Q * Route) * list pq_entry) (connection : Connection)
  : gmap string (Q * Route) * list pq_entry :=
  let next_station := c_to_station connection in
  let new_time := (current_time + c_travel_time connection)%Q in
  if Qle_bool new_time max_time then
    let segment :=
      mkRouteSegment current_station next_station (c_railway connection)
                     (c_travel_time connection) (c_num_stops connection) in
    let new_path := path_segments ++ [segment] in
    let new_route := mkRoute new_path new_time (sum_stops new_path) in
    let improve :=
      match st.1 !! next_station with
      | None => true
      | Some (t, _) => Qlt_bool new_time t
      end in
    if improve
    then (<[next_station := (new_time, new_route)]> st.1,
          heappush st.2 (new_time, next_station, new_path))
    else st
  else st.

(** One iteration of [while pq]; [None] when the queue is empty. *)
Definition dijkstra_step (g : gmap string (list Connection)) (max_time : Q)
    (st : DijkstraState) : option DijkstraState :=
  match heappop (pq st) with
  | None => None
  | Some ((current_time, current_station, path_segments), pq') =>
      if decide (current_station ∈ visited st) then
        Some (mkDijkstraState (distances st) pq' (visited st))
      else
        let visited' := {[current_station]} ∪ visited st in
        if Qlt_bool max_time current_time then
          Some (mkDijkstraState (distances st) pq' visited')
        else
          match g !! current_station with
          | None => Some (mkDijkstraState (distances st) pq' visited')
          | Some connections =>
              let r := fold_left
                         (relax max_time current_station current_time path_segments)
                         connections (distances st, pq') in
              Some (mkDijkstraState r.1 r.2 visited')
          end
  end.

Fixpoint dijkstra_loop (g : gmap string (list Connection)) (max_time : Q)
    (fuel : nat) (st : DijkstraState) : DijkstraState :=
  match fuel with
  | O => st
  | S fuel' =>
      match dijkstra_step g max_time st with
      | None => st
      | Some st' => dijkstra_loop g max_time fuel' st'
      end
  end.

Definition dijkstra_init (start_station : string) : DijkstraState :=
  mkDijkstraState {[start_station := (0%Q, mkRoute [] 0%Q 0)]}
                  [(0%Q, start_station, [])] ∅.

(** Number of adjacency entries of the graph. *)
Definition edge_count (g : gmap string (list Connection)) : nat :=
  foldr (λ kv n, (length kv.2 + n)%nat) 0%nat (map_to_list g).

(** The loop runs at most once per queue entry, and at most one entry is
    pushed per adjacency entry of a station on its first visit:
    [S (edge_count g)] iterations always empty the queue
    (see [dijkstra_queue_exhausted]). *)
Definition dijkstra_final (g : gmap string (list Connection))
    (start_station : string) (max_time : Q) : DijkstraState :=
  dijkstra_loop g max_time (S (edge_count g)) (dijkstra_init start_station).

Definition _dijkstra_with_path (g : gmap string (list Connection))
    (start_station : string) (max_time : Q) : gmap string (Q * Route) :=
  distances (dijkstra_final g start_station max_time).

(** ** database_manager.py: the [stations] and [railways] tables *)

(** The value of ["odpt:stationTitle"] in a decoded station record: a
    mapping (of which only the ["en"] entry is read) or anything else. *)
Inductive StationTitle : Type :=
| TitleMapping (en : option string)
| TitleOther.

(** A decoded ODPT station record, by the keys [insert_stations] reads
    whose columns the engine later selects; [None] is an absent key. *)
Record StationRecord : Type := mkStationRecord {
  at_id : option string;                    (* "@id" *)
  dc_title : option string;                 (* "dc:title" *)
  odpt_stationTitle : option StationTitle;  (* "odpt:stationTitle" *)
  odpt_railway : option string;             (* "odpt:railway" *)
  geo_lat : option Q;                       (* "geo:lat" *)
  geo_long : option Q;                      (* "geo:long" *)
  owl_sameAs : option string                (* "owl:sameAs" *)
}.

(** A row of [stations]; [None] is SQL NULL.  The columns no modelled
    query selects (context, type, operator, station_code, region,
    exit_info, created_at) are left out. *)
Record StationRow : Type := mkStationRow {
  st_id : option string;
  st_title : option string;
  st_title_en : option string;
  st_railway : option string;
  st_latitude : option Q;
  st_longitude : option Q;
  st_same_as : option string
}.

(** One entry of a station-order list, by the one key the engine reads:
    the result of [entry.get("odpt:station")]. *)
Record OrderEntry : Type := mkOrderEntry {
  odpt_station : option string
}.

(** The text of the [station_order] column as [json.loads] sees it:
    text that does not parse, or a list of entries. *)
Inductive OrderText : Type :=
| Malformed
| Parsed (station_order : list OrderEntry).

Record RailwayRow : Type := mkRailwayRow {
  rw_title : option string;
  rw_title_en : option string;
  rw_station_order : option OrderText;
  rw_same_as : option string
}.

Record Database : Type := mkDatabase {
  stations : list StationRow;
  railways : list RailwayRow
}.

(** [station.get("odpt:stationTitle", {}).get("en")
     if isinstance(station.get("odpt:stationTitle"), dict) else None] *)
Definition title_en_of (station : StationRecord) : option string :=
  match odpt_stationTitle station with
  | Some (TitleMapping en) => en
  | Some TitleOther => None
  | None => None
  end.

Definition row_of_record (station : StationRecord) : StationRow :=
  mkStationRow (at_id station) (dc_title station) (title_en_of station)
               (odpt_railway station) (geo_lat station) (geo_long station)
               (owl_sameAs station).

(** INSERT OR REPLACE: a row with the same non-NULL primary key is
    deleted before the new row is appended. *)
Definition conflicts (pk : option string) (row : StationRow) : bool :=
  match pk, st_id row with
  | Some a, Some b => bool_decide (a = b)
  | _, _ => false
  end.

Definition insert_or_replace (row : StationRow) (table : list StationRow)
  : list StationRow :=
  filter (λ r, conflicts (st_id row) r = false) table ++ [row].

(** [insert_stations]: the table afterwards and the returned count. *)
Definition insert_stations (records : list StationRecord) (db : Database)
  : Database * Z :=
  fold_left
    (λ acc station,
       (mkDatabase (insert_or_replace (row_of_record station) (stations acc.1))
                   (railways acc.1),
        acc.2 + 1))
    records (db, 0).

(** ** commute_optimizer.py: the engine state and [build_network] *)

Record StationInfo : Type := mkStationInfo {
  si_title : option string;
  si_title_en : option string;
  si_railway : option string;
  si_latitude : option Q;
  si_longitude : option Q
}.

Record RailwayInfo : Type := mkRailwayInfo {
  ri_title : option string;
  ri_title_en : option string
}.

Record CommuteOptimizer : Type := mkCommuteOptimizer {
  network_graph : gmap string (list Connection);
  station_info : list (string * StationInfo);
  railway_info : list (string * RailwayInfo);
  transfer_stations : list (option string * gset string)
}.

(** [CommuteOptimizer.__init__] *)
Definition new_optimizer : CommuteOptimizer :=
  mkCommuteOptimizer ∅ [] [] [].

(** [if s not in graph: graph[s] = []] followed by [graph[s].append(c)]. *)
Definition graph_append (s : string) (c : Connection)
    (g : gmap string (list Connection)) : gmap string (list Connection) :=
  <[s := default [] (g !! s) ++ [c]]> g.

(** [not x] for a value that is a string or [None]. *)
Definition falsy (x : option string) : bool :=
  match x with
  | None => true
  | Some s => bool_decide (s = "")
  end.

Definition railway_edge (railway next_station : string) : Connection :=
  mkConnection next_station DEFAULT_AVG_TIME_PER_STOP railway 1.

(** The body of the loop of [_process_railway_order] for the entries at
    [i] and [i + 1]. *)
Definition link_stations (railway : string) (current next_stop : OrderEntry)
    (g : gmap string (list Connection)) : gmap string (list Connection) :=
  match odpt_station current, odpt_station next_stop with
  | Some current_station, Some next_station =>
      if falsy (Some current_station) || falsy (Some next_station) then g
      else
        graph_append next_station (railway_edge railway current_station)
          (graph_append current_station (railway_edge railway next_station) g)
  | _, _ => g
  end.

Fixpoint _process_railway_order (railway : string)
    (station_order : list OrderEntry) (g : gmap string (list Connection))
  : gmap string (list Connection) :=
  match station_order with
  | current :: (next_stop :: _) as rest =>
      _process_railway_order railway rest
        (link_stations railway current next_stop g)
  | _ => g
  end.

Definition transfer_edge (to : string) : Connection :=
  mkConnection to DEFAULT_TRANSFER_TIME "Transfer" 0.

(** [if a in graph: graph[a].append(transfer to b)] *)
Definition add_transfer (a b : string) (g : gmap string (list Connection))
  : gmap string (list Connection) :=
  match g !! a with
  | Some l => <[a := l ++ [transfer_edge b]]> g
  | None => g
  end.

(** The index pairs [i < j] of the nested loop, in loop order. *)
Fixpoint transfer_pairs (station_list : list string) : list (string * string) :=
  match station_list with
  | [] => []
  | a :: l => map (pair a) l ++ transfer_pairs l
  end.

Definition connect_same_name (station_ids : gset string)
    (g : gmap string (list Connection)) : gmap string (list Connection) :=
  if bool_decide (1 < size station_ids)%nat then
    fold_left (λ g ab, add_transfer ab.2 ab.1 (add_transfer ab.1 ab.2 g))
              (transfer_pairs (elements station_ids)) g
  else g.

Definition _add_transfer_connections
    (transfer_stations : list (option string * gset string))
    (g : gmap string (list Connection)) : gmap string (list Connection) :=
  fold_left (λ g entry, connect_same_name entry.2 g) transfer_stations g.

(** The first loop of [build_network], one row. *)
Definition load_station (self : CommuteOptimizer) (row : StationRow)
  : CommuteOptimizer :=
  match st_same_as row with
  | None => self
  | Some station_id =>
      let info := mkStationInfo (st_title row) (st_title_en row) (st_railway row)
                                (st_latitude row) (st_longitude row) in
      let ids := default ∅ (dict_get (st_title row) (transfer_stations self)) in
      mkCommuteOptimizer
        (network_graph self)
        (dict_set station_id info (station_info self))
        (railway_info self)
        (dict_set (st_title row) ({[station_id]} ∪ ids) (transfer_stations self))
  end.

(** The second loop of [build_network], one row. *)
Definition load_railway (self : CommuteOptimizer) (row : RailwayRow)
  : CommuteOptimizer :=
  match rw_same_as row, rw_station_order row with
  | Some railway_id, Some station_order_json =>
      let infos := dict_set railway_id
                     (mkRailwayInfo (rw_title row) (rw_title_en row))
                     (railway_info self) in
      let g :=
        match station_order_json with
        | Malformed => network_graph self
        | Parsed [] => network_graph self
        | Parsed station_order =>
            _process_railway_order railway_id station_order (network_graph self)
        end in
      mkCommuteOptimizer g (station_info self) infos (transfer_stations self)
  | _, _ => self
  end.

Definition build_network (db : Database) (self : CommuteOptimizer)
  : CommuteOptimizer :=
  let self1 := fold_left load_station (stations db) self in
  let self2 := fold_left load_railway (railways db) self1 in
  mkCommuteOptimizer
    (_add_transfer_connections (transfer_stations self2) (network_graph self2))
    (station_info self2) (railway_info self2) (transfer_stations self2).

(** [if not self.network_graph: self.build_network()] *)
Definition ensure_built (db : Database) (self : CommuteOptimizer)
  : CommuteOptimizer :=
  if bool_decide (network_graph self = ∅) then build_network db self else self.

(** The engine states the code can be in: a fresh engine, and whatever
    [build_network] makes of an engine. *)
Inductive engine_state : CommuteOptimizer → Prop :=
| engine_new : engine_state new_optimizer
| engine_built db self :
    engine_state self → engine_state (build_network db self).

(** ** commute_optimizer.py: [find_optimal_stations] *)

Record MeetingPoint : Type := mkMeetingPoint {
  station_id : string;
  station_name : option string;
  route_from_a : Route;
  route_from_b : Route;
  mp_total_time : Q;
  time_difference : Q;
  balance_score : Q
}.

(** [self.station_info.get(station, {}).get("title", "Unknown")] *)
Definition title_or_unknown (self : CommuteOptimizer) (station : string)
  : option string :=
  match dict_get station (station_info self) with
  | Some info => si_title info
  | None => Some "Unknown"
  end.

Definition make_candidate (self : CommuteOptimizer) (max_time : Q)
    (station : string) (a b : Q * Route) : MeetingPoint :=
  let time_diff := Qabs (a.1 - b.1) in
  mkMeetingPoint station (title_or_unknown self station) a.2 b.2
                 (a.1 + b.1)%Q time_diff (1 - time_diff / max_time)%Q.

(** [(x.total_time, x.time_difference) < (y.total_time, y.time_difference)] *)
Definition rank_lt (x y : MeetingPoint) : bool :=
  if Qeq_bool (mp_total_time x) (mp_total_time y)
  then Qlt_bool (time_difference x) (time_difference y)
  else Qlt_bool (mp_total_time x) (mp_total_time y).

Definition common_stations (routes_from_a routes_from_b : gmap string (Q * Route))
    (work_station_a work_station_b : string) : gset string :=
  (dom routes_from_a ∩ dom routes_from_b) ∖ {[work_station_a]} ∖ {[work_station_b]}.

Definition candidates_of (self : CommuteOptimizer) (max_time : Q)
    (routes_from_a routes_from_b : gmap string (Q * Route))
    (common : list string) : list MeetingPoint :=
  omap (λ station,
          a ← routes_from_a !! station;
          b ← routes_from_b !! station;
          Some (make_candidate self max_time station a b))
       common.

(** The engine after the lazy build, and the ranked list or the
    [ZeroDivisionError] of the balance score. *)
Definition find_optimal_stations (db : Database) (self : CommuteOptimizer)
    (work_station_a work_station_b : string) (top_n : Z) (max_time : Q)
  : CommuteOptimizer * result (list MeetingPoint) :=
  let self' := ensure_built db self in
  let routes_from_a :=
    _dijkstra_with_path (network_graph self') work_station_a max_time in
  let routes_from_b :=
    _dijkstra_with_path (network_graph self') work_station_b max_time in
  let common :=
    elements (common_stations routes_from_a routes_from_b
                              work_station_a work_station_b) in
  match common with
  | _ :: _ =>
      if Qeq_bool max_time 0 then (self', Raise ZeroDivisionError)
      else
        let candidates :=
          candidates_of self' max_time routes_from_a routes_from_b common in
        (self', Ok (slice_to top_n (py_sort rank_lt candidates)))
  | [] => (self', Ok (slice_to top_n []))
  end.

(** ** commute_optimizer.py: [search_station] *)

(** [str.lower] on ASCII letters; other bytes pass through.  This is
    [str.lower] on ASCII text only: what is stated about matching goes
    through [search_station_with], where the case mapping is open. *)
Definition lower_ascii (c : ascii) : ascii :=
  let n := nat_of_ascii c in
  if ((65 <=? n) && (n <=? 90))%nat then ascii_of_nat (n + 32) else c.

Fixpoint lower (s : string) : string :=
  match s with
  | EmptyString => EmptyString
  | String c s' => String (lower_ascii c) (lower s')
  end.

(** [needle in haystack] on strings. *)
Fixpoint contains (needle haystack : string) : bool :=
  String.prefix needle haystack ||
  match haystack with
  | EmptyString => false
  | String _ h' => contains needle h'
  end.

Definition search_hit : Type := string * string * option string * option string.

(** [x.lower()] on a value that may be [None]. *)
Definition lower_of (x : option string) : result string :=
  match x with
  | Some s => Ok (lower s)
  | None => Raise (AttributeError "'NoneType' object has no attribute 'lower'")
  end.

(** The loop over [self.station_info.items()]; the [or] evaluates its
    right operand only when the left one is false. *)
Fixpoint search_loop (search_term_lower : string)
    (items : list (string * StationInfo)) (results : list search_hit)
  : result (list search_hit) :=
  match items with
  | [] => Ok results
  | (station_id, info) :: items' =>
      match lower_of (si_title info) with
      | Raise e => Raise e
      | Ok title_lower =>
          let title := default "" (si_title info) in
          let hit := results ++ [(station_id, title, si_title_en info, si_railway info)] in
          if contains search_term_lower title_lower then
            search_loop search_term_lower items' hit
          else
            match lower_of (si_title_en info) with
            | Raise e => Raise e
            | Ok title_en_lower =>
                if contains search_term_lower title_en_lower
                then search_loop search_term_lower items' hit
                else search_loop search_term_lower items' results
            end
      end
  end.

Definition search_station (self : CommuteOptimizer) (search_term : string)
  : result (list search_hit) :=
  match search_loop (lower search_term) (station_info self) [] with
  | Ok results =>
      Ok (py_sort (λ x y : search_hit, String.ltb x.1.1.2 y.1.1.2) results)
  | Raise e => Raise e
  end.

(** ** data_fetcher.py *)

Definition ODPT_API_BASE_URL : string := "https://api.odpt.org/api/v4".
Definition ODPT_API_CHALLENGE_BASE_URL : string :=
  "https://api-challenge.odpt.org/api/v4".

Record OperatorConfig : Type := mkOperatorConfig {
  op_id : string;
  op_name : string;
  op_api_base : string;
  op_env_key : string
}.

Definition OPERATORS : list (string * OperatorConfig) :=
  [ ("JR_EAST",
     mkOperatorConfig "odpt.Operator:JR-East" "JR East" "challenge" "ACCESS_TOKEN");
    ("TOKYO_METRO",
     mkOperatorConfig "odpt.Operator:TokyoMetro" "Tokyo Metro" "production"
                      "TOKYO_METRO_KEY");
    ("KEIKYU",
     mkOperatorConfig "odpt.Operator:Keikyu" "Keikyu" "challenge" "ACCESS_TOKEN") ].

(** What the fetcher runs against: the process environment, and the
    remote service as a state [W] that answers a GET (endpoint, operator,
    consumer key) with the decoded JSON array or with the exception that
    [requests.get], [raise_for_status] or [response.json] raised.  The
    records [R] are never inspected by the fetcher. *)
Record Env (W R : Type) : Type := mkEnv {
  getenv : string → option string;
  http_get : W → string → string → string → result (list R) * W
}.
Arguments mkEnv {W R} _ _.
Arguments getenv {W R} _ _.
Arguments http_get {W R} _ _ _ _ _.

Record OperatorData (R : Type) : Type := mkOperatorData {
  od_stations : list R;
  od_railways : list R
}.
Arguments mkOperatorData {R} _ _.
Arguments od_stations {R} _.
Arguments od_railways {R} _.

Definition _get_api_url (api_base : string) : string :=
  if bool_decide (api_base = "production") then ODPT_API_BASE_URL
  else ODPT_API_CHALLENGE_BASE_URL.

Definition _fetch_data {W R} (env : Env W R)
    (resource_type operator_id api_base env_key : string) (w : W)
  : result (list R) * W :=
  let base_url := _get_api_url api_base in
  let endpoint := base_url +:+ "/odpt:" +:+ resource_type in
  let api_key := getenv env env_key in
  if falsy api_key then
    (Raise (ValueError (env_key +:+ " not found in environment variables")), w)
  else http_get env w endpoint operator_id (default "" api_key).

Definition fetch_operator_data {W R} (env : Env W R) (operator_key : string)
    (w : W) : result (OperatorData R) * W :=
  match dict_get operator_key OPERATORS with
  | None => (Raise (ValueError ("Unknown operator: " +:+ operator_key)), w)
  | Some operator_config =>
      let operator_id := op_id operator_config in
      let api_base := op_api_base operator_config in
      let env_key := op_env_key operator_config in
      match _fetch_data env "Station" operator_id api_base env_key w with
      | (Raise _, w1) => (Ok (mkOperatorData [] []), w1)
      | (Ok stations, w1) =>
          match _fetch_data env "Railway" operator_id api_base env_key w1 with
          | (Raise _, w2) => (Ok (mkOperatorData [] []), w2)
          | (Ok railways, w2) => (Ok (mkOperatorData stations railways), w2)
          end
      end
  end.

(** The loop [for operator_key in operator_keys]. *)
Fixpoint fetch_each {W R} (env : Env W R) (operator_keys : list string)
    (all_data : list (string * OperatorData R)) (w : W)
  : result (list (string * OperatorData R)) * W :=
  match operator_keys with
  | [] => (Ok all_data, w)
  | operator_key :: rest =>
      match fetch_operator_data env operator_key w with
      | (Raise e, w1) => (Raise e, w1)
      | (Ok data, w1) => fetch_each env rest (dict_set operator_key data all_data) w1
      end
  end.

Definition fetch_all_operators {W R} (env : Env W R)
    (operator_keys : option (list string)) (w : W)
  : result (list (string * OperatorData R)) * W :=
  let operator_keys := default (map fst OPERATORS) operator_keys in
  fetch_each env operator_keys [] w.

(** ** app.py: [analyze_commute] *)

Record AnalyzeRequest : Type := mkAnalyzeRequest {
  req_station_a : string;
  req_station_b : string;
  req_top_n : Z;
  req_max_time : Q
}.

(** What the handler produces: an [HTTPException], or the response body
    (the two work stations and the ranked candidates; their rendering
    into the wire schema and the measured computation time are left out).
    An [AnalyzeResponse] therefore says that the handler raised no
    [HTTPException] and reached the rendering with these candidates; the
    response models can still reject what is rendered. *)
Inductive HTTPResult : Type :=
| HTTPException (status_code : Z) (detail : string)
| AnalyzeResponse (work_a work_b : string * option string)
                  (candidates : list MeetingPoint).

(** [str(e)] *)
Definition exn_str (e : exn) : string :=
  match e with
  | ValueError msg => msg
  | AttributeError msg => msg
  | ZeroDivisionError => "float division by zero"
  | RequestException msg => msg
  end.

Definition analyze_commute (db : Database) (optimizer : CommuteOptimizer)
    (request : AnalyzeRequest) : CommuteOptimizer * HTTPResult :=
  if bool_decide (req_station_a request = req_station_b request) then
    (optimizer, HTTPException 400 "Work stations must be different")
  else
    let optimizer1 := ensure_built db optimizer in
    if negb (dict_contains (req_station_a request) (station_info optimizer1)) then
      (optimizer1,
       HTTPException 404 ("Station A not found: " +:+ req_station_a request))
    else if negb (dict_contains (req_station_b request) (station_info optimizer1)) then
      (optimizer1,
       HTTPException 404 ("Station B not found: " +:+ req_station_b request))
    else
      match find_optimal_stations db optimizer1
              (req_station_a request) (req_station_b request)
              (req_top_n request) (req_max_time request) with
      | (optimizer2, Raise e) =>
          (optimizer2, HTTPException 500 ("Analysis failed: " +:+ exn_str e))
      | (optimizer2, Ok []) =>
          (optimizer2,
           HTTPException 404
             "No common reachable stations found. Try increasing max_time.")
      | (optimizer2, Ok candidates) =>
          (optimizer2,
           AnalyzeResponse
             (req_station_a request,
              title_or_unknown optimizer2 (req_station_a request))
             (req_station_b request,
              title_or_unknown optimizer2 (req_station_b request))
             candidates)
      end.

(** ** Specification vocabulary *)

Definition entry_time (e : pq_entry) : Q := e.1.1.
Definition entry_station (e : pq_entry) : string := e.1.2.
Definition entry_path (e : pq_entry) : list RouteSegment := e.2.

(** A contiguous walk from [origin] to [dest]: each segment starts where
    the previous one ended. *)
Fixpoint walk (origin : string) (path : list RouteSegment) (dest : string) : Prop :=
  match path with
  | [] => origin = dest
  | s :: path' => from_station s = origin ∧ walk (to_station s) path' dest
  end.

Definition connection_of (s : RouteSegment) : Connection :=
  mkConnection (to_station s) (travel_time s) (railway s) (num_stops s).

(** The segment traverses an adjacency entry of the graph. *)
Definition segment_in (g : gmap string (list Connection)) (s : RouteSegment) : Prop :=
  ∃ connections,
    g !! from_station s = Some connections ∧ connection_of s ∈ connections.

(** A (time, Route) pair recorded for [dest] is consistent. *)
Record consistent_route (g : gmap string (list Connection))
    (origin dest : string) (t : Q) (r : Route) : Prop := mkConsistent {
  cr_walk : walk origin (segments r) dest;
  cr_edges : Forall (segment_in g) (segments r);
  cr_time : total_time r = sum_times (segments r);
  cr_best : total_time r = t;
  cr_stops : total_stops r = sum_stops (segments r)
}.

Definition weights_nonneg (g : gmap string (list Connection)) : Prop :=
  ∀ s connections c,
    g !! s = Some connections → c ∈ connections → (0 <= c_travel_time c)%Q.

(** What the loop of [_dijkstra_with_path] maintains on any graph: the
    recorded pairs and the queued paths are consistent, and every
    recorded time except the seed obeys the bound. *)
Record route_inv (g : gmap string (list Connection)) (start_station : string)
    (max_time : Q) (st : DijkstraState) : Prop := mkRouteInv {
  rinv_start : is_Some (distances st !! start_station);
  rinv_dist : ∀ v t r,
    distances st !! v = Some (t, r) →
    consistent_route g start_station v t r ∧
    ((t <= max_time)%Q ∨ (v = start_station ∧ r = mkRoute [] 0%Q 0));
  rinv_pq : ∀ e,
    e ∈ pq st →
    walk start_station (entry_path e) (entry_station e) ∧
    Forall (segment_in g) (entry_path e) ∧
    entry_time e = sum_times (entry_path e)
}.

(** What it maintains on a graph without negative weights: queue entries
    are never better than the recorded time, the recorded time of an
    unvisited station is in the queue, and a visited station is settled:
    no queued time is below its time and its affordable edges are
    relaxed. *)
Record order_inv (g : gmap string (list Connection)) (start_station : string)
    (max_time : Q) (st : DijkstraState) : Prop := mkOrderInv {
  oinv_start : ∃ t r, distances st !! start_station = Some (t, r) ∧ (t <= 0)%Q;
  oinv_known : ∀ e,
    e ∈ pq st →
    ∃ t r, distances st !! entry_station e = Some (t, r) ∧ (t <= entry_time e)%Q;
  oinv_queued : ∀ v t r,
    distances st !! v = Some (t, r) → v ∉ visited st → ∃ p, (t, v, p) ∈ pq st;
  oinv_settled : ∀ u,
    u ∈ visited st →
    ∃ t r, distances st !! u = Some (t, r) ∧
      (∀ e, e ∈ pq st → (t <= entry_time e)%Q) ∧
      (∀ connections c,
         g !! u = Some connections → c ∈ connections →
         (t + c_travel_time c <= max_time)%Q →
         ∃ t' r', distances st !! c_to_station c = Some (t', r') ∧
                  (t' <= t + c_travel_time c)%Q)
}.

(** The termination measure of the loop: queue length plus the adjacency
    entries of the stations not yet visited. *)
Definition unvisited_weight (g : gmap string (list Connection))
    (seen : gset string) : nat :=
  foldr (λ kv n, ((if decide (kv.1 ∈ seen) then 0 else length kv.2) + n)%nat)
        0%nat (map_to_list g).

Definition loop_measure (g : gmap string (list Connection))
    (st : DijkstraState) : nat :=
  (length (pq st) + unvisited_weight g (visited st))%nat.

(** The pair [relax] records for the head of [c] when it improves. *)
Definition relaxed_route (u : string) (t : Q) (p : list RouteSegment)
    (c : Connection) : Q * Route :=
  let path := p ++ [mkRouteSegment u (c_to_station c) (c_railway c)
                                   (c_travel_time c) (c_num_stops c)] in
  ((t + c_travel_time c)%Q,
   mkRoute path (t + c_travel_time c)%Q (sum_stops path)).

(** What the relaxation loop of a station popped at time [t0] maintains,
    relative to the dictionary [d0] it started from and the visited set
    [seen] (which already holds the popped station). *)
Record relax_inv (seen : gset string) (t0 : Q) (d0 : gmap string (Q * Route))
    (s : gmap string (Q * Route) * list pq_entry) : Prop := mkRelaxInv {
  xinv_floor : ∀ e, e ∈ s.2 → (t0 <= entry_time e)%Q;
  xinv_known : ∀ e,
    e ∈ s.2 →
    ∃ t r, s.1 !! entry_station e = Some (t, r) ∧ (t <= entry_time e)%Q;
  xinv_queued : ∀ v t r,
    s.1 !! v = Some (t, r) → v ∉ seen → ∃ p, (t, v, p) ∈ s.2;
  xinv_mono : ∀ v t r,
    d0 !! v = Some (t, r) →
    ((t <= t0)%Q → s.1 !! v = Some (t, r)) ∧
    ∃ t' r', s.1 !! v = Some (t', r') ∧ (t' <= t)%Q
}.

(** [c] is an adjacency entry of [u]. *)
Definition has_edge (g : gmap string (list Connection)) (u : string)
    (c : Connection) : Prop :=
  ∃ connections, g !! u = Some connections ∧ c ∈ connections.

(** Every adjacency entry of the graph satisfies [P]. *)
Definition graph_all (P : string → Connection → Prop)
    (g : gmap string (list Connection)) : Prop :=
  ∀ u c, has_edge g u c → P u c.

(** The two weights [build_network] ever gives an edge. *)
Definition configured_weight (u : string) (c : Connection) : Prop :=
  c_travel_time c = DEFAULT_AVG_TIME_PER_STOP ∨
  c_travel_time c = DEFAULT_TRANSFER_TIME.

(** ** A small network for the examples

    Line L1 runs S1 - S2 - S3 and line L2 runs S4 - T2 - S5; S2 and T2 are
    the two platforms of one interchange and carry the same title. *)
Definition demo_station (id title : string) : StationRow :=
  mkStationRow (Some id) (Some title) (Some title) None None None (Some id).

Definition demo_line (id : string) (stops : list string) : RailwayRow :=
  mkRailwayRow (Some id) (Some id)
               (Some (Parsed (map (λ s, mkOrderEntry (Some s)) stops))) (Some id).

Definition demo_db : Database :=
  mkDatabase
    [ demo_station "S1" "Aoba"; demo_station "S2" "Chuo";
      demo_station "S3" "Minato"; demo_station "S4" "Kita";
      demo_station "T2" "Chuo"; demo_station "S5" "Nishi" ]
    [ demo_line "L1" ["S1"; "S2"; "S3"]; demo_line "L2" ["S4"; "T2"; "S5"] ].

Definition demo_engine : CommuteOptimizer := build_network demo_db new_optimizer.

(** The operator key is configured. *)
Definition known_operator (operator_key : string) : Prop :=
  is_Some (dict_get operator_key OPERATORS).

(** One of the two requests of the operator's fetch, started in world
    [w], raises. *)
Definition fetch_raises {W R} (env : Env W R) (operator_key : string) (w : W)
  : Prop :=
  ∃ cfg, dict_get operator_key OPERATORS = Some cfg ∧
    ((∃ e w1,
        _fetch_data env "Station" (op_id cfg) (op_api_base cfg) (op_env_key cfg) w
        = (Raise e, w1)) ∨
     (∃ stations w1 e w2,
        _fetch_data env "Station" (op_id cfg) (op_api_base cfg) (op_env_key cfg) w
        = (Ok stations, w1) ∧
        _fetch_data env "Railway" (op_id cfg) (op_api_base cfg) (op_env_key cfg) w1
        = (Raise e, w2))).

(** Both requests succeed, with these results. *)
Definition fetch_yields {W R} (env : Env W R) (operator_key : string) (w : W)
    (stations railways : list R) : Prop :=
  ∃ cfg w1 w2, dict_get operator_key OPERATORS = Some cfg ∧
    _fetch_data env "Station" (op_id cfg) (op_api_base cfg) (op_env_key cfg) w
    = (Ok stations, w1) ∧
    _fetch_data env "Railway" (op_id cfg) (op_api_base cfg) (op_env_key cfg) w1
    = (Ok railways, w2).

(** A remote service for the examples: the state counts the requests
    served; Tokyo Metro's endpoint is down, the others answer with one
    record naming the resource. *)
Definition demo_env : Env nat string :=
  mkEnv (λ _, Some "secret")
        (λ n endpoint operator _,
           if bool_decide (operator = "odpt.Operator:TokyoMetro")
           then (Raise (RequestException "503 Server Error"), S n)
           else (Ok [endpoint], S n)).

(** The database after [create_schema] and [clear_all_data]. *)
Definition empty_db : Database := mkDatabase [] [].

(** A search term of [n] letters, already lower-case. *)
Fixpoint letters (n : nat) : string :=
  match n with
  | O => EmptyString
  | S n' => String "a"%char (letters n')
  end.

(** Every loaded station has a title and an English title. *)
Definition titles_present (self : CommuteOptimizer) : Prop :=
  ∀ station_id info,
    (station_id, info) ∈ station_info self →
    is_Some (si_title info) ∧ is_Some (si_title_en info).

(** ** Where the edges of a built graph come from *)

(** [u] and [v] are consecutive entries of a station-order list, in
    either direction. *)
Definition consecutive (order : list OrderEntry) (u v : string) : Prop :=
  ∃ l1 l2,
    order = l1 ++ mkOrderEntry (Some u) :: mkOrderEntry (Some v) :: l2 ∨
    order = l1 ++ mkOrderEntry (Some v) :: mkOrderEntry (Some u) :: l2.

(** Stations [a] and [b] were loaded from rows with the same title. *)
Definition share_title (db : Database) (a b : string) : Prop :=
  ∃ ra rb,
    ra ∈ stations db ∧ rb ∈ stations db ∧
    st_same_as ra = Some a ∧ st_same_as rb = Some b ∧
    st_title ra = st_title rb.

(** The edge [c] out of [u] was made from two consecutive entries of a
    railway row. *)
Definition railway_origin (db : Database) (u : string) (c : Connection) : Prop :=
  ∃ row r order,
    row ∈ railways db ∧ rw_same_as row = Some r ∧
    rw_station_order row = Some (Parsed order) ∧
    consecutive order u (c_to_station c) ∧
    c = railway_edge r (c_to_station c).

(** The edge [c] out of [u] was made by the transfer pass. *)
Definition transfer_origin (db : Database) (u : string) (c : Connection) : Prop :=
  share_title db u (c_to_station c) ∧ u ≠ c_to_station c ∧
  c = transfer_edge (c_to_station c).

Definition edge_origin (db : Database) (u : string) (c : Connection) : Prop :=
  railway_origin db u c ∨ transfer_origin db u c.

(** The name index holds only stations of rows with that title... *)
Definition index_sound (db : Database)
    (ts : list (option string * gset string)) : Prop :=
  ∀ title ids a,
    (title, ids) ∈ ts → a ∈ ids →
    ∃ row, row ∈ stations db ∧ st_same_as row = Some a ∧ st_title row = title.

(** ... and holds the station of every row in [rows] under its title. *)
Definition index_complete (rows : list StationRow)
    (ts : list (option string * gset string)) : Prop :=
  ∀ row a,
    row ∈ rows → st_same_as row = Some a →
    ∃ ids, dict_get (st_title row) ts = Some ids ∧ a ∈ ids.

(** The demo network without line L2: T2 is loaded but is on no line. *)
Definition demo_db_one_line : Database :=
  mkDatabase (stations demo_db) [demo_line "L1" ["S1"; "S2"; "S3"]].

(** Line L1 alone, with both ends of the line carrying the same title. *)
Definition demo_db_same_ends : Database :=
  mkDatabase
    [ demo_station "S1" "Aoba"; demo_station "S2" "Chuo";
      demo_station "S3" "Aoba" ]
    [ demo_line "L1" ["S1"; "S2"; "S3"] ].

(** Line L1 beside an express line LX that runs S1 - S3 without calling
    at S2. *)
Definition demo_db_express : Database :=
  mkDatabase
    [ demo_station "S1" "Aoba"; demo_station "S2" "Chuo";
      demo_station "S3" "Minato" ]
    [ demo_line "L1" ["S1"; "S2"; "S3"]; demo_line "LX" ["S1"; "S3"] ].

(** ** Keys of the heap *)

(** Two heap entries agree on the components the tuple comparison reads
    before it would reach the path. *)
Definition same_key (e1 e2 : pq_entry) : Prop :=
  (entry_time e1 == entry_time e2)%Q ∧ entry_station e1 = entry_station e2.

Fixpoint keys_distinct (q : list pq_entry) : Prop :=
  match q with
  | [] => True
  | e :: q' => Forall (λ e', ¬ same_key e e') q' ∧ keys_distinct q'
  end.

(** What the loop maintains on any graph about its heap: no two entries
    share a key, and no entry is better than the recorded time of its
    station. *)
Record queue_inv (st : DijkstraState) : Prop := mkQueueInv {
  qinv_distinct : keys_distinct (pq st);
  qinv_known : ∀ e,
    e ∈ pq st →
    ∃ t r, distances st !! entry_station e = Some (t, r) ∧ (t <= entry_time e)%Q
}.

(** Membership in a list that is written out. *)
Ltac in_concrete_list :=
  cbn;
  repeat first [ reflexivity | apply list_elem_of_here | apply list_elem_of_further ].

(** * Further functions of the sources *)

(** ** commute_optimizer.py: [Route.get_transfer_count] *)

(** The loop [for i in range(1, len(self.segments))], with the railway
    of the previous segment. *)
Fixpoint count_changes (previous : string) (rest : list RouteSegment) : Z :=
  match rest with
  | [] => 0
  | s :: rest' =>
      (if bool_decide (railway s ≠ previous) then 1 else 0)
      + count_changes (railway s) rest'
  end.

Definition get_transfer_count (self : Route) : Z :=
  match segments self with
  | [] => 0
  | s :: rest => count_changes (railway s) rest
  end.

(** ** commute_optimizer.py: the list [find_optimal_stations] slices *)

(** [candidates] after [candidates.sort(...)], before [candidates[:top_n]]. *)
Definition ranked_candidates (db : Database) (self : CommuteOptimizer)
    (work_station_a work_station_b : string) (max_time : Q) : list MeetingPoint :=
  let self' := ensure_built db self in
  let routes_from_a :=
    _dijkstra_with_path (network_graph self') work_station_a max_time in
  let routes_from_b :=
    _dijkstra_with_path (network_graph self') work_station_b max_time in
  py_sort rank_lt
    (candidates_of self' max_time routes_from_a routes_from_b
       (elements (common_stations routes_from_a routes_from_b
                                  work_station_a work_station_b))).

(** The stations reachable from both work stations, the two excluded. *)
Definition common_reachable (db : Database) (self : CommuteOptimizer)
    (work_station_a work_station_b : string) (max_time : Q) : gset string :=
  let g := network_graph (ensure_built db self) in
  common_stations (_dijkstra_with_path g work_station_a max_time)
                  (_dijkstra_with_path g work_station_b max_time)
                  work_station_a work_station_b.

(** A walk of graph edges from [origin] to [dest]. *)
Definition graph_walk (g : gmap string (list Connection)) (origin : string)
    (path : list RouteSegment) (dest : string) : Prop :=
  walk origin path dest ∧ Forall (segment_in g) path.

(** ** commute_optimizer.py: [build_network], read back *)

(** The dict literal [build_network] stores for a station row. *)
Definition info_of_row (row : StationRow) : StationInfo :=
  mkStationInfo (st_title row) (st_title_en row) (st_railway row)
                (st_latitude row) (st_longitude row).

(** The last row of the table whose [same_as] is [s]. *)
Definition latest_row (s : string) (rows : list StationRow) : option StationRow :=
  last (filter (λ row, st_same_as row = Some s) rows).

(** The two shapes of an adjacency entry. *)
Definition edge_shape (u : string) (c : Connection) : Prop :=
  (c_travel_time c = 2.5%Q ∧ c_num_stops c = 1) ∨
  (c_travel_time c = 5.0%Q ∧ c_num_stops c = 0 ∧ c_railway c = "Transfer").

(** Two non-empty station ids are neighbours in the order list of some
    railway row of the database. *)
Definition linked_in (db : Database) (u v : string) : Prop :=
  u ≠ "" ∧ v ≠ "" ∧
  ∃ row r order,
    row ∈ railways db ∧ rw_same_as row = Some r ∧
    rw_station_order row = Some (Parsed order) ∧ consecutive order u v.

(** ** commute_optimizer.py: [search_station] for any case mapping

    [lower] is [str.lower] on ASCII text.  On other text [str.lower]
    also maps the cased letters outside ASCII, so what depends on the
    case mapping is stated for [search_station] with the mapping left
    open: [str_lower] stands for [str.lower], whatever it does. *)

Definition lower_of_with (str_lower : string → string) (x : option string)
  : result string :=
  match x with
  | Some s => Ok (str_lower s)
  | None => Raise (AttributeError "'NoneType' object has no attribute 'lower'")
  end.

Fixpoint search_loop_with (str_lower : string → string)
    (search_term_lower : string)
    (items : list (string * StationInfo)) (results : list search_hit)
  : result (list search_hit) :=
  match items with
  | [] => Ok results
  | (station_id, info) :: items' =>
      match lower_of_with str_lower (si_title info) with
      | Raise e => Raise e
      | Ok title_lower =>
          let title := default "" (si_title info) in
          let hit := results ++ [(station_id, title, si_title_en info, si_railway info)] in
          if contains search_term_lower title_lower then
            search_loop_with str_lower search_term_lower items' hit
          else
            match lower_of_with str_lower (si_title_en info) with
            | Raise e => Raise e
            | Ok title_en_lower =>
                if contains search_term_lower title_en_lower
                then search_loop_with str_lower search_term_lower items' hit
                else search_loop_with str_lower search_term_lower items' results
            end
      end
  end.

Definition search_station_with (str_lower : string → string)
    (self : CommuteOptimizer) (search_term : string)
  : result (list search_hit) :=
  match search_loop_with str_lower (str_lower search_term) (station_info self) [] with
  | Ok results =>
      Ok (py_sort (λ x y : search_hit, String.ltb x.1.1.2 y.1.1.2) results)
  | Raise e => Raise e
  end.

(** The station matches the lower-cased term: its lower-cased title
    holds it, or else its lower-cased English title does. *)
Definition station_matches (str_lower : string → string) (term_lower : string)
    (info : StationInfo) (title : string) : Prop :=
  si_title info = Some title ∧
  (contains term_lower (str_lower title) = true ∨
   ∃ title_en, si_title_en info = Some title_en ∧
               contains term_lower (str_lower title_en) = true).

(** A case mapping for the examples: [str.lower] on text made of ASCII
    characters and the letter E with acute accent, whose UTF-8 bytes are
    195 137 in upper case and 195 169 in lower case. *)
Fixpoint lower_e_acute (s : string) : string :=
  match s with
  | EmptyString => EmptyString
  | String c s' =>
      match s' with
      | String c' s'' =>
          if ((nat_of_ascii c =? 195) && (nat_of_ascii c' =? 137))%nat
          then String c (String (ascii_of_nat 169) (lower_e_acute s''))
          else String (lower_ascii c) (lower_e_acute s')
      | EmptyString => String (lower_ascii c) EmptyString
      end
  end.

Definition e_acute_upper : string :=
  String (ascii_of_nat 195) (String (ascii_of_nat 137) EmptyString).

Definition e_acute_lower : string :=
  String (ascii_of_nat 195) (String (ascii_of_nat 169) EmptyString).

(** One station whose title is "CAF" followed by the upper-case letter. *)
Definition cafe_engine : CommuteOptimizer :=
  build_network (mkDatabase [demo_station "S1" ("CAF" +:+ e_acute_upper)] [])
                new_optimizer.

(** ** database_manager.py: [insert_stations], read back *)

Definition rows_with_id (i : string) (table : list StationRow) : list StationRow :=
  filter (λ row, st_id row = Some i) table.

(** The last record of the batch whose ["@id"] is [i]. *)
Definition latest_record (i : string) (records : list StationRecord)
  : option StationRecord :=
  last (filter (λ record, at_id record = Some i) records).

(** ** data_fetcher.py, read back *)

(** The operator is configured and its credential is unset or empty. *)
Definition lacks_credential {W R} (env : Env W R) (operator_key : string) : Prop :=
  ∃ cfg, dict_get operator_key OPERATORS = Some cfg ∧
         falsy (getenv env (op_env_key cfg)) = true.

(** ** web/models.py and app.py, read back *)

(** The [Field] constraints of [AnalyzeRequest]: [top_n] has [ge=1, le=50]
    and [max_time] has [ge=10.0, le=300.0]. *)
Definition AnalyzeRequest_valid (request : AnalyzeRequest) : Prop :=
  1 <= req_top_n request <= 50 ∧
  (10 <= req_max_time request)%Q ∧ (req_max_time request <= 300)%Q.

(** The status of the [HTTPException] the handler raises, and [None]
    when it raises none.  In that case the handler goes on to render the
    candidates into the response models (app.py:305-333); that step is
    not part of [analyze_commute] here, and it can still fail, on a
    station without coordinates for one. *)
Definition raised_status (response : HTTPResult) : option Z :=
  match response with
  | HTTPException status_code _ => Some status_code
  | AnalyzeResponse _ _ _ => None
  end.

(** ** Graphs whose edges all take time *)

Definition weights_positive (g : gmap string (list Connection)) : Prop :=
  ∀ s connections c,
    g !! s = Some connections → c ∈ connections → (0 < c_travel_time c)%Q.

(** The stations a path passes, its origin first. *)
Definition stations_on (origin : string) (path : list RouteSegment) : list string :=
  origin :: map to_station path.

(** Every edge into a vertex of the graph has an edge back that takes
    the same time. *)
Definition reversible (g : gmap string (list Connection)) : Prop :=
  ∀ u c,
    has_edge g u c → is_Some (g !! c_to_station c) →
    ∃ c', has_edge g (c_to_station c) c' ∧ c_to_station c' = u ∧
          c_travel_time c' = c_travel_time c.

(** ** Candidates with the two commuters exchanged *)

(** [y] is [x] with the two commuters exchanged: same station, routes
    swapped, same scores. *)
Definition mirrored (x y : MeetingPoint) : Prop :=
  station_id y = station_id x ∧ station_name y = station_name x ∧
  route_from_a y = route_from_b x ∧ route_from_b y = route_from_a x ∧
  (mp_total_time y == mp_total_time x)%Q ∧
  (time_difference y == time_difference x)%Q ∧
  (balance_score y == balance_score x)%Q.

(** ** A service that keeps a log *)

(** An environment whose service state is the list of the requests it
    has served (endpoint, operator, consumer key), oldest first; what it
    answers is up to [answer]. *)
Definition logging {R} (env_vars : string → option string)
    (answer : string → string → result (list R))
  : Env (list (string * string * string)) R :=
  mkEnv env_vars
        (λ served endpoint operator key,
           (answer endpoint operator, served ++ [(endpoint, operator, key)])).

(** * Proofs *)

(** ** Booleans on rationals *)

Lemma Qlt_bool_true a b : Qlt_bool a b = true ↔ (a < b)%Q.
Proof.
  unfold Qlt_bool. rewrite negb_true_iff, <- not_true_iff_false, Qle_bool_iff.
  split; [apply Qnot_le_lt | apply Qlt_not_le].
Qed.

Lemma Qlt_bool_false a b : Qlt_bool a b = false ↔ (b <= a)%Q.
Proof.
  unfold Qlt_bool. rewrite negb_false_iff. apply Qle_bool_iff.
Qed.

(** ** Sums along a path *)

Lemma sum_times_snoc path s :
  sum_times (path ++ [s]) = (sum_times path + travel_time s)%Q.
Proof. unfold sum_times. by rewrite map_app, fold_left_app. Qed.

Lemma sum_stops_snoc path s :
  sum_stops (path ++ [s]) = sum_stops path + num_stops s.
Proof. unfold sum_stops. by rewrite map_app, fold_left_app. Qed.

Lemma walk_snoc origin path s dest :
  walk origin (path ++ [s]) dest ↔
  walk origin path (from_station s) ∧ to_station s = dest.
Proof.
  revert origin. induction path as [|x path IH]; intros origin; simpl.
  - split; [intros [-> ->] | intros [-> ->]]; done.
  - rewrite IH. tauto.
Qed.

(** ** The heap *)

Lemma entry_lt_time a b : entry_lt a b = true → (entry_time a <= entry_time b)%Q.
Proof.
  destruct a as [[ta sa] pa], b as [[tb sb] pb]; unfold entry_time; simpl.
  destruct (Qeq_bool ta tb) eqn:E.
  - intros _. apply Qeq_bool_iff in E. lra.
  - intros H%Qlt_bool_true. lra.
Qed.

Lemma entry_not_lt_time a b :
  entry_lt a b = false → (entry_time b <= entry_time a)%Q.
Proof.
  destruct a as [[ta sa] pa], b as [[tb sb] pb]; unfold entry_time; simpl.
  destruct (Qeq_bool ta tb) eqn:E.
  - intros _. apply Qeq_bool_iff in E. lra.
  - intros H%Qlt_bool_false. lra.
Qed.

Lemma pop_min_spec e l m rest :
  pop_min e l = (m, rest) →
  e :: l ≡ₚ m :: rest ∧ ∀ x, x ∈ e :: l → (entry_time m <= entry_time x)%Q.
Proof.
  revert e m rest. induction l as [|x l IH]; intros e m rest; simpl.
  - intros [= <- <-]. split; [done|].
    intros y ->%list_elem_of_singleton. lra.
  - destruct (pop_min x l) as [m' rest'] eqn:E.
    destruct (IH _ _ _ E) as [Hp Hmin].
    destruct (entry_lt m' e) eqn:Hlt; intros [= <- <-].
    + split.
      * rewrite Hp. apply Permutation_swap.
      * intros y [->|Hy]%elem_of_cons; [by apply entry_lt_time | by apply Hmin].
    + split; [done|].
      intros y [->|Hy]%elem_of_cons; [lra|].
      apply entry_not_lt_time in Hlt. specialize (Hmin _ Hy). lra.
Qed.

Lemma heappop_spec q m rest :
  heappop q = Some (m, rest) →
  q ≡ₚ m :: rest ∧ ∀ x, x ∈ q → (entry_time m <= entry_time x)%Q.
Proof.
  destruct q as [|e l]; [done|]. simpl. intros [= H]. by apply pop_min_spec.
Qed.

Lemma heappop_None q : heappop q = None ↔ q = [].
Proof. destruct q; simpl; split; done. Qed.

(** ** The relaxation loop *)

Lemma fold_relax_ind (P : gmap string (Q * Route) * list pq_entry → Prop)
    T u t p connections st :
  (∀ st c, c ∈ connections → P st → P (relax T u t p st c)) →
  P st → P (fold_left (relax T u t p) connections st).
Proof.
  revert st. induction connections as [|c cs IH]; intros st Hstep H; simpl; [done|].
  apply IH.
  - intros st' c' Hc'. apply Hstep. by right.
  - apply Hstep; [by left | done].
Qed.

Lemma relax_spec T u t p st c :
  (relax T u t p st c = st ∧
   (¬ (t + c_travel_time c <= T)%Q ∨
    ∃ t' r', st.1 !! c_to_station c = Some (t', r') ∧
             (t' <= t + c_travel_time c)%Q)) ∨
  ((t + c_travel_time c <= T)%Q ∧
   (st.1 !! c_to_station c = None ∨
    ∃ t' r', st.1 !! c_to_station c = Some (t', r') ∧
             (t + c_travel_time c < t')%Q) ∧
   relax T u t p st c =
     (<[c_to_station c := relaxed_route u t p c]> st.1,
      st.2 ++ [((relaxed_route u t p c).1, c_to_station c,
                segments (relaxed_route u t p c).2)])).
Proof.
  unfold relax, relaxed_route, heappush; simpl.
  destruct (Qle_bool (t + c_travel_time c) T) eqn:Hb.
  - apply Qle_bool_iff in Hb.
    destruct (st.1 !! c_to_station c) as [[t' r']|] eqn:Hd.
    + destruct (Qlt_bool (t + c_travel_time c) t') eqn:Hlt.
      * apply Qlt_bool_true in Hlt. right. split; [done|]. split; [|done].
        right. eauto.
      * apply Qlt_bool_false in Hlt. left. split; [done|]. right. eauto.
    + right. split; [done|]. split; [by left | done].
  - left. split; [done|]. left. rewrite <- Qle_bool_iff. congruence.
Qed.

(** ** Routes recorded by the loop are consistent (any graph) *)

Lemma route_inv_init g start T : route_inv g start T (dijkstra_init start).
Proof.
  unfold dijkstra_init. split; simpl.
  - rewrite lookup_singleton_eq. eauto.
  - intros v t r [<- [= <- <-]]%lookup_singleton_Some. split; [|by right].
    by split.
  - intros e ->%list_elem_of_singleton. by repeat split.
Qed.

Lemma route_inv_visited g start T d q V V' :
  route_inv g start T (mkDijkstraState d q V) →
  route_inv g start T (mkDijkstraState d q V').
Proof. intros [H1 H2 H3]. by split. Qed.

Lemma route_inv_subqueue g start T d q q' V V' :
  (∀ e, e ∈ q' → e ∈ q) →
  route_inv g start T (mkDijkstraState d q V) →
  route_inv g start T (mkDijkstraState d q' V').
Proof. intros Hsub [H1 H2 H3]. split; simpl in *; auto. Qed.

Lemma route_inv_relax g start T V u t p connections c st :
  g !! u = Some connections → c ∈ connections →
  walk start p u → Forall (segment_in g) p → t = sum_times p →
  route_inv g start T (mkDijkstraState st.1 st.2 V) →
  route_inv g start T
    (mkDijkstraState (relax T u t p st c).1 (relax T u t p st c).2 V).
Proof.
  intros Hg Hc Hw He Ht Hinv.
  destruct (relax_spec T u t p st c) as [[-> _]|(Hle & _ & ->)]; [done|].
  assert (Hgood : consistent_route g start (c_to_station c)
                    (relaxed_route u t p c).1 (relaxed_route u t p c).2).
  { unfold relaxed_route; split; simpl.
    - apply walk_snoc. by simpl.
    - apply Forall_app. split; [done|]. apply Forall_singleton.
      exists connections. simpl. split; [done|]. by destruct c.
    - rewrite sum_times_snoc. simpl. by subst t.
    - done.
    - done. }
  assert (Hle' : ((relaxed_route u t p c).1 <= T)%Q) by exact Hle.
  destruct (relaxed_route u t p c) as [tn rn].
  destruct Hinv as [H1 H2 H3]. simpl in *.
  split; simpl.
  - destruct (decide (c_to_station c = start)) as [->|Hne].
    + rewrite lookup_insert_eq. eauto.
    + by rewrite lookup_insert_ne.
  - intros v t' r'. destruct (decide (c_to_station c = v)) as [<-|Hne].
    + rewrite lookup_insert_eq. intros [= <- <-]. split; [done|]. by left.
    + rewrite lookup_insert_ne by done. apply H2.
  - intros e [He'| ->%list_elem_of_singleton]%elem_of_app; [by apply H3|].
    destruct Hgood as [Gw Ge Gt Gb Gs]. unfold entry_path, entry_station, entry_time.
    simpl in *. split; [done|]. split; [done|]. congruence.
Qed.

Lemma route_inv_step g start T st st' :
  route_inv g start T st → dijkstra_step g T st = Some st' →
  route_inv g start T st'.
Proof.
  intros Hinv. unfold dijkstra_step.
  destruct (heappop (pq st)) as [[[[t0 u0] p0] q']|] eqn:Hpop; [|done].
  apply heappop_spec in Hpop as [Hperm _].
  assert (Hsub : ∀ e, e ∈ q' → e ∈ pq st).
  { intros e He. rewrite Hperm. by right. }
  assert (Hin : (t0, u0, p0) ∈ pq st) by (rewrite Hperm; by left).
  destruct st as [d q V]; simpl in *.
  pose proof (route_inv_subqueue g start T d q q' V V Hsub Hinv) as Hinv'.
  destruct (decide (u0 ∈ V)); [by intros [= <-]|].
  destruct (Qlt_bool T t0); [intros [= <-]; by eapply route_inv_visited|].
  destruct (g !! u0) as [connections|] eqn:Hg;
    [|intros [= <-]; by eapply route_inv_visited].
  intros [= <-].
  destruct (rinv_pq _ _ _ _ Hinv _ Hin) as (Hw & He & Ht).
  unfold entry_path, entry_station, entry_time in *; simpl in *.
  apply (fold_relax_ind
           (λ s, route_inv g start T (mkDijkstraState s.1 s.2 ({[u0]} ∪ V)))).
  - intros s c Hc Hs. by eapply route_inv_relax.
  - simpl. by eapply route_inv_visited.
Qed.

Lemma dijkstra_loop_inv (P : DijkstraState → Prop) g T :
  (∀ st st', P st → dijkstra_step g T st = Some st' → P st') →
  ∀ fuel st, P st → P (dijkstra_loop g T fuel st).
Proof.
  intros Hstep. induction fuel as [|fuel IH]; intros st H; simpl; [done|].
  destruct (dijkstra_step g T st) as [st'|] eqn:E; [|done].
  apply IH. by eapply Hstep.
Qed.

Lemma route_inv_final g start T :
  route_inv g start T (dijkstra_final g start T).
Proof.
  unfold dijkstra_final.
  apply dijkstra_loop_inv; [apply route_inv_step | apply route_inv_init].
Qed.

(** ** Termination of the loop *)

Lemma unvisited_weight_empty g : unvisited_weight g ∅ = edge_count g.
Proof.
  unfold unvisited_weight, edge_count.
  induction (map_to_list g) as [|kv l IH]; simpl; [done|].
  rewrite IH. by destruct (decide (kv.1 ∈ (∅ : gset string))) as [?%not_elem_of_empty|].
Qed.

Lemma weight_list_visit (l : list (string * list Connection)) (V : gset string) u :
  u ∉ V →
  (foldr (λ kv n, ((if decide (kv.1 ∈ {[u]} ∪ V) then 0 else length kv.2) + n)%nat)
         0%nat l
   ≤ foldr (λ kv n, ((if decide (kv.1 ∈ V) then 0 else length kv.2) + n)%nat)
           0%nat l)%nat.
Proof.
  intros Hu. induction l as [|kv l IH]; simpl; [done|].
  destruct (decide (kv.1 ∈ {[u]} ∪ V)), (decide (kv.1 ∈ V)); try lia.
  set_unfold; tauto.
Qed.

Lemma weight_list_visit_key (l : list (string * list Connection))
    (V : gset string) u connections :
  NoDup l.*1 → (u, connections) ∈ l → u ∉ V →
  (foldr (λ kv n, ((if decide (kv.1 ∈ {[u]} ∪ V) then 0 else length kv.2) + n)%nat)
         0%nat l + length connections
   = foldr (λ kv n, ((if decide (kv.1 ∈ V) then 0 else length kv.2) + n)%nat)
           0%nat l)%nat.
Proof.
  intros Hnd Hin Hu. induction l as [|kv l IH]; [by apply elem_of_nil in Hin|].
  simpl in *. apply NoDup_cons in Hnd as [Hk Hnd].
  apply elem_of_cons in Hin as [<-|Hin]; simpl.
  - destruct (decide (u ∈ {[u]} ∪ V)); [|set_unfold; tauto].
    destruct (decide (u ∈ V)); [done|].
    assert (Heq : ∀ l' : list (string * list Connection), u ∉ l'.*1 →
      foldr (λ kv n, ((if decide (kv.1 ∈ {[u]} ∪ V) then 0 else length kv.2) + n)%nat)
            0%nat l'
      = foldr (λ kv n, ((if decide (kv.1 ∈ V) then 0 else length kv.2) + n)%nat)
              0%nat l').
    { clear. induction l' as [|kv l' IH]; simpl; [done|]. intros Hn.
      apply not_elem_of_cons in Hn as [Hne Hn]. rewrite (IH Hn).
      destruct (decide (kv.1 ∈ {[u]} ∪ V)), (decide (kv.1 ∈ V)); try done;
        set_unfold; intuition congruence. }
    rewrite (Heq l Hk). lia.
  - specialize (IH Hnd Hin).
    assert (kv.1 ≠ u).
    { intros <-. apply Hk. apply list_elem_of_fmap. by exists (kv.1, connections). }
    destruct (decide (kv.1 ∈ {[u]} ∪ V)), (decide (kv.1 ∈ V)); try lia; set_unfold; tauto.
Qed.

Lemma unvisited_weight_visit g (V : gset string) u :
  u ∉ V → (unvisited_weight g ({[u]} ∪ V) ≤ unvisited_weight g V)%nat.
Proof. apply weight_list_visit. Qed.

Lemma unvisited_weight_visit_key g (V : gset string) u connections :
  g !! u = Some connections → u ∉ V →
  (unvisited_weight g ({[u]} ∪ V) + length connections = unvisited_weight g V)%nat.
Proof.
  intros Hg. apply weight_list_visit_key.
  - apply NoDup_fst_map_to_list.
  - by apply elem_of_map_to_list.
Qed.

Lemma relax_queue_length T u t p st c :
  (length (relax T u t p st c).2 ≤ S (length st.2))%nat.
Proof.
  destruct (relax_spec T u t p st c) as [[-> _]|(_ & _ & ->)]; simpl; [lia|].
  rewrite length_app. simpl. lia.
Qed.

Lemma fold_relax_queue_length T u t p connections st :
  (length (fold_left (relax T u t p) connections st).2
   ≤ length st.2 + length connections)%nat.
Proof.
  revert st. induction connections as [|c cs IH]; intros st; simpl; [lia|].
  specialize (IH (relax T u t p st c)).
  pose proof (relax_queue_length T u t p st c). lia.
Qed.

Lemma dijkstra_step_measure g T st st' :
  dijkstra_step g T st = Some st' → (loop_measure g st' < loop_measure g st)%nat.
Proof.
  unfold dijkstra_step, loop_measure.
  destruct (heappop (pq st)) as [[[[t0 u0] p0] q']|] eqn:Hpop; [|done].
  apply heappop_spec in Hpop as [Hperm _].
  apply Permutation_length in Hperm. simpl in Hperm. rewrite Hperm.
  destruct (decide (u0 ∈ visited st)) as [|Hu]; [intros [= <-]; simpl; lia|].
  pose proof (unvisited_weight_visit g (visited st) u0 Hu) as Hw.
  destruct (Qlt_bool T t0); [intros [= <-]; simpl; lia|].
  destruct (g !! u0) as [connections|] eqn:Hg; [|intros [= <-]; simpl; lia].
  intros [= <-]; simpl.
  pose proof (unvisited_weight_visit_key g (visited st) u0 connections Hg Hu).
  pose proof (fold_relax_queue_length T u0 t0 p0 connections (distances st, q')).
  simpl in *. lia.
Qed.

Lemma dijkstra_loop_exhausts g T fuel st :
  (loop_measure g st ≤ fuel)%nat → pq (dijkstra_loop g T fuel st) = [].
Proof.
  revert st. induction fuel as [|fuel IH]; intros st Hm; simpl.
  - unfold loop_measure in Hm. apply length_zero_iff_nil. lia.
  - destruct (dijkstra_step g T st) as [st'|] eqn:E.
    + apply IH. apply dijkstra_step_measure in E. lia.
    + unfold dijkstra_step in E.
      destruct (heappop (pq st)) as [[[[t0 u0] p0] q']|] eqn:Hpop.
      * repeat case_match; done.
      * by apply heappop_None.
Qed.

(** The fuel given to the loop is enough: [_dijkstra_with_path] returns
    the dictionary of the state in which [while pq] exits. *)
Lemma dijkstra_queue_exhausted g start T :
  pq (dijkstra_final g start T) = [] ∧
  dijkstra_step g T (dijkstra_final g start T) = None.
Proof.
  assert (H : pq (dijkstra_final g start T) = []).
  { apply dijkstra_loop_exhausts. unfold loop_measure, dijkstra_init. simpl.
    rewrite unvisited_weight_empty. lia. }
  split; [done|]. unfold dijkstra_step. by rewrite H.
Qed.

(** ** Settled stations (graphs without negative weights) *)

Lemma order_inv_init g start T : order_inv g start T (dijkstra_init start).
Proof.
  unfold dijkstra_init. split; simpl.
  - eexists _, _. rewrite lookup_singleton_eq. split; [done|]. lra.
  - intros e ->%list_elem_of_singleton. unfold entry_station, entry_time; simpl.
    eexists _, _. rewrite lookup_singleton_eq. split; [done|]. lra.
  - intros v t r [<- [= <- <-]]%lookup_singleton_Some _.
    exists []. by apply list_elem_of_singleton.
  - intros u Hu. by apply not_elem_of_empty in Hu.
Qed.

Lemma relax_inv_relax V t0 d0 T u p s c :
  (0 <= c_travel_time c)%Q →
  relax_inv V t0 d0 s → relax_inv V t0 d0 (relax T u t0 p s c).
Proof.
  intros Hc Hinv.
  destruct (relax_spec T u t0 p s c) as [[-> _]|(_ & Himp & ->)]; [done|].
  assert (Hnt : (relaxed_route u t0 p c).1 = (t0 + c_travel_time c)%Q) by done.
  destruct (relaxed_route u t0 p c) as [nt rt]; simpl in Hnt; subst nt.
  destruct Hinv as [H2 H3 H4 H5]. split; simpl.
  - intros e [He| ->%list_elem_of_singleton]%elem_of_app; [by apply H2|].
    unfold entry_time; simpl. lra.
  - intros e [He| ->%list_elem_of_singleton]%elem_of_app.
    + destruct (H3 e He) as (t & r & Hd & Hle).
      destruct (decide (c_to_station c = entry_station e)) as [Heq|Hne].
      * rewrite <- Heq in *. rewrite lookup_insert_eq. eexists _, _.
        split; [done|].
        destruct Himp as [Hnone|(t' & r' & Hd' & Hlt)]; [congruence|].
        rewrite Hd in Hd'. injection Hd' as <- <-. lra.
      * rewrite lookup_insert_ne by done. eauto.
    + unfold entry_station, entry_time; simpl. rewrite lookup_insert_eq.
      eexists _, _. split; [done|]. lra.
  - intros v t r. destruct (decide (c_to_station c = v)) as [<-|Hne].
    + rewrite lookup_insert_eq. intros [= <- <-] _. eexists.
      apply elem_of_app. right. by apply list_elem_of_singleton.
    + rewrite lookup_insert_ne by done. intros Hd Hv.
      destruct (H4 v t r Hd Hv) as [p' Hp']. exists p'.
      apply elem_of_app. by left.
  - intros v t r Hd0. destruct (H5 v t r Hd0) as [Ha (t' & r' & Hd & Hle)].
    destruct (decide (c_to_station c = v)) as [<-|Hne].
    + destruct Himp as [Hnone|(t'' & r'' & Hd' & Hlt)]; [congruence|].
      rewrite Hd in Hd'. injection Hd' as <- <-.
      rewrite lookup_insert_eq. split.
      * intros Hle0. specialize (Ha Hle0). rewrite Hd in Ha.
        injection Ha as -> ->. lra.
      * eexists _, _. split; [done|]. lra.
    + rewrite lookup_insert_ne by done. eauto.
Qed.

Lemma fold_relax_decreasing T u t0 p connections s v t r :
  s.1 !! v = Some (t, r) →
  ∃ t' r', (fold_left (relax T u t0 p) connections s).1 !! v = Some (t', r')
           ∧ (t' <= t)%Q.
Proof.
  intros Hd.
  apply (fold_relax_ind (λ s', ∃ t' r', s'.1 !! v = Some (t', r') ∧ (t' <= t)%Q)).
  - intros s' c _ (t' & r' & Hd' & Hle).
    destruct (relax_spec T u t0 p s' c) as [[-> _]|(_ & Himp & ->)]; [eauto|].
    simpl. destruct (decide (c_to_station c = v)) as [<-|Hne].
    + rewrite lookup_insert_eq. eexists _, _. split; [done|].
      destruct Himp as [Hnone|(t'' & r'' & Hd'' & Hlt)]; [congruence|].
      rewrite Hd' in Hd''. injection Hd'' as <- <-. simpl. lra.
    + rewrite lookup_insert_ne by done. eauto.
  - eexists _, _. split; [done|]. lra.
Qed.

Lemma fold_relax_relaxed T u t0 p connections s c :
  c ∈ connections → (t0 + c_travel_time c <= T)%Q →
  ∃ t' r',
    (fold_left (relax T u t0 p) connections s).1 !! c_to_station c = Some (t', r')
    ∧ (t' <= t0 + c_travel_time c)%Q.
Proof.
  revert s. induction connections as [|c' cs IH]; intros s Hin Hle;
    [by apply elem_of_nil in Hin|].
  simpl. apply elem_of_cons in Hin as [<-|Hin]; [|by apply IH].
  assert (∃ t' r', (relax T u t0 p s c).1 !! c_to_station c = Some (t', r')
                   ∧ (t' <= t0 + c_travel_time c)%Q) as (t' & r' & Hd & Hle').
  { destruct (relax_spec T u t0 p s c) as [[-> [Hn|H]]|(_ & _ & ->)];
      [done|done|].
    simpl. rewrite lookup_insert_eq. eexists _, _. split; [done|]. simpl. lra. }
  destruct (fold_relax_decreasing T u t0 p cs _ _ _ _ Hd) as (t'' & r'' & Hd'' & Hle'').
  eexists _, _. split; [done|]. lra.
Qed.

Lemma order_inv_step g start T st st' :
  weights_nonneg g →
  order_inv g start T st → dijkstra_step g T st = Some st' →
  order_inv g start T st'.
Proof.
  intros Hw [Hs Hk Hq Hv]. unfold dijkstra_step.
  destruct (heappop (pq st)) as [[[[t0 u0] p0] q']|] eqn:Hpop; [|done].
  apply heappop_spec in Hpop as [Hperm Hmin].
  assert (Hsub : ∀ e, e ∈ q' → e ∈ pq st).
  { intros e He. rewrite Hperm. by right. }
  assert (Hin : (t0, u0, p0) ∈ pq st) by (rewrite Hperm; by left).
  assert (Hrest : ∀ t v p, (t, v, p) ∈ pq st → v ≠ u0 → (t, v, p) ∈ q').
  { intros t v p He Hne. rewrite Hperm in He.
    apply elem_of_cons in He as [[= -> -> ->]|He]; done. }
  destruct st as [d q V]; simpl in *.
  destruct (decide (u0 ∈ V)) as [Hu0|Hu0].
  { intros [= <-]. split; simpl; auto.
    - intros v t r Hd Hn. destruct (Hq v t r Hd Hn) as [p Hp]. exists p.
      apply Hrest; [done|]. by intros ->.
    - intros u Hu. destruct (Hv u Hu) as (t & r & Hd & Hfloor & Hedges).
      exists t, r. repeat split; auto. }
  (* the popped entry carries the recorded time of [u0] *)
  destruct (Hk _ Hin) as (tu & ru & Hdu & Hle_u).
  unfold entry_station, entry_time in Hdu, Hle_u; simpl in Hdu, Hle_u.
  destruct (Hq u0 tu ru Hdu Hu0) as [pu Hpu].
  pose proof (Hmin _ Hpu) as Hge_u. unfold entry_time in Hge_u; simpl in Hge_u.
  assert (Hfloor0 : ∀ e, e ∈ q' → (t0 <= entry_time e)%Q).
  { intros e He. apply (Hmin e). auto. }
  assert (Hseen : ∀ u, u ∈ V → ∃ t r, d !! u = Some (t, r) ∧ (t <= t0)%Q).
  { intros u Hu. destruct (Hv u Hu) as (t & r & Hd & Hfl & _).
    exists t, r. split; [done|]. apply (Hfl _ Hin). }
  assert (Hidle :
    (∀ connections c, g !! u0 = Some connections → c ∈ connections →
       ¬ (tu + c_travel_time c <= T)%Q) →
    order_inv g start T (mkDijkstraState d q' ({[u0]} ∪ V))).
  { intros Hno. split; simpl; auto.
    - intros v t r Hd Hn. apply not_elem_of_union in Hn as [Hne%not_elem_of_singleton Hn].
      destruct (Hq v t r Hd Hn) as [p Hp]. exists p. by apply Hrest.
    - intros u [->%elem_of_singleton|Hu]%elem_of_union.
      + exists tu, ru. split; [done|]. split.
        * intros e He. specialize (Hfloor0 e He). lra.
        * intros connections c Hg Hc Hle. by destruct (Hno connections c Hg Hc).
      + destruct (Hv u Hu) as (t & r & Hd & Hfl & Hedges).
        exists t, r. repeat split; auto. }
  destruct (Qlt_bool T t0) eqn:Hlate.
  { intros [= <-]. apply Hidle. intros connections c Hg Hc Hle.
    apply Qlt_bool_true in Hlate. specialize (Hw _ _ _ Hg Hc). lra. }
  destruct (g !! u0) as [connections|] eqn:Hg;
    [|intros [= <-]; apply Hidle; intros ? ? [=]].
  intros [= <-]. clear Hidle.
  set (s1 := fold_left (relax T u0 t0 p0) connections (d, q')).
  assert (Hx : relax_inv ({[u0]} ∪ V) t0 d s1).
  { apply fold_relax_ind.
    - intros s c Hc. apply relax_inv_relax. by eapply Hw.
    - split; simpl; auto.
      + intros v t r Hd Hn.
        apply not_elem_of_union in Hn as [Hne%not_elem_of_singleton Hn].
        destruct (Hq v t r Hd Hn) as [p Hp]. exists p. by apply Hrest.
      + intros v t r Hd. split; [done|]. exists t, r. split; [done|]. lra. }
  destruct Hx as [X2 X3 X4 X5]. split; simpl.
  - destruct Hs as (t & r & Hd & Hle).
    destruct (X5 _ _ _ Hd) as [_ (t' & r' & Hd' & Hle')].
    exists t', r'. split; [done|]. lra.
  - done.
  - done.
  - intros u [->%elem_of_singleton|Hu]%elem_of_union.
    + exists tu, ru. destruct (X5 _ _ _ Hdu) as [Hkeep _].
      split; [apply Hkeep; lra|]. split.
      * intros e He. specialize (X2 e He). lra.
      * intros connections' c Hg' Hc Hle. rewrite Hg in Hg'. injection Hg' as <-.
        destruct (fold_relax_relaxed T u0 t0 p0 connections (d, q') c Hc)
          as (t' & r' & Hd' & Hle'); [lra|].
        exists t', r'. split; [done|]. lra.
    + destruct (Hseen u Hu) as (t & r & Hd & Hle).
      destruct (Hv u Hu) as (t' & r' & Hd' & _ & Hedges).
      rewrite Hd in Hd'. injection Hd' as <- <-.
      exists t, r. destruct (X5 _ _ _ Hd) as [Hkeep _].
      split; [by apply Hkeep|]. split.
      * intros e He. specialize (X2 e He). lra.
      * intros connections' c Hg' Hc Hle'.
        destruct (Hedges _ _ Hg' Hc Hle') as (t1 & r1 & Hd1 & Hle1).
        destruct (X5 _ _ _ Hd1) as [_ (t2 & r2 & Hd2 & Hle2)].
        exists t2, r2. split; [done|]. lra.
Qed.

Lemma order_inv_final g start T :
  weights_nonneg g → order_inv g start T (dijkstra_final g start T).
Proof.
  intros Hw. unfold dijkstra_final. apply dijkstra_loop_inv.
  - intros st st'. by apply order_inv_step.
  - apply order_inv_init.
Qed.

Lemma sum_times_nonneg g path :
  weights_nonneg g → Forall (segment_in g) path → (0 <= sum_times path)%Q.
Proof.
  intros Hw. induction path as [|s path IH] using rev_ind; intros Hp.
  - unfold sum_times; simpl. lra.
  - apply Forall_app in Hp as [Hp Hs%Forall_inv].
    rewrite sum_times_snoc. specialize (IH Hp).
    destruct Hs as (connections & Hg & Hc). specialize (Hw _ _ _ Hg Hc).
    simpl in Hw. lra.
Qed.

(** Every walk whose total time fits the bound ends at a recorded
    station, recorded with a time that is no worse. *)
Lemma dijkstra_complete g start T path v :
  weights_nonneg g →
  walk start path v → Forall (segment_in g) path → (sum_times path <= T)%Q →
  ∃ t r, _dijkstra_with_path g start T !! v = Some (t, r)
         ∧ (t <= sum_times path)%Q.
Proof.
  intros Hw. unfold _dijkstra_with_path.
  pose proof (order_inv_final g start T Hw) as [Hs Hk Hq Hv].
  destruct (dijkstra_queue_exhausted g start T) as [Hempty _].
  revert v. induction path as [|s path IH] using rev_ind; intros v Hwalk Hp Hle.
  - simpl in Hwalk. subst v. unfold sum_times; simpl. done.
  - apply walk_snoc in Hwalk as [Hwalk <-].
    apply Forall_app in Hp as [Hp Hs'%Forall_inv].
    rewrite sum_times_snoc in Hle |- *.
    destruct Hs' as (connections & Hg & Hc).
    pose proof (Hw _ _ _ Hg Hc) as Hpos. simpl in Hpos.
    destruct (IH _ Hwalk Hp) as (t & r & Hd & Hle'); [lra|].
    assert (Hvis : from_station s ∈ visited (dijkstra_final g start T)).
    { destruct (decide (from_station s ∈ visited (dijkstra_final g start T)));
        [done|].
      destruct (Hq _ _ _ Hd n) as [p Hp']. rewrite Hempty in Hp'.
      by apply elem_of_nil in Hp'. }
    destruct (Hv _ Hvis) as (t' & r' & Hd' & _ & Hedges).
    rewrite Hd in Hd'. injection Hd' as <- <-.
    destruct (Hedges _ _ Hg Hc) as (t1 & r1 & Hd1 & Hle1); [simpl; lra|].
    simpl in *. exists t1, r1. split; [done|]. lra.
Qed.

(** ** The heap never compares paths

    Python compares heap entries as tuples.  The entries of the queue
    have pairwise distinct (time, station) keys, so the comparison is
    decided before it reaches the list of segments, and [heappop] returns
    the one entry that is below all others. *)

Lemma same_key_sym e1 e2 : same_key e1 e2 → same_key e2 e1.
Proof. intros [H1 H2]. split; [by symmetry | done]. Qed.

Lemma keys_distinct_perm q q' : q ≡ₚ q' → keys_distinct q → keys_distinct q'.
Proof.
  induction 1 as [|x l l' Hp IH|x y l|l l' l'' _ IH1 _ IH2]; simpl.
  - done.
  - intros [Hx Hl]. split; [by rewrite <- Hp | by apply IH].
  - intros [[Hyx Hy]%Forall_cons [Hx Hl]]. repeat split; try done.
    apply Forall_cons. split; [|done]. intros H. by apply Hyx, same_key_sym.
  - auto.
Qed.

Lemma keys_distinct_snoc q e :
  keys_distinct q → Forall (λ e', ¬ same_key e' e) q → keys_distinct (q ++ [e]).
Proof.
  induction q as [|x q IH]; simpl; [done|].
  intros [Hx Hq] [Hxe Hall]%Forall_cons. split; [|by apply IH].
  apply Forall_app. split; [done|]. by apply Forall_singleton.
Qed.

Lemma queue_inv_init start : queue_inv (dijkstra_init start).
Proof.
  unfold dijkstra_init. split; simpl.
  - split; [constructor | done].
  - intros e ->%list_elem_of_singleton. unfold entry_station, entry_time; simpl.
    eexists _, _. rewrite lookup_singleton_eq. split; [done|]. lra.
Qed.

Lemma queue_inv_relax T u t p V s c :
  queue_inv (mkDijkstraState s.1 s.2 V) →
  queue_inv (mkDijkstraState (relax T u t p s c).1 (relax T u t p s c).2 V).
Proof.
  intros Hinv.
  destruct (relax_spec T u t p s c) as [[-> _]|(_ & Himp & ->)]; [done|].
  assert (Hnt : (relaxed_route u t p c).1 = (t + c_travel_time c)%Q) by done.
  destruct (relaxed_route u t p c) as [nt rt]; simpl in Hnt; subst nt.
  destruct Hinv as [Hd Hk]; simpl in *. split; simpl.
  - apply keys_distinct_snoc; [done|]. apply Forall_forall.
    intros e He [Htime Hst]. destruct (Hk e He) as (t' & r' & Hlook & Hle).
    unfold entry_time, entry_station in Htime, Hst; simpl in Htime, Hst.
    unfold entry_station in Hlook. rewrite Hst in Hlook.
    destruct Himp as [Hnone|(t'' & r'' & Hlook' & Hlt)]; [congruence|].
    rewrite Hlook in Hlook'. injection Hlook' as <- <-.
    unfold entry_time in Hle. lra.
  - intros e [He| ->%list_elem_of_singleton]%elem_of_app.
    + destruct (Hk e He) as (t' & r' & Hlook & Hle).
      destruct (decide (c_to_station c = entry_station e)) as [Heq|Hne].
      * rewrite <- Heq in *. rewrite lookup_insert_eq. eexists _, _.
        split; [done|].
        destruct Himp as [Hnone|(t'' & r'' & Hlook' & Hlt)]; [congruence|].
        rewrite Hlook in Hlook'. injection Hlook' as <- <-. lra.
      * rewrite lookup_insert_ne by done. eauto.
    + unfold entry_station, entry_time; simpl. rewrite lookup_insert_eq.
      eexists _, _. split; [done|]. lra.
Qed.

Lemma queue_inv_step g T st st' :
  queue_inv st → dijkstra_step g T st = Some st' → queue_inv st'.
Proof.
  intros [Hd Hk]. unfold dijkstra_step.
  destruct (heappop (pq st)) as [[[[t0 u0] p0] q']|] eqn:Hpop; [|done].
  apply heappop_spec in Hpop as [Hperm _].
  assert (Hrest : queue_inv (mkDijkstraState (distances st) q' (visited st))).
  { split; simpl.
    - apply (keys_distinct_perm _ _ Hperm) in Hd. by destruct Hd.
    - intros e He. apply Hk. rewrite Hperm. by right. }
  assert (Hany : ∀ V, queue_inv (mkDijkstraState (distances st) q' V)).
  { intros V. by destruct Hrest. }
  destruct (decide (u0 ∈ visited st)); [by intros [= <-]|].
  destruct (Qlt_bool T t0); [by intros [= <-]|].
  destruct (g !! u0) as [connections|]; [|by intros [= <-]].
  intros [= <-].
  apply (fold_relax_ind
           (λ s, queue_inv (mkDijkstraState s.1 s.2 ({[u0]} ∪ visited st)))).
  - intros s c _. apply queue_inv_relax.
  - apply Hany.
Qed.

Lemma queue_inv_loop g T fuel start :
  queue_inv (dijkstra_loop g T fuel (dijkstra_init start)).
Proof.
  apply dijkstra_loop_inv; [apply queue_inv_step | apply queue_inv_init].
Qed.

Lemma ascii_compare_trans a b c :
  Ascii.compare a b = Lt → Ascii.compare b c = Lt → Ascii.compare a c = Lt.
Proof.
  unfold Ascii.compare. rewrite !N.compare_lt_iff. lia.
Qed.

Lemma string_compare_trans s1 s2 s3 :
  String.compare s1 s2 = Lt → String.compare s2 s3 = Lt →
  String.compare s1 s3 = Lt.
Proof.
  revert s2 s3. induction s1 as [|a s1 IH]; intros [|b s2] [|c s3]; simpl;
    try done.
  destruct (Ascii.compare a b) eqn:Hab; [|clear IH|done].
  - apply Ascii.compare_eq_iff in Hab as ->.
    destruct (Ascii.compare b c); [apply IH | done | done].
  - intros _. destruct (Ascii.compare b c) eqn:Hbc; [| |done].
    + apply Ascii.compare_eq_iff in Hbc as <-. by rewrite Hab.
    + intros _. by rewrite (ascii_compare_trans a b c).
Qed.

Lemma string_ltb_trans s1 s2 s3 :
  String.ltb s1 s2 = true → String.ltb s2 s3 = true → String.ltb s1 s3 = true.
Proof.
  unfold String.ltb.
  destruct (String.compare s1 s2) eqn:H12; try done.
  destruct (String.compare s2 s3) eqn:H23; try done.
  by rewrite (string_compare_trans s1 s2 s3).
Qed.

Lemma string_ltb_total s1 s2 :
  s1 ≠ s2 → String.ltb s1 s2 = false → String.ltb s2 s1 = true.
Proof.
  unfold String.ltb. intros Hne. rewrite (String.compare_antisym s2 s1).
  destruct (String.compare s1 s2) eqn:H; try done.
  by apply String.compare_eq_iff in H.
Qed.

Lemma entry_lt_trans a b c :
  entry_lt a b = true → entry_lt b c = true → entry_lt a c = true.
Proof.
  destruct a as [[ta sa] pa], b as [[tb sb] pb], c as [[tc sc] pc]. simpl.
  destruct (Qeq_bool ta tb) eqn:Eab;
    [apply Qeq_bool_iff in Eab | apply Qeq_bool_neq in Eab];
    (destruct (Qeq_bool tb tc) eqn:Ebc;
     [apply Qeq_bool_iff in Ebc | apply Qeq_bool_neq in Ebc]);
    (destruct (Qeq_bool ta tc) eqn:Eac;
     [apply Qeq_bool_iff in Eac | apply Qeq_bool_neq in Eac]);
    rewrite ?Qlt_bool_true; try (intros; lra).
  apply string_ltb_trans.
Qed.

Lemma entry_lt_total a b :
  ¬ same_key a b → entry_lt a b = false → entry_lt b a = true.
Proof.
  destruct a as [[ta sa] pa], b as [[tb sb] pb].
  unfold same_key, entry_time, entry_station. simpl. intros Hne.
  destruct (Qeq_bool ta tb) eqn:Eab;
    [apply Qeq_bool_iff in Eab | apply Qeq_bool_neq in Eab];
    (destruct (Qeq_bool tb ta) eqn:Eba;
     [apply Qeq_bool_iff in Eba | apply Qeq_bool_neq in Eba]);
    rewrite ?Qlt_bool_true, ?Qlt_bool_false.
  - apply string_ltb_total. intros ->. by apply Hne.
  - destruct Eba. by symmetry.
  - destruct Eab. by symmetry.
  - intros H. apply Qle_lteq in H as [H|H]; [done|]. by destruct Eba.
Qed.

Lemma pop_min_least e l m rest :
  keys_distinct (e :: l) → pop_min e l = (m, rest) →
  ∀ x, x ∈ rest → entry_lt m x = true.
Proof.
  revert e m rest. induction l as [|x l IH]; intros e m rest Hd; simpl.
  - intros [= <- <-] y Hy. by apply elem_of_nil in Hy.
  - destruct (pop_min x l) as [m' rest'] eqn:E.
    destruct Hd as [He Hd].
    pose proof (IH _ _ _ Hd E) as Hleast.
    destruct (pop_min_spec _ _ _ _ E) as [Hperm _].
    assert (Hem : ¬ same_key e m').
    { rewrite Forall_forall in He. apply He. rewrite Hperm. by left. }
    destruct (entry_lt m' e) eqn:Hlt; intros [= <- <-] y Hy.
    + apply elem_of_cons in Hy as [->|Hy]; [done | by apply Hleast].
    + assert (Hlt' : entry_lt e m' = true).
      { apply entry_lt_total; [|done]. intros H. by apply Hem, same_key_sym. }
      rewrite Hperm in Hy. apply elem_of_cons in Hy as [->|Hy]; [done|].
      eapply entry_lt_trans; [done | by apply Hleast].
Qed.

(** In every state the loop reaches, [heappop] returns the entry that
    the tuple comparison puts strictly below every other entry. *)
Lemma heappop_least g T fuel start m rest :
  heappop (pq (dijkstra_loop g T fuel (dijkstra_init start))) = Some (m, rest) →
  ∀ x, x ∈ rest → entry_lt m x = true.
Proof.
  pose proof (qinv_distinct _ (queue_inv_loop g T fuel start)) as Hd.
  destruct (pq _) as [|e l]; [done|]. simpl. intros [= H].
  by eapply pop_min_least.
Qed.

(** ** Graph construction: what is true of every edge *)

Lemma graph_all_empty P : graph_all P ∅.
Proof. intros u c (connections & Hg & _). by rewrite lookup_empty in Hg. Qed.

Lemma has_edge_append g s c u c' :
  has_edge (graph_append s c g) u c' ↔ has_edge g u c' ∨ (u = s ∧ c' = c).
Proof.
  unfold has_edge, graph_append. split.
  - intros (connections & Hg & Hc). destruct (decide (s = u)) as [->|Hne].
    + rewrite lookup_insert_eq in Hg. injection Hg as <-.
      apply elem_of_app in Hc as [Hc| ->%list_elem_of_singleton]; [|by right].
      left. destruct (g !! u) as [l|]; simpl in Hc; [eauto|].
      by apply elem_of_nil in Hc.
    + rewrite lookup_insert_ne in Hg by done. left. eauto.
  - intros [(connections & Hg & Hc)|[-> ->]].
    + destruct (decide (s = u)) as [->|Hne].
      * rewrite lookup_insert_eq, Hg. eexists. split; [done|].
        apply elem_of_app. by left.
      * rewrite lookup_insert_ne by done. eauto.
    + rewrite lookup_insert_eq. eexists. split; [done|].
      apply elem_of_app. right. by apply list_elem_of_singleton.
Qed.

Lemma has_edge_add_transfer g a b u c :
  has_edge (add_transfer a b g) u c ↔
  has_edge g u c ∨ (u = a ∧ c = transfer_edge b ∧ is_Some (g !! a)).
Proof.
  unfold has_edge, add_transfer. destruct (g !! a) as [l|] eqn:Ha.
  - split.
    + intros (connections & Hg & Hc). destruct (decide (a = u)) as [->|Hne].
      * rewrite lookup_insert_eq in Hg. injection Hg as <-.
        apply elem_of_app in Hc as [Hc| ->%list_elem_of_singleton]; eauto.
      * rewrite lookup_insert_ne in Hg by done. eauto.
    + intros [(connections & Hg & Hc)|(-> & -> & _)].
      * destruct (decide (a = u)) as [->|Hne].
        -- rewrite lookup_insert_eq. rewrite Ha in Hg. injection Hg as <-.
           eexists. split; [done|]. apply elem_of_app. by left.
        -- rewrite lookup_insert_ne by done. eauto.
      * rewrite lookup_insert_eq. eexists. split; [done|].
        apply elem_of_app. right. by apply list_elem_of_singleton.
  - split; [by left|]. intros [H|(_ & _ & [? [=]])]. done.
Qed.

Lemma add_transfer_dom g a b u :
  is_Some (add_transfer a b g !! u) ↔ is_Some (g !! u).
Proof.
  unfold add_transfer. destruct (g !! a) as [l|] eqn:Ha; [|done].
  destruct (decide (a = u)) as [->|Hne].
  - rewrite lookup_insert_eq, Ha. split; eauto.
  - by rewrite lookup_insert_ne.
Qed.

Lemma graph_all_append P g s c :
  graph_all P g → P s c → graph_all P (graph_append s c g).
Proof.
  intros Hg Hc u c' [H|[-> ->]]%has_edge_append; [by apply Hg | done].
Qed.

Lemma graph_all_add_transfer P g a b :
  graph_all P g → P a (transfer_edge b) → graph_all P (add_transfer a b g).
Proof.
  intros Hg Hc u c' [H|(-> & -> & _)]%has_edge_add_transfer;
    [by apply Hg | done].
Qed.

(** ** Graph construction: every weight is 2.5 or 5.0 *)

Lemma process_railway_order_step railway current next_stop rest g :
  _process_railway_order railway (current :: next_stop :: rest) g =
  _process_railway_order railway (next_stop :: rest)
    (link_stations railway current next_stop g).
Proof. reflexivity. Qed.

Lemma process_railway_order_weights railway station_order g :
  graph_all configured_weight g →
  graph_all configured_weight (_process_railway_order railway station_order g).
Proof.
  revert g. induction station_order as [|current rest IH]; intros g Hg; [done|].
  destruct rest as [|next_stop rest']; [done|].
  rewrite process_railway_order_step. apply IH. unfold link_stations.
  destruct (odpt_station current) as [cs|], (odpt_station next_stop) as [ns|];
    try done.
  destruct (falsy (Some cs) || falsy (Some ns)); [done|].
  repeat apply graph_all_append; try done; by left.
Qed.

Lemma connect_same_name_weights ids g :
  graph_all configured_weight g →
  graph_all configured_weight (connect_same_name ids g).
Proof.
  unfold connect_same_name. case_bool_decide; [|done].
  generalize (transfer_pairs (elements ids)). intros l. revert g.
  induction l as [|ab l IH]; intros g Hg; simpl; [done|].
  apply IH. repeat apply graph_all_add_transfer; try done; by right.
Qed.

Lemma add_transfer_connections_weights ts g :
  graph_all configured_weight g →
  graph_all configured_weight (_add_transfer_connections ts g).
Proof.
  unfold _add_transfer_connections. revert g.
  induction ts as [|entry ts IH]; intros g Hg; simpl; [done|].
  apply IH. by apply connect_same_name_weights.
Qed.

Lemma load_station_graph self row :
  network_graph (load_station self row) = network_graph self.
Proof. unfold load_station. by destruct (st_same_as row). Qed.

Lemma load_stations_graph rows self :
  network_graph (fold_left load_station rows self) = network_graph self.
Proof.
  revert self. induction rows as [|row rows IH]; intros self; simpl; [done|].
  by rewrite IH, load_station_graph.
Qed.

Lemma load_railway_weights self row :
  graph_all configured_weight (network_graph self) →
  graph_all configured_weight (network_graph (load_railway self row)).
Proof.
  intros Hg. unfold load_railway.
  destruct (rw_same_as row) as [railway_id|]; [|done].
  destruct (rw_station_order row) as [[|[|x l]]|]; try done.
  exact (process_railway_order_weights railway_id (x :: l) _ Hg).
Qed.

Lemma build_network_weights db self :
  graph_all configured_weight (network_graph self) →
  graph_all configured_weight (network_graph (build_network db self)).
Proof.
  intros Hg. unfold build_network. simpl.
  apply add_transfer_connections_weights.
  assert (H : ∀ rows s, graph_all configured_weight (network_graph s) →
            graph_all configured_weight (network_graph (fold_left load_railway rows s))).
  { induction rows as [|row rows IH]; intros s Hs; simpl; [done|].
    apply IH. by apply load_railway_weights. }
  apply H. by rewrite load_stations_graph.
Qed.

Lemma engine_state_weights self :
  engine_state self → graph_all configured_weight (network_graph self).
Proof.
  induction 1 as [|db self _ IH]; [apply graph_all_empty|].
  by apply build_network_weights.
Qed.

Lemma configured_weights_nonneg g :
  graph_all configured_weight g → weights_nonneg g.
Proof.
  intros Hg s connections c Hs Hc.
  destruct (Hg s c) as [-> | ->]; [by exists connections|..];
    unfold DEFAULT_AVG_TIME_PER_STOP, DEFAULT_TRANSFER_TIME; lra.
Qed.

Lemma engine_state_nonneg self :
  engine_state self → weights_nonneg (network_graph self).
Proof. intros H. by apply configured_weights_nonneg, engine_state_weights. Qed.

Lemma ensure_built_state db self :
  engine_state self → engine_state (ensure_built db self).
Proof.
  intros H. unfold ensure_built. case_bool_decide; [by constructor | done].
Qed.

(** ** [_dijkstra_with_path]: the claims *)

(** C3.  For every graph, start station and non-negative bound [T], every
    station in the mapping returned by [_dijkstra_with_path] is paired
    with a best time that does not exceed [T]. *)
Theorem dijkstra_respects_bound g start T v t r :
  (0 <= T)%Q →
  _dijkstra_with_path g start T !! v = Some (t, r) →
  (t <= T)%Q.
Proof.
  intros HT Hd.
  destruct (rinv_dist _ _ _ _ (route_inv_final g start T) v t r Hd)
    as [Hc [Hle|[_ ->]]]; [done|].
  destruct Hc as [_ _ _ Hb _]. simpl in Hb. by subst t.
Qed.

Lemma dijkstra_respects_bound_witness :
  ∃ t r, _dijkstra_with_path (network_graph demo_engine) "S1" 6 !! "S3" = Some (t, r)
         ∧ (t <= 6)%Q.
Proof.
  eexists _, _. split; [vm_compute; reflexivity|].
  eapply (dijkstra_respects_bound (network_graph demo_engine) "S1" 6 "S3").
  - lra.
  - vm_compute; reflexivity.
Defined.

(** C4.  For every station in the mapping returned by
    [_dijkstra_with_path], the paired Route is consistent with the paired
    time: its segments are graph edges forming a contiguous walk from the
    start station to that station, its [total_time] is the sum of the
    segments' travel times and is the recorded best time, and its
    [total_stops] is the sum of the segments' stop counts. *)
Theorem dijkstra_route_consistent g start T v t r :
  _dijkstra_with_path g start T !! v = Some (t, r) →
  walk start (segments r) v ∧
  Forall (segment_in g) (segments r) ∧
  total_time r = sum_times (segments r) ∧
  total_time r = t ∧
  total_stops r = sum_stops (segments r).
Proof.
  intros Hd.
  by destruct (rinv_dist _ _ _ _ (route_inv_final g start T) v t r Hd)
    as [[? ? ? ? ?] _].
Qed.

Lemma dijkstra_route_consistent_witness :
  ∃ t r, _dijkstra_with_path (network_graph demo_engine) "S1" 120 !! "S5" = Some (t, r)
         ∧ walk "S1" (segments r) "S5"
         ∧ total_time r = sum_times (segments r)
         ∧ total_time r = t
         ∧ total_stops r = sum_stops (segments r)
         ∧ length (segments r) = 3%nat.
Proof.
  eexists _, _. split; [vm_compute; reflexivity|].
  pose proof (dijkstra_route_consistent (network_graph demo_engine) "S1" 120 "S5"
                _ _ ltac:(vm_compute; reflexivity)) as (Hw & _ & Ht & Hb & Hs).
  split; [exact Hw|]. split; [exact Ht|]. split; [exact Hb|].
  split; [exact Hs | reflexivity].
Defined.

Lemma dijkstra_start_recorded g start T :
  is_Some (_dijkstra_with_path g start T !! start).
Proof. apply (rinv_start _ _ _ _ (route_inv_final g start T)). Qed.

Lemma dijkstra_monotone_nonneg g start T1 T2 :
  weights_nonneg g → (T1 <= T2)%Q →
  dom (_dijkstra_with_path g start T1) ⊆ dom (_dijkstra_with_path g start T2).
Proof.
  intros Hw HT v [[t r] Hd]%elem_of_dom. apply elem_of_dom.
  destruct (rinv_dist _ _ _ _ (route_inv_final g start T1) v t r Hd)
    as [[Hwalk Hedges Htime Hbest _] [Hle|[-> _]]].
  - assert (Hfit : (sum_times (segments r) <= T2)%Q).
    { rewrite <- Htime, Hbest. lra. }
    destruct (dijkstra_complete g start T2 (segments r) v Hw Hwalk Hedges Hfit)
      as (t' & r' & Hd' & _).
    by rewrite Hd'.
  - apply dijkstra_start_recorded.
Qed.

(** C6.  Reachability is monotone in the time bound: on the graph of any
    engine, for bounds [T1 <= T2], every station returned under [T1] is
    returned under [T2]. *)
Theorem dijkstra_reachable_monotone self start T1 T2 :
  engine_state self → (T1 <= T2)%Q →
  dom (_dijkstra_with_path (network_graph self) start T1) ⊆
  dom (_dijkstra_with_path (network_graph self) start T2).
Proof.
  intros Hs. apply dijkstra_monotone_nonneg. by apply engine_state_nonneg.
Qed.

Lemma dijkstra_reachable_monotone_witness :
  (dom (_dijkstra_with_path (network_graph demo_engine) "S1" 3) ⊆
   dom (_dijkstra_with_path (network_graph demo_engine) "S1" 8))
  ∧ ("S3" ∉ dom (_dijkstra_with_path (network_graph demo_engine) "S1" 3))
  ∧ ("S3" ∈ dom (_dijkstra_with_path (network_graph demo_engine) "S1" 8)).
Proof.
  split; [|split].
  - apply (dijkstra_reachable_monotone demo_engine "S1" 3 8).
    + apply engine_built, engine_new.
    + lra.
  - apply not_elem_of_dom. vm_compute; reflexivity.
  - apply elem_of_dom. vm_compute. eauto.
Defined.

(** ** Sorting and slicing *)

Lemma sort_insert_perm {A} (lt : A → A → bool) x l :
  sort_insert lt x l ≡ₚ x :: l.
Proof.
  induction l as [|y l IH]; simpl; [done|].
  destruct (lt y x); [|done]. rewrite IH. apply Permutation_swap.
Qed.

Lemma py_sort_perm {A} (lt : A → A → bool) l : py_sort lt l ≡ₚ l.
Proof.
  induction l as [|x l IH]; simpl; [done|].
  rewrite sort_insert_perm. by constructor.
Qed.

(** Consecutive elements of [l] are related by [R]. *)
Lemma sort_insert_sorted {A} (lt : A → A → bool) x l :
  (∀ a b, lt a b = true → lt b a = false) →
  Sorted (λ a b, lt b a = false) l →
  Sorted (λ a b, lt b a = false) (sort_insert lt x l).
Proof.
  intros Hasym. induction 1 as [|y l Hs IH Hhd]; simpl.
  - by repeat constructor.
  - destruct (lt y x) eqn:Hyx.
    + constructor; [done|].
      destruct Hhd as [|z l Hz]; simpl.
      * constructor. by apply Hasym.
      * destruct (lt z x); constructor; [done | by apply Hasym].
    + constructor; [by constructor|]. by constructor.
Qed.

Lemma py_sort_sorted {A} (lt : A → A → bool) l :
  (∀ a b, lt a b = true → lt b a = false) →
  Sorted (λ a b, lt b a = false) (py_sort lt l).
Proof.
  intros Hasym. induction l as [|x l IH]; simpl; [constructor|].
  by apply sort_insert_sorted.
Qed.

Lemma Sorted_take {A} (R : A → A → Prop) n l :
  Sorted R l → Sorted R (take n l).
Proof.
  intros Hs. revert n. induction Hs as [|x l Hs IH Hhd]; intros [|n]; simpl;
    try constructor.
  - apply IH.
  - destruct Hhd as [|y l Hy]; destruct n; simpl; by constructor.
Qed.

Lemma Sorted_adjacent {A} (R : A → A → Prop) l i x y :
  Sorted R l → l !! i = Some x → l !! S i = Some y → R x y.
Proof.
  intros Hs. revert i. induction Hs as [|z l Hs IH Hhd]; intros i; [done|].
  destruct i as [|i]; simpl.
  - intros [= ->] Hy. destruct Hhd as [|w l Hw]; [done|].
    simpl in Hy. by injection Hy as <-.
  - apply IH.
Qed.

Lemma slice_to_sublist {A} (n : Z) (l : list A) x : x ∈ slice_to n l → x ∈ l.
Proof. unfold slice_to. destruct (0 <=? n); apply subseteq_take. Qed.

Lemma slice_to_length {A} (n : Z) (l : list A) :
  0 <= n → Z.of_nat (length (slice_to n l)) <= n.
Proof.
  intros Hn. unfold slice_to. rewrite (proj2 (Z.leb_le 0 n) Hn).
  rewrite length_take. lia.
Qed.

Lemma slice_to_sorted {A} (R : A → A → Prop) (n : Z) l :
  Sorted R l → Sorted R (slice_to n l).
Proof. intros Hs. unfold slice_to. destruct (0 <=? n); by apply Sorted_take. Qed.

(** ** [find_optimal_stations]: the claims *)

Lemma rank_lt_asym x y : rank_lt x y = true → rank_lt y x = false.
Proof.
  unfold rank_lt.
  destruct (Qeq_bool (mp_total_time x) (mp_total_time y)) eqn:E1,
           (Qeq_bool (mp_total_time y) (mp_total_time x)) eqn:E2;
    rewrite ?Qlt_bool_true, ?Qlt_bool_false; try (intros; lra).
  - apply Qeq_bool_iff in E1. apply Qeq_bool_neq in E2. intros _.
    destruct E2. by symmetry.
  - apply Qeq_bool_iff in E2. apply Qeq_bool_neq in E1. intros _.
    destruct E1. by symmetry.
Qed.

Lemma rank_not_lt x y :
  rank_lt y x = false →
  (mp_total_time x < mp_total_time y)%Q ∨
  (mp_total_time x == mp_total_time y ∧ time_difference x <= time_difference y)%Q.
Proof.
  unfold rank_lt.
  destruct (Qeq_bool (mp_total_time y) (mp_total_time x)) eqn:E;
    rewrite Qlt_bool_false; intros H.
  - apply Qeq_bool_iff in E. right. split; [by symmetry | done].
  - apply Qeq_bool_neq in E. left. apply Qle_lteq in H as [H|H]; [done|].
    destruct E. by symmetry.
Qed.

(** What [find_optimal_stations] returns when it returns: a slice of the
    sorted candidates, each built from the two recorded pairs. *)
Lemma find_optimal_stations_ok db self a b top_n T candidates :
  (find_optimal_stations db self a b top_n T).2 = Ok candidates →
  let g := network_graph (ensure_built db self) in
  ∃ all,
    candidates = slice_to top_n (py_sort rank_lt all) ∧
    ∀ mp, mp ∈ all →
      ∃ ra rb,
        _dijkstra_with_path g a T !! station_id mp = Some ra ∧
        _dijkstra_with_path g b T !! station_id mp = Some rb ∧
        station_id mp ≠ a ∧ station_id mp ≠ b ∧
        mp = make_candidate (ensure_built db self) T (station_id mp) ra rb.
Proof.
  unfold find_optimal_stations. simpl.
  set (g := network_graph (ensure_built db self)).
  set (common := elements (common_stations _ _ a b)).
  assert (Hall : ∀ mp,
    mp ∈ candidates_of (ensure_built db self) T (_dijkstra_with_path g a T)
           (_dijkstra_with_path g b T) common →
    ∃ ra rb,
      _dijkstra_with_path g a T !! station_id mp = Some ra ∧
      _dijkstra_with_path g b T !! station_id mp = Some rb ∧
      station_id mp ≠ a ∧ station_id mp ≠ b ∧
      mp = make_candidate (ensure_built db self) T (station_id mp) ra rb).
  { intros mp (s & Hs & Hmp)%list_elem_of_omap.
    destruct (_dijkstra_with_path g a T !! s) as [ra|] eqn:Ha; [|done].
    destruct (_dijkstra_with_path g b T !! s) as [rb|] eqn:Hb; [|done].
    simpl in Hmp. injection Hmp as <-. simpl. exists ra, rb.
    apply elem_of_elements in Hs. unfold common_stations in Hs.
    set_unfold. repeat split; try done; tauto. }
  destruct common as [|s common'] eqn:Hc.
  - intros [= <-]. exists []. split; [done|]. intros mp Hmp.
    by apply elem_of_nil in Hmp.
  - destruct (Qeq_bool T 0); [done|]. simpl. intros [= <-].
    eexists. split; [done|]. apply Hall.
Qed.

Lemma find_optimal_stations_returns db self a b top_n T :
  ¬ (T == 0)%Q → is_ok (find_optimal_stations db self a b top_n T).2 = true.
Proof.
  intros HT. unfold find_optimal_stations. simpl.
  destruct (elements _); [done|].
  destruct (Qeq_bool T 0) eqn:E; [|done]. by apply Qeq_bool_iff in E.
Qed.

(** Both legs of a candidate lie between 0 and the bound. *)
Lemma dijkstra_leg_bounds g start T v t r :
  weights_nonneg g → (0 <= T)%Q →
  _dijkstra_with_path g start T !! v = Some (t, r) → (0 <= t <= T)%Q.
Proof.
  intros Hw HT Hd.
  destruct (rinv_dist _ _ _ _ (route_inv_final g start T) v t r Hd)
    as [[_ He Ht Hb _] Hle].
  assert (H0 : (0 <= t)%Q).
  { rewrite <- Hb, Ht. by eapply sum_times_nonneg. }
  split; [done|]. destruct Hle as [Hle|[_ ->]]; [done|].
  simpl in Hb. by subst t.
Qed.

(** C2.  For every call of [find_optimal_stations] with [max_time > 0] on
    an engine, the call returns a list, and every MeetingPoint in it has
    [time_difference <= max_time] and a [balance_score] within [0, 1]. *)
Theorem balance_score_bounded db self a b top_n max_time :
  engine_state self → (0 < max_time)%Q →
  ∃ candidates,
    (find_optimal_stations db self a b top_n max_time).2 = Ok candidates ∧
    ∀ mp, mp ∈ candidates →
      (time_difference mp <= max_time)%Q ∧
      (0 <= balance_score mp)%Q ∧ (balance_score mp <= 1)%Q.
Proof.
  intros Hs HT.
  assert (Hne : ¬ (max_time == 0)%Q).
  { intros E. rewrite E in HT. by apply Qlt_irrefl in HT. }
  pose proof (find_optimal_stations_returns db self a b top_n max_time Hne) as Hret.
  destruct ((find_optimal_stations db self a b top_n max_time).2)
    as [candidates|e] eqn:Hres; [|discriminate Hret].
  exists candidates. split; [done|]. intros mp Hmp.
  destruct (find_optimal_stations_ok _ _ _ _ _ _ _ Hres) as (all & -> & Hall).
  apply slice_to_sublist in Hmp. rewrite py_sort_perm in Hmp.
  destruct (Hall mp Hmp) as ([ta ra] & [tb rb] & Ha & Hb & _ & _ & ->).
  pose proof (engine_state_nonneg _ (ensure_built_state db self Hs)) as Hw.
  assert (H0 : (0 <= max_time)%Q) by lra.
  pose proof (dijkstra_leg_bounds _ _ _ _ _ _ Hw H0 Ha) as [Ha0 Ha1].
  pose proof (dijkstra_leg_bounds _ _ _ _ _ _ Hw H0 Hb) as [Hb0 Hb1].
  unfold make_candidate; cbn [time_difference balance_score fst snd].
  assert (Hd : (Qabs (ta - tb) <= max_time)%Q).
  { apply Qabs_Qle_condition. split; lra. }
  pose proof (Qabs_nonneg (ta - tb)) as Hd0.
  split; [done|].
  assert (Hq1 : (Qabs (ta - tb) / max_time <= 1)%Q).
  { apply Qle_shift_div_r; [done | lra]. }
  assert (Hq0 : (0 <= Qabs (ta - tb) / max_time)%Q).
  { apply Qle_shift_div_l; [done | lra]. }
  revert Hq0 Hq1. generalize (Qabs (ta - tb) / max_time)%Q. intros q Hq0 Hq1.
  split; lra.
Qed.

Lemma balance_score_bounded_witness :
  ∃ candidates,
    (find_optimal_stations demo_db demo_engine "S1" "S5" 10 120).2 = Ok candidates ∧
    length candidates = 4%nat ∧
    ∀ mp, mp ∈ candidates →
      (time_difference mp <= 120)%Q ∧
      (0 <= balance_score mp)%Q ∧ (balance_score mp <= 1)%Q.
Proof.
  destruct (balance_score_bounded demo_db demo_engine "S1" "S5" 10 120)
    as (candidates & Hres & Hall).
  - apply engine_built, engine_new.
  - lra.
  - exists candidates. split; [done|]. split; [|done].
    assert (H : ∃ l, (find_optimal_stations demo_db demo_engine "S1" "S5" 10 120).2
                     = Ok l ∧ length l = 4%nat).
    { eexists. split; [vm_compute; reflexivity | reflexivity]. }
    destruct H as (l & Hl & Hlen). rewrite Hres in Hl. by injection Hl as ->.
Defined.

(** C5.  The list returned by [find_optimal_stations] is sorted: for any
    adjacent pair (x, y), either [x.total_time < y.total_time], or the
    total times are equal and [x.time_difference <= y.time_difference];
    and for a result count [top_n >= 0] at most [top_n] candidates are
    returned. *)
Theorem ranking_sorted db self a b top_n max_time candidates :
  (find_optimal_stations db self a b top_n max_time).2 = Ok candidates →
  (∀ i x y,
     candidates !! i = Some x → candidates !! S i = Some y →
     (mp_total_time x < mp_total_time y)%Q ∨
     (mp_total_time x == mp_total_time y ∧
      time_difference x <= time_difference y)%Q) ∧
  (0 <= top_n → Z.of_nat (length candidates) <= top_n).
Proof.
  intros Hres.
  destruct (find_optimal_stations_ok _ _ _ _ _ _ _ Hres) as (all & -> & _).
  split; [|apply slice_to_length].
  intros i x y Hx Hy. apply rank_not_lt.
  eapply (Sorted_adjacent (λ x y, rank_lt y x = false)); [|exact Hx|exact Hy].
  apply slice_to_sorted, py_sort_sorted, rank_lt_asym.
Qed.

Lemma ranking_sorted_witness :
  ∃ candidates,
    (find_optimal_stations demo_db demo_engine "S1" "S5" 3 120).2 = Ok candidates ∧
    map station_id candidates = ["S2"; "T2"; "S3"] ∧
    (∀ i x y,
       candidates !! i = Some x → candidates !! S i = Some y →
       (mp_total_time x < mp_total_time y)%Q ∨
       (mp_total_time x == mp_total_time y ∧
        time_difference x <= time_difference y)%Q) ∧
    (0 <= 3 → Z.of_nat (length candidates) <= 3).
Proof.
  eexists. split; [vm_compute; reflexivity|]. split; [reflexivity|].
  apply (ranking_sorted demo_db demo_engine "S1" "S5" 3 120).
  vm_compute; reflexivity.
Defined.

(** ** Dictionaries *)

Lemma dict_get_set_eq {K V} `{EqDecision K} (k : K) (v : V) d :
  dict_get k (dict_set k v d) = Some v.
Proof.
  induction d as [|[k' v'] d IH]; simpl.
  - by rewrite decide_True.
  - destruct (decide (k = k')) as [->|Hne]; simpl.
    + by rewrite decide_True.
    + by rewrite decide_False.
Qed.

Lemma dict_get_set_ne {K V} `{EqDecision K} (k k' : K) (v : V) d :
  k ≠ k' → dict_get k' (dict_set k v d) = dict_get k' d.
Proof.
  intros Hne. induction d as [|[k0 v0] d IH]; simpl.
  - by rewrite decide_False.
  - destruct (decide (k = k0)) as [->|Hne0]; simpl.
    + by rewrite !decide_False.
    + destruct (decide (k' = k0)); done.
Qed.

Lemma dict_get_elem {K V} `{EqDecision K} (k : K) (v : V) d :
  dict_get k d = Some v → (k, v) ∈ d.
Proof.
  induction d as [|[k' v'] d IH]; simpl; [done|].
  destruct (decide (k = k')) as [->|Hne].
  - intros [= ->]. by left.
  - intros H. right. by apply IH.
Qed.

(** ** [fetch_all_operators]: one operator's failure stays its own *)

Lemma fetch_operator_data_known {W R} (env : Env W R) k w :
  known_operator k →
  ∃ data w',
    fetch_operator_data env k w = (Ok data, w') ∧
    (fetch_raises env k w → data = mkOperatorData [] []) ∧
    (∀ stations railways,
       fetch_yields env k w stations railways →
       data = mkOperatorData stations railways).
Proof.
  intros [cfg Hcfg]. unfold fetch_operator_data, fetch_raises, fetch_yields.
  rewrite Hcfg.
  destruct (_fetch_data env "Station" _ _ _ w) as [[stations|e] w1] eqn:Hs.
  - destruct (_fetch_data env "Railway" _ _ _ w1) as [[railways|e] w2] eqn:Hr.
    + eexists _, _. split; [done|]. split.
      * intros (cfg' & [= <-] & [(e & w' & Hs')|(s & w1' & e & w2' & Hs' & Hr')]);
          rewrite Hs in Hs'; [done|].
        injection Hs' as <- <-. rewrite Hr in Hr'. done.
      * intros s r (cfg' & w1' & w2' & [= <-] & Hs' & Hr').
        rewrite Hs in Hs'. injection Hs' as <- <-.
        rewrite Hr in Hr'. by injection Hr' as <- <-.
    + eexists _, _. split; [done|]. split; [done|].
      intros s r (cfg' & w1' & w2' & [= <-] & Hs' & Hr').
      rewrite Hs in Hs'. injection Hs' as <- <-. rewrite Hr in Hr'. done.
  - eexists _, _. split; [done|]. split; [done|].
    intros s r (cfg' & w1' & w2' & [= <-] & Hs' & _). rewrite Hs in Hs'. done.
Qed.

Lemma fetch_each_known {W R} (env : Env W R) keys acc w :
  Forall known_operator keys →
  ∃ all_data w', fetch_each env keys acc w = (Ok all_data, w').
Proof.
  intros Hk. revert acc w. induction Hk as [|k keys Hk _ IH]; intros acc w; simpl.
  - eauto.
  - destruct (fetch_operator_data_known env k w Hk) as (data & w1 & -> & _).
    apply IH.
Qed.

Lemma fetch_each_app {W R} (env : Env W R) l1 l2 acc w :
  fetch_each env (l1 ++ l2) acc w =
  match fetch_each env l1 acc w with
  | (Ok d, w1) => fetch_each env l2 d w1
  | (Raise e, w1) => (Raise e, w1)
  end.
Proof.
  revert acc w. induction l1 as [|k l1 IH]; intros acc w; simpl; [done|].
  destruct (fetch_operator_data env k w) as [[data|e] w1]; [apply IH | done].
Qed.

Lemma fetch_each_keeps {W R} (env : Env W R) keys acc w all_data w' k :
  fetch_each env keys acc w = (Ok all_data, w') →
  k ∉ keys → dict_get k all_data = dict_get k acc.
Proof.
  revert acc w. induction keys as [|k' keys IH]; intros acc w; simpl.
  - by intros [= <- <-].
  - destruct (fetch_operator_data env k' w) as [[data|e] w1]; [|done].
    intros Hrun [Hne Hnot]%not_elem_of_cons.
    rewrite (IH _ _ Hrun Hnot). apply dict_get_set_ne. congruence.
Qed.

Lemma fetch_each_has {W R} (env : Env W R) keys acc w all_data w' k :
  fetch_each env keys acc w = (Ok all_data, w') →
  k ∈ keys → is_Some (dict_get k all_data).
Proof.
  revert acc w. induction keys as [|k' keys IH]; intros acc w; simpl.
  - intros _ Hin. by apply elem_of_nil in Hin.
  - destruct (fetch_operator_data env k' w) as [[data|e] w1]; [|done].
    intros Hrun Hin. destruct (decide (k ∈ keys)) as [Hk|Hk]; [by eapply IH|].
    apply elem_of_cons in Hin as [->|Hin]; [|done].
    rewrite (fetch_each_keeps _ _ _ _ _ _ _ Hrun Hk), dict_get_set_eq. eauto.
Qed.

(** C9.  For every list of known operator keys and every behaviour of the
    remote service, [fetch_all_operators] returns a dictionary with an
    entry for every requested key; the entry of an operator is what its
    own (last) fetch produced in the world it ran in: empty station and
    railway lists when one of its requests raised, the fetched lists when
    both succeeded, whatever happened to the other operators. *)
Theorem fetch_all_operators_resilient {W R} (env : Env W R) keys w :
  Forall known_operator keys →
  ∃ all_data w',
    fetch_all_operators env (Some keys) w = (Ok all_data, w') ∧
    (∀ k, k ∈ keys → is_Some (dict_get k all_data)) ∧
    ∀ before k after,
      keys = before ++ k :: after → k ∉ after →
      let wk := (fetch_all_operators env (Some before) w).2 in
      ∃ data,
        (fetch_operator_data env k wk).1 = Ok data ∧
        dict_get k all_data = Some data ∧
        (fetch_raises env k wk → data = mkOperatorData [] []) ∧
        (∀ stations railways,
           fetch_yields env k wk stations railways →
           data = mkOperatorData stations railways).
Proof.
  intros Hk. unfold fetch_all_operators. simpl.
  destruct (fetch_each_known env keys [] w Hk) as (all_data & w' & Hrun).
  exists all_data, w'. split; [done|]. split.
  { intros k. by eapply fetch_each_has. }
  intros before k after -> Hafter.
  apply Forall_app in Hk as [Hb Hk]. apply Forall_cons in Hk as [Hk Ha].
  rewrite fetch_each_app in Hrun.
  destruct (fetch_each_known env before [] w Hb) as (d1 & w1 & Hrun1).
  rewrite Hrun1 in Hrun |- *. simpl in Hrun |- *.
  destruct (fetch_operator_data_known env k w1 Hk) as (data & w2 & Hown & Hfail & Hgood).
  rewrite Hown in Hrun |- *. exists data. split; [done|]. split; [|done].
  rewrite (fetch_each_keeps _ _ _ _ _ _ _ Hrun Hafter). apply dict_get_set_eq.
Qed.

Lemma fetch_all_operators_resilient_witness :
  ∃ all_data w',
    fetch_all_operators demo_env (Some ["JR_EAST"; "TOKYO_METRO"; "KEIKYU"]) 0%nat
    = (Ok all_data, w') ∧
    dict_get "TOKYO_METRO" all_data = Some (mkOperatorData [] []) ∧
    dict_get "JR_EAST" all_data
    = Some (mkOperatorData
              ["https://api-challenge.odpt.org/api/v4/odpt:Station"]
              ["https://api-challenge.odpt.org/api/v4/odpt:Railway"]) ∧
    dict_get "KEIKYU" all_data
    = Some (mkOperatorData
              ["https://api-challenge.odpt.org/api/v4/odpt:Station"]
              ["https://api-challenge.odpt.org/api/v4/odpt:Railway"]).
Proof.
  destruct (fetch_all_operators_resilient demo_env
              ["JR_EAST"; "TOKYO_METRO"; "KEIKYU"] 0%nat)
    as (all_data & w' & Hrun & _ & _).
  - repeat constructor; vm_compute; eauto.
  - exists all_data, w'. split; [done|].
    assert (H : fetch_all_operators demo_env
                  (Some ["JR_EAST"; "TOKYO_METRO"; "KEIKYU"]) 0%nat
                = (Ok all_data, w')) by done.
    vm_compute in H. injection H as <- <-. by repeat split.
Defined.

(** ** [analyze_commute]: mapping of validation failures *)

(** C8 (amended).  The analyze endpoint checks in this order.  A request
    with [station_a == station_b] gets HTTP 400.  A request with two
    different stations whose [station_a] is not in the loaded station map
    gets HTTP 404 with a message that starts with "Station A".  A request
    that passes both station checks and for which the ranking returns an
    empty list gets HTTP 404 with the message suggesting to increase
    [max_time]. *)
Theorem analyze_commute_errors db optimizer request :
  let a := req_station_a request in
  let b := req_station_b request in
  let loaded := station_info (ensure_built db optimizer) in
  let response := (analyze_commute db optimizer request).2 in
  (a = b → response = HTTPException 400 "Work stations must be different") ∧
  (a ≠ b → dict_get a loaded = None →
   response = HTTPException 404 ("Station A not found: " +:+ a) ∧
   String.prefix "Station A" ("Station A not found: " +:+ a) = true) ∧
  (a ≠ b → is_Some (dict_get a loaded) → is_Some (dict_get b loaded) →
   (find_optimal_stations db (ensure_built db optimizer) a b
      (req_top_n request) (req_max_time request)).2 = Ok [] →
   response =
     HTTPException 404
       "No common reachable stations found. Try increasing max_time.").
Proof.
  intros a b loaded response. subst response. unfold analyze_commute.
  fold a b. fold loaded. unfold dict_contains. split; [|split].
  - intros Hab. by rewrite bool_decide_eq_true_2.
  - intros Hab Ha. rewrite bool_decide_eq_false_2 by done.
    rewrite Ha. split; [done|]. unfold a. reflexivity.
  - intros Hab [ia Ha] [ib Hb] Hrank. rewrite bool_decide_eq_false_2 by done.
    rewrite Ha, Hb. simpl.
    destruct (find_optimal_stations db (ensure_built db optimizer) a b
                (req_top_n request) (req_max_time request)) as [o2 res].
    simpl in Hrank. by subst res.
Qed.

Lemma analyze_commute_errors_witness :
  (analyze_commute demo_db new_optimizer (mkAnalyzeRequest "S1" "S1" 10 120)).2
  = HTTPException 400 "Work stations must be different" ∧
  (analyze_commute demo_db new_optimizer (mkAnalyzeRequest "S9" "S1" 10 120)).2
  = HTTPException 404 "Station A not found: S9" ∧
  (analyze_commute demo_db new_optimizer (mkAnalyzeRequest "S1" "S5" 10 2)).2
  = HTTPException 404 "No common reachable stations found. Try increasing max_time.".
Proof.
  split; [|split].
  - apply (proj1 (analyze_commute_errors demo_db new_optimizer
                    (mkAnalyzeRequest "S1" "S1" 10 120))).
    reflexivity.
  - apply (proj1 (proj2 (analyze_commute_errors demo_db new_optimizer
                           (mkAnalyzeRequest "S9" "S1" 10 120))));
      [discriminate | vm_compute; reflexivity].
  - apply (proj2 (proj2 (analyze_commute_errors demo_db new_optimizer
                           (mkAnalyzeRequest "S1" "S5" 10 2))));
      [discriminate | vm_compute; eauto | vm_compute; eauto
      | vm_compute; reflexivity].
Defined.

(** The claim as stated fails where its first two cases overlap: a
    request naming the same unknown station twice is answered 400, not
    404. *)
Lemma analyze_same_unknown_station :
  dict_get "S9" (station_info (ensure_built demo_db new_optimizer)) = None ∧
  (analyze_commute demo_db new_optimizer (mkAnalyzeRequest "S9" "S9" 10 120)).2
  = HTTPException 400 "Work stations must be different" ∧
  (∀ detail,
     (analyze_commute demo_db new_optimizer (mkAnalyzeRequest "S9" "S9" 10 120)).2
     ≠ HTTPException 404 detail).
Proof.
  split; [vm_compute; reflexivity|]. split; [reflexivity|].
  intros detail. vm_compute. discriminate.
Qed.

(** ** [search_station]: totality needs the titles *)

Lemma lower_length s : String.length (lower s) = String.length s.
Proof. induction s as [|c s IH]; simpl; [done | by rewrite IH]. Qed.

Lemma lower_letters n : lower (letters n) = letters n.
Proof. induction n as [|n IH]; simpl; [done | by rewrite IH]. Qed.

Lemma letters_length n : String.length (letters n) = n.
Proof. induction n as [|n IH]; simpl; [done | by rewrite IH]. Qed.

Lemma prefix_length needle haystack :
  String.prefix needle haystack = true →
  (String.length needle ≤ String.length haystack)%nat.
Proof.
  revert haystack. induction needle as [|c needle IH]; intros [|c' haystack];
    simpl; try done; try lia.
  destruct (Ascii.ascii_dec c c'); [|done]. intros H%IH. lia.
Qed.

Lemma contains_length needle haystack :
  contains needle haystack = true →
  (String.length needle ≤ String.length haystack)%nat.
Proof.
  induction haystack as [|c haystack IH].
  - cbn [contains]. rewrite orb_false_r. apply prefix_length.
  - cbn [contains]. intros [H%prefix_length|H%IH]%orb_true_iff; simpl in *; lia.
Qed.

Lemma contains_letters_false title :
  contains (letters (S (String.length title))) (lower title) = false.
Proof.
  apply not_true_is_false. intros H%contains_length.
  rewrite letters_length, lower_length in H. lia.
Qed.

(** If the loop returns, every station it went through had a title, and
    an English title unless the title already matched. *)
Lemma search_loop_ok term items results out :
  search_loop term items results = Ok out →
  ∀ station_id info,
    (station_id, info) ∈ items →
    ∃ title, si_title info = Some title ∧
      (contains term (lower title) = true ∨ is_Some (si_title_en info)).
Proof.
  revert results. induction items as [|[id0 info0] items IH]; intros results Hrun;
    [intros ? ? H; by apply elem_of_nil in H|].
  simpl in Hrun.
  destruct (si_title info0) as [title|] eqn:Ht; [|done]. simpl in Hrun.
  assert (Hhead : contains term (lower title) = true ∨ is_Some (si_title_en info0)).
  { destruct (contains term (lower title)); [by left|].
    destruct (si_title_en info0); [right; eauto | done]. }
  assert (Htail : ∃ results', search_loop term items results' = Ok out).
  { destruct (contains term (lower title)); [eauto|].
    destruct (si_title_en info0) as [te|]; [|done]. simpl in Hrun.
    destruct (contains term (lower te)); eauto. }
  destruct Htail as [results' Hrun'].
  intros station_id info [[= -> ->]|Hin]%elem_of_cons.
  - exists title. by rewrite Ht.
  - by eapply IH.
Qed.

Lemma search_loop_total term items results :
  (∀ station_id info,
     (station_id, info) ∈ items →
     is_Some (si_title info) ∧ is_Some (si_title_en info)) →
  is_ok (search_loop term items results) = true.
Proof.
  revert results. induction items as [|[id0 info0] items IH]; intros results Hall;
    [done|].
  destruct (Hall id0 info0) as [[title Ht] [te Hte]]; [by left|].
  simpl. rewrite Ht, Hte. simpl.
  assert (Hrest : ∀ station_id info, (station_id, info) ∈ items →
                    is_Some (si_title info) ∧ is_Some (si_title_en info)).
  { intros sid info Hin. apply (Hall sid info). by right. }
  destruct (contains term (lower title)); [by apply IH|].
  destruct (contains term (lower te)); by apply IH.
Qed.

Lemma search_station_ok_iff self term :
  is_ok (search_station self term) = true ↔
  is_ok (search_loop (lower term) (station_info self) []) = true.
Proof. unfold search_station. by destruct (search_loop _ _ _). Qed.

(** C10.  [search_station] returns for every search term exactly when
    every loaded station has a non-null title and English title; and a
    station record without the nested bilingual-title mapping, stored by
    [insert_stations] and loaded by [build_network], makes it raise
    AttributeError instead of returning a list. *)
Theorem search_station_needs_titles :
  (∀ self,
     (∀ term, is_ok (search_station self term) = true) ↔ titles_present self) ∧
  (∀ record sid,
     odpt_stationTitle record = None ∨ odpt_stationTitle record = Some TitleOther →
     owl_sameAs record = Some sid →
     let db := (insert_stations [record] empty_db).1 in
     let self := build_network db new_optimizer in
     dict_get sid (station_info self)
     = Some (mkStationInfo (dc_title record) None (odpt_railway record)
                           (geo_lat record) (geo_long record)) ∧
     ∃ term msg, search_station self term = Raise (AttributeError msg)).
Proof.
  split.
  - intros self. split.
    + intros Htotal station_id info Hin.
      pose proof (Htotal "") as H0. apply search_station_ok_iff in H0.
      destruct (search_loop (lower "") (station_info self) []) as [out|] eqn:Hrun;
        [|done].
      destruct (search_loop_ok _ _ _ _ Hrun _ _ Hin) as (title & Ht & _).
      split; [by rewrite Ht|].
      pose proof (Htotal (letters (S (String.length title)))) as H1.
      apply search_station_ok_iff in H1. rewrite lower_letters in H1.
      destruct (search_loop (letters _) (station_info self) []) as [out'|] eqn:Hrun';
        [|done].
      destruct (search_loop_ok _ _ _ _ Hrun' _ _ Hin) as (title' & Ht' & Hor).
      rewrite Ht in Ht'. injection Ht' as <-.
      destruct Hor as [Hc|Hen]; [|done].
      by rewrite contains_letters_false in Hc.
    + intros Hall term. apply search_station_ok_iff. by apply search_loop_total.
  - intros record sid Hnone Hsid db self.
    assert (Hen : title_en_of record = None).
    { unfold title_en_of. by destruct Hnone as [-> | ->]. }
    assert (Hinfo : station_info self
                    = [(sid, mkStationInfo (dc_title record) None (odpt_railway record)
                                           (geo_lat record) (geo_long record))]).
    { subst self db. unfold build_network, insert_stations, insert_or_replace,
        row_of_record, load_station, load_railway; simpl.
      by rewrite Hsid, Hen. }
    split.
    { rewrite Hinfo. simpl. by rewrite decide_True. }
    unfold search_station. rewrite Hinfo.
    destruct (dc_title record) as [title|] eqn:Ht.
    + exists (letters (S (String.length title))). eexists.
      rewrite lower_letters. cbn [search_loop si_title si_title_en lower_of].
      rewrite contains_letters_false. reflexivity.
    + exists "". eexists. reflexivity.
Qed.

Lemma search_station_needs_titles_witness :
  let record := mkStationRecord (Some "urn:ucode:_00001C000000000000010000030E6C2A")
                  (Some "Tokyo") None (Some "odpt.Railway:JR-East.Yamanote")
                  None None (Some "odpt.Station:JR-East.Yamanote.Tokyo") in
  let self := build_network (insert_stations [record] empty_db).1 new_optimizer in
  is_ok (search_station self "tok") = true ∧
  (∃ term msg, search_station self term = Raise (AttributeError msg)) ∧
  ¬ titles_present self.
Proof.
  intros record self.
  pose proof (proj2 search_station_needs_titles record
                "odpt.Station:JR-East.Yamanote.Tokyo" (or_introl eq_refl) eq_refl)
    as [Hinfo Hraise].
  split; [reflexivity|]. split; [exact Hraise|].
  intros Hall.
  pose proof (proj2 (proj1 search_station_needs_titles self) Hall) as Htotal.
  destruct Hraise as (term & msg & Hr). specialize (Htotal term).
  fold record in Hr. fold self in Hr. rewrite Hr in Htotal. discriminate.
Defined.

(** ** Graph construction: the railway pass *)

Lemma has_edge_process_mono railway station_order g u c :
  has_edge g u c → has_edge (_process_railway_order railway station_order g) u c.
Proof.
  revert g. induction station_order as [|current rest IH]; intros g Hg; [done|].
  destruct rest as [|next_stop rest']; [done|].
  rewrite process_railway_order_step. apply IH. unfold link_stations.
  destruct (odpt_station current) as [cs|], (odpt_station next_stop) as [ns|];
    try done.
  destruct (falsy (Some cs) || falsy (Some ns)); [done|].
  apply has_edge_append. left. apply has_edge_append. by left.
Qed.

Lemma process_railway_order_adds railway l1 l2 u v g :
  u ≠ "" → v ≠ "" →
  let g' := _process_railway_order railway
              (l1 ++ mkOrderEntry (Some u) :: mkOrderEntry (Some v) :: l2) g in
  has_edge g' u (railway_edge railway v) ∧ has_edge g' v (railway_edge railway u).
Proof.
  intros Hu Hv. revert g. induction l1 as [|x l1 IH]; intros g.
  - cbn [app]. rewrite process_railway_order_step.
    unfold link_stations. cbn [odpt_station]. unfold falsy.
    rewrite !bool_decide_eq_false_2 by done. cbn [orb].
    split; apply has_edge_process_mono.
    + apply has_edge_append. left. apply has_edge_append. by right.
    + apply has_edge_append. by right.
  - destruct l1 as [|y l1]; cbn [app] in *; rewrite process_railway_order_step;
      apply IH.
Qed.

Lemma process_railway_order_origin (P : string → Connection → Prop)
    railway pre station_order g :
  (∀ u v, consecutive (pre ++ station_order) u v → P u (railway_edge railway v)) →
  graph_all P g →
  graph_all P (_process_railway_order railway station_order g).
Proof.
  revert pre g. induction station_order as [|current rest IH]; intros pre g HP Hg;
    [done|].
  destruct rest as [|next_stop rest']; [done|].
  rewrite process_railway_order_step. apply (IH (pre ++ [current])).
  { intros u v. rewrite <- app_assoc. apply HP. }
  unfold link_stations.
  destruct current as [[cs|]], next_stop as [[ns|]]; cbn [odpt_station]; try done.
  destruct (falsy (Some cs) || falsy (Some ns)); [done|].
  repeat apply graph_all_append; [done|..].
  - apply HP. exists pre, rest'. by left.
  - apply HP. exists pre, rest'. by right.
Qed.

Lemma load_railway_mono self row u c :
  has_edge (network_graph self) u c →
  has_edge (network_graph (load_railway self row)) u c.
Proof.
  intros Hg. unfold load_railway.
  destruct (rw_same_as row) as [railway_id|]; [|done].
  destruct (rw_station_order row) as [[|[|x l]]|]; try done.
  exact (has_edge_process_mono railway_id (x :: l) _ _ _ Hg).
Qed.

Lemma load_railways_mono rows self u c :
  has_edge (network_graph self) u c →
  has_edge (network_graph (fold_left load_railway rows self)) u c.
Proof.
  revert self. induction rows as [|row rows IH]; intros self Hg; simpl; [done|].
  by apply IH, load_railway_mono.
Qed.

Lemma load_railway_origin db self row :
  row ∈ railways db →
  graph_all (edge_origin db) (network_graph self) →
  graph_all (edge_origin db) (network_graph (load_railway self row)).
Proof.
  intros Hrow Hg. unfold load_railway.
  destruct (rw_same_as row) as [railway_id|] eqn:Hid; [|done].
  destruct (rw_station_order row) as [[|[|x l]]|] eqn:Ho; try done.
  apply (process_railway_order_origin (edge_origin db) railway_id [] (x :: l));
    [|done].
  intros u v Hc. left. exists row, railway_id, (x :: l). by repeat split.
Qed.

Lemma load_railways_origin db rows self :
  (∀ row, row ∈ rows → row ∈ railways db) →
  graph_all (edge_origin db) (network_graph self) →
  graph_all (edge_origin db) (network_graph (fold_left load_railway rows self)).
Proof.
  revert self. induction rows as [|row rows IH]; intros self Hrows Hg; simpl;
    [done|].
  apply IH.
  - intros r Hr. apply Hrows. by right.
  - apply load_railway_origin; [|done]. apply Hrows. by left.
Qed.

Lemma load_railway_index self row :
  transfer_stations (load_railway self row) = transfer_stations self ∧
  station_info (load_railway self row) = station_info self.
Proof.
  unfold load_railway.
  by destruct (rw_same_as row), (rw_station_order row).
Qed.

Lemma load_railways_index rows self :
  transfer_stations (fold_left load_railway rows self) = transfer_stations self ∧
  station_info (fold_left load_railway rows self) = station_info self.
Proof.
  revert self. induction rows as [|row rows IH]; intros self; simpl; [done|].
  destruct (IH (load_railway self row)) as [-> ->]. apply load_railway_index.
Qed.

(** ** Graph construction: the name index and the transfer pass *)

Lemma dict_set_elem {K V} `{EqDecision K} (k k' : K) (v v' : V) d :
  (k', v') ∈ dict_set k v d → (k' = k ∧ v' = v) ∨ (k', v') ∈ d.
Proof.
  induction d as [|[k0 v0] d IH]; simpl.
  - intros [= -> ->]%list_elem_of_singleton. by left.
  - destruct (decide (k = k0)) as [->|Hne].
    + intros [[= -> ->]|Hin]%elem_of_cons; [by left|]. right. by right.
    + intros [[= -> ->]|Hin]%elem_of_cons; [right; by left|].
      destruct (IH Hin) as [?|?]; [by left|]. right. by right.
Qed.

Lemma load_station_index_sound db self row :
  row ∈ stations db →
  index_sound db (transfer_stations self) →
  index_sound db (transfer_stations (load_station self row)).
Proof.
  intros Hrow Hs. unfold load_station.
  destruct (st_same_as row) as [sid|] eqn:Hsid; [|done]. simpl.
  intros title ids a [[-> ->]|Hin]%dict_set_elem Ha; [|by eapply Hs].
  apply elem_of_union in Ha as [->%elem_of_singleton|Ha]; [by exists row|].
  destruct (dict_get (st_title row) (transfer_stations self)) as [old|] eqn:Hd;
    simpl in Ha; [|by apply not_elem_of_empty in Ha].
  apply dict_get_elem in Hd. by eapply Hs.
Qed.

Lemma load_stations_index_sound db rows self :
  (∀ row, row ∈ rows → row ∈ stations db) →
  index_sound db (transfer_stations self) →
  index_sound db (transfer_stations (fold_left load_station rows self)).
Proof.
  revert self. induction rows as [|row rows IH]; intros self Hrows Hs; simpl;
    [done|].
  apply IH.
  - intros r Hr. apply Hrows. by right.
  - apply load_station_index_sound; [|done]. apply Hrows. by left.
Qed.

Lemma load_station_index_keeps self row title ids a :
  dict_get title (transfer_stations self) = Some ids → a ∈ ids →
  ∃ ids', dict_get title (transfer_stations (load_station self row)) = Some ids'
          ∧ a ∈ ids'.
Proof.
  intros Hd Ha. unfold load_station.
  destruct (st_same_as row) as [sid|]; [|eauto]. simpl.
  destruct (decide (st_title row = title)) as [->|Hne].
  - rewrite dict_get_set_eq, Hd. eexists. split; [done|]. simpl. set_unfold; tauto.
  - rewrite dict_get_set_ne by done. eauto.
Qed.

Lemma load_stations_index_complete rows self done_rows :
  index_complete done_rows (transfer_stations self) →
  index_complete (done_rows ++ rows)
                 (transfer_stations (fold_left load_station rows self)).
Proof.
  revert self done_rows. induction rows as [|row rows IH];
    intros self done_rows Hc; simpl.
  - by rewrite app_nil_r.
  - rewrite cons_middle, app_assoc. apply IH.
    intros r a [Hr| ->%list_elem_of_singleton]%elem_of_app Hsid.
    + destruct (Hc r a Hr Hsid) as (ids & Hd & Ha).
      by eapply load_station_index_keeps.
    + unfold load_station. rewrite Hsid. simpl. rewrite dict_get_set_eq.
      eexists. split; [done|]. set_unfold; tauto.
Qed.

Lemma transfer_pairs_elem l a b :
  (a, b) ∈ transfer_pairs l → a ∈ l ∧ b ∈ l ∧ (NoDup l → a ≠ b).
Proof.
  induction l as [|x l IH]; simpl; [by intros ?%elem_of_nil|].
  intros [(y & [= <- <-] & Hy)%list_elem_of_fmap|Hin]%elem_of_app.
  - split; [by left|]. split; [by right|].
    intros [Hx _]%NoDup_cons ->. done.
  - destruct (IH Hin) as (Ha & Hb & Hne). split; [by right|]. split; [by right|].
    intros [_ Hnd]%NoDup_cons. by apply Hne.
Qed.

Lemma transfer_pairs_covers l a b :
  a ∈ l → b ∈ l → a ≠ b → (a, b) ∈ transfer_pairs l ∨ (b, a) ∈ transfer_pairs l.
Proof.
  induction l as [|x l IH]; [by intros ?%elem_of_nil|].
  intros [->|Ha]%elem_of_cons [->|Hb]%elem_of_cons Hne; simpl.
  - done.
  - left. apply elem_of_app. left. apply list_elem_of_fmap. by exists b.
  - right. apply elem_of_app. left. apply list_elem_of_fmap. by exists a.
  - destruct (IH Ha Hb Hne); [left|right]; apply elem_of_app; by right.
Qed.

(** Adding the two directions for a list of pairs. *)
Lemma fold_transfer_mono pairs g u c :
  has_edge g u c →
  has_edge (fold_left (λ g ab, add_transfer ab.2 ab.1 (add_transfer ab.1 ab.2 g))
                      pairs g) u c.
Proof.
  revert g. induction pairs as [|ab pairs IH]; intros g Hg; simpl; [done|].
  apply IH. apply has_edge_add_transfer. left. apply has_edge_add_transfer.
  by left.
Qed.

Lemma fold_transfer_dom pairs g u :
  is_Some (fold_left (λ g ab, add_transfer ab.2 ab.1 (add_transfer ab.1 ab.2 g))
                     pairs g !! u) ↔ is_Some (g !! u).
Proof.
  revert g. induction pairs as [|ab pairs IH]; intros g; simpl; [done|].
  by rewrite IH, !add_transfer_dom.
Qed.

Lemma fold_transfer_adds pairs g a b :
  (a, b) ∈ pairs ∨ (b, a) ∈ pairs → is_Some (g !! a) →
  has_edge (fold_left (λ g ab, add_transfer ab.2 ab.1 (add_transfer ab.1 ab.2 g))
                      pairs g) a (transfer_edge b).
Proof.
  revert g. induction pairs as [|ab pairs IH]; intros g Hin Hdom; simpl.
  - destruct Hin as [Hin|Hin]; by apply elem_of_nil in Hin.
  - assert (Hhere : ab = (a, b) ∨ ab = (b, a) ∨
                    ((a, b) ∈ pairs ∨ (b, a) ∈ pairs)).
    { destruct Hin as [[->|Hin]%elem_of_cons|[->|Hin]%elem_of_cons]; auto. }
    destruct Hhere as [->|[->|Hrest]].
    + apply fold_transfer_mono. simpl. apply has_edge_add_transfer. left.
      apply has_edge_add_transfer. right. done.
    + apply fold_transfer_mono. simpl. apply has_edge_add_transfer. right.
      split; [done|]. split; [done|]. by apply add_transfer_dom.
    + apply IH; [done|]. by rewrite !add_transfer_dom.
Qed.

Lemma fold_transfer_origin (P : string → Connection → Prop) pairs g :
  (∀ a b, (a, b) ∈ pairs → P a (transfer_edge b) ∧ P b (transfer_edge a)) →
  graph_all P g →
  graph_all P (fold_left (λ g ab, add_transfer ab.2 ab.1 (add_transfer ab.1 ab.2 g))
                         pairs g).
Proof.
  revert g. induction pairs as [|[a b] pairs IH]; intros g HP Hg; simpl; [done|].
  apply IH.
  - intros a' b' Hin. apply HP. by right.
  - destruct (HP a b) as [Hab Hba]; [by left|].
    by repeat apply graph_all_add_transfer.
Qed.

Lemma connect_same_name_mono ids g u c :
  has_edge g u c → has_edge (connect_same_name ids g) u c.
Proof.
  unfold connect_same_name. case_bool_decide; [|done]. apply fold_transfer_mono.
Qed.

Lemma connect_same_name_dom ids g u :
  is_Some (connect_same_name ids g !! u) ↔ is_Some (g !! u).
Proof.
  unfold connect_same_name. case_bool_decide; [|done]. apply fold_transfer_dom.
Qed.

Lemma connect_same_name_adds (ids : gset string) g a b :
  a ∈ ids → b ∈ ids → a ≠ b → is_Some (g !! a) →
  has_edge (connect_same_name ids g) a (transfer_edge b).
Proof.
  intros Ha Hb Hne Hdom. unfold connect_same_name.
  rewrite bool_decide_eq_true_2.
  - apply fold_transfer_adds; [|done].
    apply transfer_pairs_covers; [by apply elem_of_elements..|done].
  - assert (Hsub : ({[a; b]} : gset string) ⊆ ids) by (set_unfold; intros x [->| ->]; done).
    apply subseteq_size in Hsub.
    rewrite size_union, !size_singleton in Hsub by (set_unfold; congruence). lia.
Qed.

Lemma connect_same_name_origin (P : string → Connection → Prop)
    (ids : gset string) g :
  (∀ a b, a ∈ ids → b ∈ ids → a ≠ b → P a (transfer_edge b)) →
  graph_all P g → graph_all P (connect_same_name ids g).
Proof.
  intros HP Hg. unfold connect_same_name. case_bool_decide; [|done].
  apply fold_transfer_origin; [|done].
  intros a b (Ha%elem_of_elements & Hb%elem_of_elements & Hne)%transfer_pairs_elem.
  specialize (Hne (NoDup_elements ids)). split; apply HP; done.
Qed.

Lemma add_transfer_connections_mono ts g u c :
  has_edge g u c → has_edge (_add_transfer_connections ts g) u c.
Proof.
  unfold _add_transfer_connections. revert g.
  induction ts as [|entry ts IH]; intros g Hg; simpl; [done|].
  by apply IH, connect_same_name_mono.
Qed.

Lemma add_transfer_connections_dom ts g u :
  is_Some (_add_transfer_connections ts g !! u) ↔ is_Some (g !! u).
Proof.
  unfold _add_transfer_connections. revert g.
  induction ts as [|entry ts IH]; intros g; simpl; [done|].
  by rewrite IH, connect_same_name_dom.
Qed.

Lemma add_transfer_connections_adds ts g title (ids : gset string) a b :
  (title, ids) ∈ ts → a ∈ ids → b ∈ ids → a ≠ b → is_Some (g !! a) →
  has_edge (_add_transfer_connections ts g) a (transfer_edge b).
Proof.
  unfold _add_transfer_connections. revert g.
  induction ts as [|entry ts IH]; intros g Hin Ha Hb Hne Hdom;
    [by apply elem_of_nil in Hin|].
  simpl. apply elem_of_cons in Hin as [<-|Hin].
  - apply (add_transfer_connections_mono ts). simpl.
    by apply connect_same_name_adds.
  - apply IH; try done. by apply connect_same_name_dom.
Qed.

Lemma add_transfer_connections_origin db ts g :
  index_sound db ts →
  graph_all (edge_origin db) g →
  graph_all (edge_origin db) (_add_transfer_connections ts g).
Proof.
  unfold _add_transfer_connections. intros Hs. revert g.
  assert (Hsub : ∀ entry, entry ∈ ts → entry ∈ ts) by done.
  revert Hsub. generalize ts at 1 3. intros l.
  induction l as [|[title ids] l IH]; intros Hsub g Hg; simpl; [done|].
  apply IH; [intros e He; apply Hsub; by right|].
  apply connect_same_name_origin; [|done].
  intros a b Ha Hb Hne. right.
  assert (Hin : (title, ids) ∈ ts) by (apply Hsub; by left).
  destruct (Hs _ _ _ Hin Ha) as (ra & Hra & Hsa & Hta).
  destruct (Hs _ _ _ Hin Hb) as (rb & Hrb & Hsb & Htb).
  split; [|done]. exists ra, rb. simpl. repeat split; try done. congruence.
Qed.

(** Every edge of the graph built from [db] by a fresh engine comes from
    two consecutive entries of a railway row or from the transfer pass. *)
Lemma build_network_origin db :
  graph_all (edge_origin db) (network_graph (build_network db new_optimizer)).
Proof.
  unfold build_network. simpl.
  destruct (load_railways_index (railways db)
              (fold_left load_station (stations db) new_optimizer)) as [-> _].
  apply add_transfer_connections_origin.
  - apply load_stations_index_sound; [done|].
    intros title ids a Hin. by apply elem_of_nil in Hin.
  - apply load_railways_origin; [done|].
    rewrite load_stations_graph. apply graph_all_empty.
Qed.

Lemma railway_edge_not_transfer r v b : railway_edge r v ≠ transfer_edge b.
Proof. unfold railway_edge, transfer_edge. intros [= _ _ _]. Qed.

(** C1 (amended).  In the graph a fresh engine builds from [db]: for two
    distinct loaded stations [a] and [b] that share a display title, the
    Transfer edge (travel time 5.0, stop count 0) from [a] to [b] is
    present whenever [a] is a vertex of the graph (the same holds from
    [b] to [a]); and a Transfer edge from [a] to [b] exists only if the
    two are distinct and were loaded under a common title, so none exists
    between stations whose titles differ. *)
Theorem transfer_edges db a b :
  let g := network_graph (build_network db new_optimizer) in
  (share_title db a b → a ≠ b → is_Some (g !! a) →
   has_edge g a (transfer_edge b) ∧
   c_travel_time (transfer_edge b) = 5.0%Q ∧ c_num_stops (transfer_edge b) = 0 ∧
   c_railway (transfer_edge b) = "Transfer") ∧
  (has_edge g a (transfer_edge b) → share_title db a b ∧ a ≠ b).
Proof.
  intros g. split.
  - intros (ra & rb & Hra & Hrb & Hsa & Hsb & Ht) Hne Hdom.
    split; [|done]. subst g. unfold build_network in *. simpl in *.
    destruct (load_railways_index (railways db)
                (fold_left load_station (stations db) new_optimizer)) as [Hts _].
    rewrite Hts in *.
    pose proof (load_stations_index_complete (stations db) new_optimizer []) as Hc.
    simpl in Hc. specialize (Hc ltac:(by intros ? ? ?%elem_of_nil)).
    destruct (Hc ra a Hra Hsa) as (ids & Hd & Ha).
    destruct (Hc rb b Hrb Hsb) as (ids' & Hd' & Hb).
    rewrite <- Ht, Hd in Hd'. injection Hd' as <-.
    apply dict_get_elem in Hd.
    eapply add_transfer_connections_adds; try done.
    by apply add_transfer_connections_dom in Hdom.
  - intros He. destruct (build_network_origin db a _ He)
      as [(row & r & order & _ & _ & _ & _ & Heq)|(Hshare & Hne & _)].
    + symmetry in Heq. by apply railway_edge_not_transfer in Heq.
    + done.
Qed.

Lemma transfer_edges_witness :
  let g := network_graph (build_network demo_db new_optimizer) in
  has_edge g "S2" (transfer_edge "T2") ∧ has_edge g "T2" (transfer_edge "S2") ∧
  share_title demo_db "S2" "T2".
Proof.
  intros g.
  assert (Hshare : share_title demo_db "S2" "T2").
  { exists (demo_station "S2" "Chuo"), (demo_station "T2" "Chuo").
    repeat split; in_concrete_list. }
  assert (Hshare' : share_title demo_db "T2" "S2").
  { destruct Hshare as (ra & rb & ? & ? & ? & ? & ?). exists rb, ra. by repeat split. }
  split; [|split; [|done]].
  - apply (proj1 (transfer_edges demo_db "S2" "T2")); [done|discriminate|].
    vm_compute. eauto.
  - apply (proj1 (transfer_edges demo_db "T2" "S2")); [done|discriminate|].
    vm_compute. eauto.
Defined.

(** The claim as stated fails for a loaded station that is on no line:
    S2 and T2 share a title and are distinct, yet the graph holds the
    Transfer edge only from S2, since T2 is not a vertex. *)
Lemma transfer_needs_vertex :
  let g := network_graph (build_network demo_db_one_line new_optimizer) in
  share_title demo_db_one_line "S2" "T2" ∧ "S2" ≠ "T2" ∧
  has_edge g "S2" (transfer_edge "T2") ∧
  g !! "T2" = None ∧ ¬ has_edge g "T2" (transfer_edge "S2").
Proof.
  intros g.
  assert (HT : g !! "T2" = None) by (vm_compute; reflexivity).
  split.
  { exists (demo_station "S2" "Chuo"), (demo_station "T2" "Chuo").
    repeat split; in_concrete_list. }
  split; [discriminate|]. split.
  { eexists. split; [vm_compute; reflexivity|]. in_concrete_list. }
  split; [done|]. intros (connections & Hg & _). by rewrite HT in Hg.
Qed.

(** ** Graph construction: a railway's edges *)

Lemma not_consecutive_ends S1 S2 S3 :
  S1 ≠ S2 → S2 ≠ S3 →
  ¬ consecutive [mkOrderEntry (Some S1); mkOrderEntry (Some S2);
                 mkOrderEntry (Some S3)] S1 S3.
Proof.
  intros H12 H23 (l1 & l2 & [H|H]);
    destruct l1 as [|x [|y [|z l1]]]; simpl in H; try congruence;
    destruct l1; done.
Qed.

(** C7 (amended).  For every railway row of [db] whose parsed station
    order is [S1, S2, S3] (three non-empty station ids), the graph a
    fresh engine builds contains the edges S1 -> S2, S2 -> S1, S2 -> S3
    and S3 -> S2, each with travel time 2.5, stop count 1 and the railway
    id as tag.  Every edge of the built graph comes from two consecutive
    entries of some railway's order list or from the transfer pass.  When
    S2 differs from S1 and S3, this row's order list produces no edge
    between S1 and S3: an edge between them is the Transfer edge of two
    stations sharing a title, or the railway edge of another row whose
    order list has them next to each other. *)
Theorem railway_order_edges db row r S1 S2 S3 :
  row ∈ railways db →
  rw_same_as row = Some r →
  rw_station_order row
  = Some (Parsed [mkOrderEntry (Some S1); mkOrderEntry (Some S2);
                  mkOrderEntry (Some S3)]) →
  S1 ≠ "" → S2 ≠ "" → S3 ≠ "" →
  let g := network_graph (build_network db new_optimizer) in
  let edge_to := λ s, mkConnection s 2.5%Q r 1 in
  has_edge g S1 (edge_to S2) ∧ has_edge g S2 (edge_to S1) ∧
  has_edge g S2 (edge_to S3) ∧ has_edge g S3 (edge_to S2) ∧
  (∀ u c, has_edge g u c → edge_origin db u c) ∧
  (S1 ≠ S2 → S2 ≠ S3 →
   ∀ u v c,
     (u = S1 ∧ v = S3) ∨ (u = S3 ∧ v = S1) →
     has_edge g u c → c_to_station c = v →
     (c = transfer_edge v ∧ share_title db u v ∧ u ≠ v) ∨
     (∃ row' r' order',
        row' ∈ railways db ∧ row' ≠ row ∧
        rw_same_as row' = Some r' ∧
        rw_station_order row' = Some (Parsed order') ∧
        consecutive order' u v ∧ c = railway_edge r' v)).
Proof.
  intros Hrow Hid Horder H1 H2 H3 g edge_to.
  assert (Hadds : ∀ l1 l2 u v,
    [mkOrderEntry (Some S1); mkOrderEntry (Some S2); mkOrderEntry (Some S3)]
    = l1 ++ mkOrderEntry (Some u) :: mkOrderEntry (Some v) :: l2 →
    u ≠ "" → v ≠ "" →
    has_edge g u (edge_to v) ∧ has_edge g v (edge_to u)).
  { intros l1 l2 u v Heq Hu Hv. subst g. unfold build_network. simpl.
    apply list_elem_of_split in Hrow as (rows1 & rows2 & Hrows).
    rewrite Hrows, fold_left_app. simpl.
    set (s1 := fold_left load_railway rows1 _).
    assert (Hhere : has_edge (network_graph (load_railway s1 row)) u (edge_to v) ∧
                    has_edge (network_graph (load_railway s1 row)) v (edge_to u)).
    { unfold load_railway. rewrite Hid, Horder. cbn [network_graph].
      rewrite Heq. by apply process_railway_order_adds. }
    destruct Hhere as [Huv Hvu].
    split; by apply add_transfer_connections_mono, load_railways_mono. }
  destruct (Hadds [] [mkOrderEntry (Some S3)] S1 S2) as [E12 E21]; try done.
  destruct (Hadds [mkOrderEntry (Some S1)] [] S2 S3) as [E23 E32]; try done.
  repeat (split; [done|]). split; [apply build_network_origin|].
  intros H12 H23 u v c Huv He Hto.
  destruct (build_network_origin db u c He)
    as [(row' & r' & order & Hin & Hid' & Ho & Hcons & Hc)|(Hs & Hne & Hc)].
  - right. exists row', r', order. rewrite Hto in Hcons, Hc.
    split; [done|]. split; [|done].
    intros ->. rewrite Horder in Ho. injection Ho as <-.
    destruct Huv as [[-> ->]|[-> ->]].
    + by apply (not_consecutive_ends S1 S2 S3).
    + apply (not_consecutive_ends S1 S2 S3 H12 H23).
      destruct Hcons as (l1 & l2 & Hor). exists l1, l2. tauto.
  - left. rewrite Hto in Hs, Hne, Hc. done.
Qed.

Lemma railway_order_edges_witness :
  let g := network_graph (build_network demo_db_one_line new_optimizer) in
  has_edge g "S1" (mkConnection "S2" 2.5%Q "L1" 1) ∧
  has_edge g "S2" (mkConnection "S1" 2.5%Q "L1" 1) ∧
  has_edge g "S2" (mkConnection "S3" 2.5%Q "L1" 1) ∧
  has_edge g "S3" (mkConnection "S2" 2.5%Q "L1" 1) ∧
  g !! "S1" = Some [mkConnection "S2" 2.5%Q "L1" 1] ∧
  g !! "S3" = Some [mkConnection "S2" 2.5%Q "L1" 1].
Proof.
  intros g.
  assert (Hrow : demo_line "L1" ["S1"; "S2"; "S3"] ∈ railways demo_db_one_line).
  { unfold demo_db_one_line. simpl. by left. }
  destruct (railway_order_edges demo_db_one_line
              (demo_line "L1" ["S1"; "S2"; "S3"]) "L1" "S1" "S2" "S3"
              Hrow eq_refl eq_refl)
    as (E12 & E21 & E23 & E32 & _); try discriminate.
  repeat (split; [done|]). split; vm_compute; reflexivity.
Defined.

(** The claim as stated fails when the two ends of the line are linked
    some other way.  With L1 = [S1, S2, S3] in the database, S1 and S3
    are joined by a Transfer edge when they carry the same title, and by
    a railway edge when an express line has them next to each other. *)
Lemma line_ends_linked :
  let line := demo_line "L1" ["S1"; "S2"; "S3"] in
  let g_title := network_graph (build_network demo_db_same_ends new_optimizer) in
  let g_express := network_graph (build_network demo_db_express new_optimizer) in
  line ∈ railways demo_db_same_ends ∧ line ∈ railways demo_db_express ∧
  rw_station_order line
  = Some (Parsed [mkOrderEntry (Some "S1"); mkOrderEntry (Some "S2");
                  mkOrderEntry (Some "S3")]) ∧
  has_edge g_title "S1" (mkConnection "S3" 5.0%Q "Transfer" 0) ∧
  has_edge g_title "S3" (mkConnection "S1" 5.0%Q "Transfer" 0) ∧
  has_edge g_express "S1" (mkConnection "S3" 2.5%Q "LX" 1) ∧
  has_edge g_express "S3" (mkConnection "S1" 2.5%Q "LX" 1).
Proof.
  intros line g_title g_express.
  split; [by left|]. split; [by left|]. split; [reflexivity|].
  repeat split; (eexists; split; [vm_compute; reflexivity | in_concrete_list]).
Qed.

(** * Further properties *)

(** ** [_dijkstra_with_path]: shortest times, reachable set, termination *)

Lemma dijkstra_shortest_nonneg g start T v t r path :
  weights_nonneg g →
  _dijkstra_with_path g start T !! v = Some (t, r) →
  walk start path v → Forall (segment_in g) path →
  (t <= sum_times path)%Q.
Proof.
  intros Hw Hd Hwalk Hedges.
  pose proof (sum_times_nonneg g path Hw Hedges) as Hpos.
  destruct (Qlt_le_dec T (sum_times path)) as [Hlt|Hle].
  - destruct (rinv_dist _ _ _ _ (route_inv_final g start T) v t r Hd)
      as [[_ _ _ Hb _] [Hle|[_ ->]]]; [lra|].
    simpl in Hb. subst t. done.
  - destruct (dijkstra_complete g start T path v Hw Hwalk Hedges Hle)
      as (t' & r' & Hd' & Hle').
    rewrite Hd in Hd'. by injection Hd' as <- <-.
Qed.

(** X1.  On the graph of any engine, the time recorded for a station is
    a shortest time: no walk of graph edges from the start station to it
    has a smaller total travel time. *)
Theorem dijkstra_shortest self start T v t r path :
  engine_state self →
  _dijkstra_with_path (network_graph self) start T !! v = Some (t, r) →
  graph_walk (network_graph self) start path v →
  (t <= sum_times path)%Q.
Proof.
  intros Hs Hd [Hwalk Hedges].
  eapply dijkstra_shortest_nonneg; eauto using engine_state_nonneg.
Qed.

Lemma dijkstra_shortest_witness :
  ∃ t r,
    _dijkstra_with_path (network_graph demo_engine) "S1" 120 !! "T2" = Some (t, r)
    ∧ (t == 7.5)%Q
    ∧ (t <= sum_times
              [mkRouteSegment "S1" "S2" "L1" 2.5 1;
               mkRouteSegment "S2" "S3" "L1" 2.5 1;
               mkRouteSegment "S3" "S2" "L1" 2.5 1;
               mkRouteSegment "S2" "T2" "Transfer" 5.0 0])%Q.
Proof.
  eexists _, _. split; [vm_compute; reflexivity|]. split; [reflexivity|].
  eapply (dijkstra_shortest demo_engine "S1" 120 "T2").
  - apply engine_built, engine_new.
  - vm_compute; reflexivity.
  - split; [by repeat split|].
    repeat (apply Forall_cons; split;
            [eexists; split; [vm_compute; reflexivity | in_concrete_list]|]).
    apply Forall_nil_2.
Defined.

(** X2.  On the graph of any engine, the returned mapping holds exactly
    the start station and the stations that some walk of graph edges
    reaches from it within the bound. *)
Theorem dijkstra_reachable_iff self start T v :
  engine_state self →
  v ∈ dom (_dijkstra_with_path (network_graph self) start T) ↔
  v = start ∨
  ∃ path, graph_walk (network_graph self) start path v ∧ (sum_times path <= T)%Q.
Proof.
  intros Hs. pose proof (engine_state_nonneg _ Hs) as Hw. split.
  - intros [[t r] Hd]%elem_of_dom.
    destruct (rinv_dist _ _ _ _ (route_inv_final _ start T) v t r Hd)
      as [[Hwalk Hedges Htime Hbest _] [Hle|[-> _]]]; [|by left].
    right. exists (segments r). split; [by split|].
    rewrite <- Htime, Hbest. done.
  - intros [->|(path & [Hwalk Hedges] & Hle)]; apply elem_of_dom.
    + apply dijkstra_start_recorded.
    + destruct (dijkstra_complete _ start T path v Hw Hwalk Hedges Hle)
        as (t & r & -> & _). eauto.
Qed.

Lemma dijkstra_reachable_iff_witness :
  ("S4" ∈ dom (_dijkstra_with_path (network_graph demo_engine) "S1" 10) ↔
   "S4" = "S1" ∨
   ∃ path, graph_walk (network_graph demo_engine) "S1" path "S4"
           ∧ (sum_times path <= 10)%Q)
  ∧ "S4" ∈ dom (_dijkstra_with_path (network_graph demo_engine) "S1" 10).
Proof.
  split.
  - apply (dijkstra_reachable_iff demo_engine "S1" 10 "S4").
    apply engine_built, engine_new.
  - apply elem_of_dom. vm_compute. eauto.
Defined.

Lemma dijkstra_loop_settled g T fuel st :
  pq st = [] → dijkstra_loop g T fuel st = st.
Proof.
  intros Hq. destruct fuel as [|fuel]; simpl; [done|].
  unfold dijkstra_step. by rewrite Hq.
Qed.

Lemma dijkstra_loop_add g T n k st :
  dijkstra_loop g T (n + k) st = dijkstra_loop g T k (dijkstra_loop g T n st).
Proof.
  revert st. induction n as [|n IH]; intros st; simpl; [done|].
  destruct (dijkstra_step g T st) as [st'|] eqn:E; [apply IH|].
  symmetry. apply dijkstra_loop_settled.
  unfold dijkstra_step in E.
  destruct (heappop (pq st)) as [[[[t0 u0] p0] q']|] eqn:Hpop.
  - repeat case_match; done.
  - by apply heappop_None.
Qed.

(** X3.  The loop [while pq] ends: after at most one iteration more than
    the graph has adjacency entries the queue is empty, and running the
    loop any longer changes nothing. *)
Theorem dijkstra_terminates g start T fuel :
  (S (edge_count g) ≤ fuel)%nat →
  pq (dijkstra_loop g T fuel (dijkstra_init start)) = [] ∧
  distances (dijkstra_loop g T fuel (dijkstra_init start))
  = _dijkstra_with_path g start T.
Proof.
  intros Hfuel.
  replace fuel with (S (edge_count g) + (fuel - S (edge_count g)))%nat by lia.
  rewrite dijkstra_loop_add. fold (dijkstra_final g start T).
  destruct (dijkstra_queue_exhausted g start T) as [Hq _].
  by rewrite dijkstra_loop_settled.
Qed.

Lemma dijkstra_terminates_witness :
  edge_count (network_graph demo_engine) = 10%nat ∧
  pq (dijkstra_loop (network_graph demo_engine) 120 11 (dijkstra_init "S1")) = [] ∧
  distances (dijkstra_loop (network_graph demo_engine) 120 11 (dijkstra_init "S1"))
  = _dijkstra_with_path (network_graph demo_engine) "S1" 120.
Proof.
  split; [vm_compute; reflexivity|].
  apply (dijkstra_terminates (network_graph demo_engine) "S1" 120 11).
  vm_compute. lia.
Defined.

(** X4.  In every state the loop reaches, no two heap entries agree on
    both time and station, and the entry [heappop] returns is strictly
    below every other entry in the tuple order: comparing two entries
    never reaches their lists of segments. *)
Theorem heap_keys_decide g T fuel start :
  let st := dijkstra_loop g T fuel (dijkstra_init start) in
  keys_distinct (pq st) ∧
  ∀ m rest,
    heappop (pq st) = Some (m, rest) →
    ∀ x, x ∈ rest → entry_lt m x = true ∧ ¬ same_key m x.
Proof.
  intros st. pose proof (qinv_distinct _ (queue_inv_loop g T fuel start)) as Hd.
  fold st in Hd. split; [done|].
  intros m rest Hpop x Hx. split; [by eapply heappop_least|].
  apply heappop_spec in Hpop as [Hperm _].
  apply (keys_distinct_perm _ _ Hperm) in Hd. destruct Hd as [Hm _].
  rewrite Forall_forall in Hm. by apply Hm.
Qed.

(** ** [find_optimal_stations]: what the ranked list holds *)

Lemma find_optimal_stations_slice db self a b top_n T candidates :
  (find_optimal_stations db self a b top_n T).2 = Ok candidates →
  candidates = slice_to top_n (ranked_candidates db self a b T).
Proof.
  unfold find_optimal_stations, ranked_candidates. simpl.
  destruct (elements _) as [|s l] eqn:Hc.
  - by intros [= <-].
  - destruct (Qeq_bool T 0); [done|]. by intros [= <-].
Qed.

Lemma slice_to_take {A} (n : Z) (l : list A) :
  ∃ k, slice_to n l = take k l ∧ (0 <= n → k = Z.to_nat n).
Proof.
  unfold slice_to. destruct (0 <=? n) eqn:E.
  - eauto.
  - eexists. split; [done|]. apply Z.leb_gt in E. lia.
Qed.

Lemma candidates_of_ids self T (ra rb : gmap string (Q * Route)) common :
  (∀ s, s ∈ common → is_Some (ra !! s) ∧ is_Some (rb !! s)) →
  map station_id (candidates_of self T ra rb common) = common.
Proof.
  induction common as [|s common IH]; intros Hall; [done|].
  destruct (Hall s) as [[xa Ha] [xb Hb]]; [by left|].
  unfold candidates_of in *. simpl. rewrite Ha, Hb. simpl. f_equal.
  apply IH. intros s' Hs'. apply Hall. by right.
Qed.

Lemma ranked_candidates_ids db self a b T :
  map station_id (ranked_candidates db self a b T)
  ≡ₚ elements (common_reachable db self a b T).
Proof.
  unfold ranked_candidates, common_reachable. simpl.
  rewrite py_sort_perm. rewrite candidates_of_ids; [done|].
  intros s Hs%elem_of_elements. unfold common_stations in Hs.
  rewrite !elem_of_difference, elem_of_intersection, !elem_of_dom in Hs. tauto.
Qed.

(** X5.  The returned candidates are distinct stations, each reachable
    from both work stations within the bound, and neither work station
    is ever among them. *)
Theorem candidates_exclude_origins db self a b top_n max_time candidates :
  (find_optimal_stations db self a b top_n max_time).2 = Ok candidates →
  NoDup (map station_id candidates) ∧
  ∀ mp, mp ∈ candidates →
    station_id mp ≠ a ∧ station_id mp ≠ b ∧
    station_id mp ∈ common_reachable db self a b max_time.
Proof.
  intros Hres. apply find_optimal_stations_slice in Hres as ->.
  destruct (slice_to_take top_n (ranked_candidates db self a b max_time))
    as (k & -> & _).
  pose proof (ranked_candidates_ids db self a b max_time) as Hids.
  split.
  - apply (sublist_NoDup _ (map station_id (ranked_candidates db self a b max_time))).
    + rewrite Hids. apply NoDup_elements.
    + rewrite <- firstn_map. apply sublist_take.
  - intros mp Hmp%subseteq_take.
    assert (Hin : station_id mp ∈ common_reachable db self a b max_time).
    { apply elem_of_elements. rewrite <- Hids. apply list_elem_of_fmap. eauto. }
    split; [|split; [|done]]; intros Heq; rewrite Heq in Hin;
      unfold common_reachable, common_stations in Hin; set_unfold; tauto.
Qed.

Lemma candidates_exclude_origins_witness :
  ∃ candidates,
    (find_optimal_stations demo_db demo_engine "S1" "S5" 10 120).2 = Ok candidates ∧
    map station_id candidates = ["S2"; "T2"; "S3"; "S4"] ∧
    NoDup (map station_id candidates) ∧
    ∀ mp, mp ∈ candidates →
      station_id mp ≠ "S1" ∧ station_id mp ≠ "S5" ∧
      station_id mp ∈ common_reachable demo_db demo_engine "S1" "S5" 120.
Proof.
  eexists. split; [vm_compute; reflexivity|]. split; [reflexivity|].
  apply (candidates_exclude_origins demo_db demo_engine "S1" "S5" 10 120).
  vm_compute; reflexivity.
Defined.

(** X6.  For a result count [top_n >= 0] the call returns exactly
    [min(top_n, number of common reachable stations)] candidates: one
    for every common station when [top_n] is large enough. *)
Theorem candidates_count db self a b top_n max_time candidates :
  (find_optimal_stations db self a b top_n max_time).2 = Ok candidates →
  0 <= top_n →
  Z.of_nat (length candidates)
  = Z.min top_n (Z.of_nat (size (common_reachable db self a b max_time))).
Proof.
  intros Hres Hn. apply find_optimal_stations_slice in Hres as ->.
  destruct (slice_to_take top_n (ranked_candidates db self a b max_time))
    as (k & -> & Hk).
  rewrite length_take, (Hk Hn).
  pose proof (Permutation_length (ranked_candidates_ids db self a b max_time)) as Hl.
  rewrite length_map in Hl. rewrite Hl. unfold size, set_size. simpl. lia.
Qed.

Lemma candidates_count_witness :
  ∃ candidates,
    (find_optimal_stations demo_db demo_engine "S1" "S5" 3 120).2 = Ok candidates ∧
    size (common_reachable demo_db demo_engine "S1" "S5" 120) = 4%nat ∧
    Z.of_nat (length candidates)
    = Z.min 3 (Z.of_nat (size (common_reachable demo_db demo_engine "S1" "S5" 120))).
Proof.
  eexists. split; [vm_compute; reflexivity|]. split; [vm_compute; reflexivity|].
  apply (candidates_count demo_db demo_engine "S1" "S5" 3 120);
    [vm_compute; reflexivity | lia].
Defined.

Lemma rank_le_trans x y z :
  rank_lt y x = false → rank_lt z y = false → rank_lt z x = false.
Proof.
  unfold rank_lt.
  destruct (Qeq_bool (mp_total_time y) (mp_total_time x)) eqn:Eyx;
    [apply Qeq_bool_iff in Eyx | apply Qeq_bool_neq in Eyx];
    (destruct (Qeq_bool (mp_total_time z) (mp_total_time y)) eqn:Ezy;
     [apply Qeq_bool_iff in Ezy | apply Qeq_bool_neq in Ezy]);
    (destruct (Qeq_bool (mp_total_time z) (mp_total_time x)) eqn:Ezx;
     [apply Qeq_bool_iff in Ezx | apply Qeq_bool_neq in Ezx]);
    rewrite ?Qlt_bool_false; intros H1 H2; lra.
Qed.

Lemma strongly_sorted_app_elem {A} (R : A → A → Prop) l1 l2 x y :
  StronglySorted R (l1 ++ l2) → x ∈ l1 → y ∈ l2 → R x y.
Proof.
  induction l1 as [|z l1 IH]; simpl; [by intros _ ?%elem_of_nil|].
  intros Hs Hx Hy. apply StronglySorted_inv in Hs as [Hs Hz].
  apply elem_of_cons in Hx as [->|Hx]; [|by apply IH].
  rewrite Forall_forall in Hz. apply Hz. apply elem_of_app. by right.
Qed.

(** X7.  The slice keeps the best: no candidate left out of the result
    ranks strictly before a candidate that is returned. *)
Theorem ranking_keeps_best db self a b top_n max_time candidates x y :
  (find_optimal_stations db self a b top_n max_time).2 = Ok candidates →
  x ∈ candidates →
  y ∈ ranked_candidates db self a b max_time → y ∉ candidates →
  rank_lt y x = false.
Proof.
  intros Hres Hx Hy Hny. apply find_optimal_stations_slice in Hres as ->.
  destruct (slice_to_take top_n (ranked_candidates db self a b max_time))
    as (k & Hk & _). rewrite Hk in Hx, Hny.
  assert (Hs : StronglySorted (λ u v, rank_lt v u = false)
                 (ranked_candidates db self a b max_time)).
  { apply Sorted.Sorted_StronglySorted.
    - intros u v w Huv Hvw. by eapply rank_le_trans.
    - apply py_sort_sorted, rank_lt_asym. }
  rewrite <- (take_drop k (ranked_candidates db self a b max_time)) in Hs, Hy.
  apply elem_of_app in Hy as [Hy|Hy]; [done|].
  by eapply (strongly_sorted_app_elem _ _ _ x y Hs).
Qed.

Lemma ranking_keeps_best_witness :
  ∃ candidates,
    (find_optimal_stations demo_db demo_engine "S1" "S5" 1 120).2 = Ok candidates ∧
    map station_id candidates = ["S2"] ∧
    map station_id (ranked_candidates demo_db demo_engine "S1" "S5" 120)
    = ["S2"; "T2"; "S3"; "S4"] ∧
    ∀ x y,
      x ∈ candidates →
      y ∈ ranked_candidates demo_db demo_engine "S1" "S5" 120 → y ∉ candidates →
      rank_lt y x = false.
Proof.
  eexists. split; [vm_compute; reflexivity|]. split; [reflexivity|].
  split; [vm_compute; reflexivity|].
  intros x y Hx Hy Hny.
  eapply (ranking_keeps_best demo_db demo_engine "S1" "S5" 1 120);
    [vm_compute; reflexivity | exact Hx | exact Hy | exact Hny].
Defined.

(** X8.  Every returned candidate is consistent with its two routes:
    each route is a walk of graph edges from its work station to the
    candidate station, its total time is the sum of its segments' times,
    the candidate's total time is the sum of the two route totals and its
    time difference is their absolute difference. *)
Theorem candidate_routes_consistent db self a b top_n max_time candidates mp :
  (find_optimal_stations db self a b top_n max_time).2 = Ok candidates →
  mp ∈ candidates →
  let g := network_graph (ensure_built db self) in
  graph_walk g a (segments (route_from_a mp)) (station_id mp) ∧
  graph_walk g b (segments (route_from_b mp)) (station_id mp) ∧
  total_time (route_from_a mp) = sum_times (segments (route_from_a mp)) ∧
  total_time (route_from_b mp) = sum_times (segments (route_from_b mp)) ∧
  mp_total_time mp
  = (total_time (route_from_a mp) + total_time (route_from_b mp))%Q ∧
  time_difference mp
  = Qabs (total_time (route_from_a mp) - total_time (route_from_b mp)).
Proof.
  intros Hres Hmp g.
  destruct (find_optimal_stations_ok _ _ _ _ _ _ _ Hres) as (all & -> & Hall).
  apply slice_to_sublist in Hmp. rewrite py_sort_perm in Hmp.
  destruct (Hall mp Hmp) as ([ta ra] & [tb rb] & Ha & Hb & _ & _ & Heq).
  destruct (rinv_dist _ _ _ _ (route_inv_final _ _ _) _ _ _ Ha)
    as [[Hwa Hea Hta Hba _] _].
  destruct (rinv_dist _ _ _ _ (route_inv_final _ _ _) _ _ _ Hb)
    as [[Hwb Heb Htb Hbb _] _].
  rewrite Heq. unfold make_candidate.
  cbn [route_from_a route_from_b station_id mp_total_time time_difference fst snd].
  rewrite Hba, Hbb. repeat split; try done; congruence.
Qed.

Lemma candidate_routes_consistent_witness :
  ∃ candidates mp,
    (find_optimal_stations demo_db demo_engine "S1" "S5" 1 120).2 = Ok candidates ∧
    candidates = [mp] ∧ station_id mp = "S2" ∧
    graph_walk (network_graph demo_engine) "S1" (segments (route_from_a mp)) "S2" ∧
    graph_walk (network_graph demo_engine) "S5" (segments (route_from_b mp)) "S2" ∧
    (mp_total_time mp == 10)%Q.
Proof.
  eexists _, _. split; [vm_compute; reflexivity|]. split; [reflexivity|].
  split; [reflexivity|].
  pose proof (candidate_routes_consistent demo_db demo_engine "S1" "S5" 1 120 _ _
                ltac:(vm_compute; reflexivity) ltac:(apply list_elem_of_here))
    as (Ha & Hb & _).
  split; [exact Ha|]. split; [exact Hb | reflexivity].
Defined.

(** ** [Route.get_transfer_count] *)

Lemma count_changes_bounds previous rest :
  0 <= count_changes previous rest <= Z.of_nat (length rest).
Proof.
  revert previous. induction rest as [|s rest IH]; intros previous; simpl; [lia|].
  specialize (IH (railway s)). case_bool_decide; lia.
Qed.

Lemma count_changes_zero previous rest :
  count_changes previous rest = 0 ↔ ∀ s, s ∈ rest → railway s = previous.
Proof.
  revert previous. induction rest as [|s rest IH]; intros previous; simpl.
  - split; [by intros _ ? ?%elem_of_nil | done].
  - pose proof (count_changes_bounds (railway s) rest) as Hb.
    specialize (IH (railway s)). split.
    + intros H0. case_bool_decide as Hne; [lia|].
      assert (Heq : railway s = previous).
      { destruct (decide (railway s = previous)); [done | by destruct Hne]. }
      intros s' [->|Hs']%elem_of_cons; [done|].
      rewrite <- Heq. apply IH; [lia | done].
    + intros Hall. rewrite bool_decide_eq_false_2.
      * rewrite (proj2 IH); [done|]. intros s' Hs'.
        rewrite (Hall s'); [|by right]. symmetry. apply Hall. by left.
      * intros Hne. apply Hne. apply Hall. by left.
Qed.

(** X9.  The transfer count of a route lies between 0 and the number of
    segments minus one (0 for an empty route), and it is 0 exactly when
    all segments carry the same railway tag. *)
Theorem transfer_count_bounds (r : Route) :
  0 <= get_transfer_count r ∧
  get_transfer_count r <= Z.max 0 (Z.of_nat (length (segments r)) - 1) ∧
  (get_transfer_count r = 0 ↔
   ∀ s s', s ∈ segments r → s' ∈ segments r → railway s = railway s').
Proof.
  unfold get_transfer_count. destruct (segments r) as [|s0 rest]; simpl.
  - split; [lia|]. split; [lia|]. split; [by intros _ ? ? ?%elem_of_nil | done].
  - pose proof (count_changes_bounds (railway s0) rest) as Hb.
    split; [lia|]. split; [lia|]. rewrite count_changes_zero. split.
    + intros Hall s s' Hs Hs'.
      assert (Hany : ∀ x, x ∈ s0 :: rest → railway x = railway s0).
      { intros x [->|Hx]%elem_of_cons; [done | by apply Hall]. }
      by rewrite (Hany s Hs), (Hany s' Hs').
    + intros Hall s Hs. apply Hall; [by right | by left].
Qed.

Lemma count_changes_app previous l1 l2 :
  count_changes previous (l1 ++ l2)
  = count_changes previous l1
    + count_changes (default previous (railway <$> last l1)) l2.
Proof.
  revert previous. induction l1 as [|s l1 IH]; intros previous; [simpl; lia|].
  cbn [app count_changes]. rewrite IH, last_cons.
  assert (Heq : default previous
                  (railway <$> match last l1 with Some y => Some y | None => Some s end)
                = default (railway s) (railway <$> last l1)).
  { by destruct (last l1). }
  rewrite Heq. lia.
Qed.

Lemma count_changes_same previous rest :
  (∀ s, s ∈ rest → railway s = previous) → count_changes previous rest = 0.
Proof. apply count_changes_zero. Qed.

(** X10.  One interchange counts as two transfers: for a route that
    rides one railway, takes a single "Transfer" segment and rides
    another railway, [get_transfer_count] is 2. *)
Theorem interchange_counts_twice (r : Route) before x after r1 r2 :
  segments r = before ++ x :: after →
  before ≠ [] → after ≠ [] →
  railway x = "Transfer" → r1 ≠ "Transfer" → r2 ≠ "Transfer" →
  (∀ s, s ∈ before → railway s = r1) →
  (∀ s, s ∈ after → railway s = r2) →
  get_transfer_count r = 2.
Proof.
  intros Hseg Hb Ha Hx H1 H2 Hbefore Hafter. unfold get_transfer_count.
  rewrite Hseg. destruct before as [|s0 before]; [done|]. simpl.
  assert (Hs0 : railway s0 = r1) by (apply Hbefore; by left).
  rewrite Hs0, count_changes_app.
  rewrite count_changes_same by (intros s Hs; apply Hbefore; by right).
  assert (Hlast : default r1 (railway <$> last before) = r1).
  { destruct (last before) as [s|] eqn:Hl; [|done]. simpl.
    apply Hbefore. right. apply last_Some in Hl as [l' ->].
    apply elem_of_app. right. by left. }
  rewrite Hlast. simpl. rewrite Hx.
  rewrite bool_decide_eq_true_2 by congruence.
  destruct after as [|s1 after]; [done|]. simpl.
  assert (Hs1 : railway s1 = r2) by (apply Hafter; by left).
  rewrite Hs1, bool_decide_eq_true_2 by done.
  rewrite count_changes_same by (intros s Hs; apply Hafter; by right). lia.
Qed.

Lemma interchange_counts_twice_witness :
  ∃ t r,
    _dijkstra_with_path (network_graph demo_engine) "S1" 120 !! "S5" = Some (t, r)
    ∧ map railway (segments r) = ["L1"; "Transfer"; "L2"]
    ∧ get_transfer_count r = 2.
Proof.
  eexists _, _. split; [vm_compute; reflexivity|]. split; [reflexivity|].
  eapply (interchange_counts_twice _ [_] _ [_] "L1" "L2");
    [reflexivity | done | done | reflexivity | done | done | |].
  - by intros s ->%list_elem_of_singleton.
  - by intros s ->%list_elem_of_singleton.
Defined.

(** ** [build_network]: shape, symmetry, vertices, station map *)

Lemma has_edge_link railway current next_stop g u c :
  has_edge (link_stations railway current next_stop g) u c ↔
  has_edge g u c ∨
  ∃ cs ns,
    odpt_station current = Some cs ∧ odpt_station next_stop = Some ns ∧
    cs ≠ "" ∧ ns ≠ "" ∧
    ((u = cs ∧ c = railway_edge railway ns) ∨
     (u = ns ∧ c = railway_edge railway cs)).
Proof.
  unfold link_stations.
  destruct (odpt_station current) as [cs|], (odpt_station next_stop) as [ns|];
    try (split; [by left | by intros [?|(? & ? & ? & ? & _)]]).
  unfold falsy. destruct (decide (cs = "")) as [Hc|Hc].
  { rewrite (bool_decide_eq_true_2 _ Hc). simpl.
    split; [by left|]. intros [?|(? & ? & [= <-] & _ & ? & _)]; done. }
  destruct (decide (ns = "")) as [Hn|Hn].
  { rewrite (bool_decide_eq_true_2 _ Hn), orb_true_r.
    split; [by left|]. intros [?|(? & ? & _ & [= <-] & _ & ? & _)]; done. }
  rewrite !bool_decide_eq_false_2 by done. simpl.
  rewrite !has_edge_append. split.
  - intros [[H|H]|H]; [by left|right..]; exists cs, ns; tauto.
  - intros [H|(? & ? & [= <-] & [= <-] & _ & _ & [H|H])]; tauto.
Qed.

(** A property of graphs kept by every step of [build_network]. *)
Lemma build_network_keeps (P : gmap string (list Connection) → Prop) db self :
  (∀ railway current next_stop g,
     P g → P (link_stations railway current next_stop g)) →
  (∀ a b g, P g → P (add_transfer a b g)) →
  P (network_graph self) → P (network_graph (build_network db self)).
Proof.
  intros Hlink Htransfer Hself. unfold build_network. simpl.
  assert (Hprocess : ∀ railway order g,
            P g → P (_process_railway_order railway order g)).
  { intros railway order. induction order as [|current rest IH]; intros g Hg;
      [done|].
    destruct rest as [|next_stop rest']; [done|].
    rewrite process_railway_order_step. by apply IH, Hlink. }
  assert (Hrows : ∀ rows s, P (network_graph s) →
            P (network_graph (fold_left load_railway rows s))).
  { induction rows as [|row rows IH]; intros s Hs; simpl; [done|].
    apply IH. unfold load_railway.
    destruct (rw_same_as row) as [railway_id|]; [|done].
    destruct (rw_station_order row) as [[|[|x l]]|]; try done.
    exact (Hprocess railway_id (x :: l) _ Hs). }
  assert (Hpass : ∀ ts g, P g → P (_add_transfer_connections ts g)).
  { unfold _add_transfer_connections.
    induction ts as [|entry ts IH]; intros g Hg; simpl; [done|].
    apply IH. unfold connect_same_name. case_bool_decide; [|done].
    generalize (transfer_pairs (elements entry.2)). intros pairs. revert g Hg.
    induction pairs as [|ab pairs IHp]; intros g Hg; simpl; [done|].
    by apply IHp, Htransfer, Htransfer. }
  apply Hpass, Hrows. by rewrite load_stations_graph.
Qed.

Lemma engine_state_keeps (P : gmap string (list Connection) → Prop) self :
  (∀ railway current next_stop g,
     P g → P (link_stations railway current next_stop g)) →
  (∀ a b g, P g → P (add_transfer a b g)) →
  P ∅ → engine_state self → P (network_graph self).
Proof.
  intros Hlink Htransfer Hempty. induction 1 as [|db self _ IH]; [done|].
  by apply build_network_keeps.
Qed.

(** X11.  In the graph of any engine every adjacency entry has one of
    two shapes: travel time 2.5 with stop count 1 (a railway hop), or
    travel time 5.0 with stop count 0 and the tag "Transfer". *)
Theorem engine_edges_shaped self u c :
  engine_state self → has_edge (network_graph self) u c → edge_shape u c.
Proof.
  intros Hs. revert u c. change (graph_all edge_shape (network_graph self)).
  apply (engine_state_keeps (graph_all edge_shape)); [| |apply graph_all_empty|done].
  - intros railway current next_stop g Hg u c
      [H|(cs & ns & _ & _ & _ & _ & [[_ ->]|[_ ->]])]%has_edge_link;
      [by apply Hg|by left..].
  - intros a b g Hg. apply graph_all_add_transfer; [done|]. by right.
Qed.

Lemma engine_edges_shaped_witness :
  edge_shape "S2" (mkConnection "T2" 5.0 "Transfer" 0) ∧
  edge_shape "S2" (mkConnection "S3" 2.5 "L1" 1).
Proof.
  split.
  - apply (engine_edges_shaped demo_engine "S2");
      [apply engine_built, engine_new|].
    eexists. split; [vm_compute; reflexivity | in_concrete_list].
  - apply (engine_edges_shaped demo_engine "S2");
      [apply engine_built, engine_new|].
    eexists. split; [vm_compute; reflexivity | in_concrete_list].
Defined.

Lemma railway_edges_paired self u v r :
  engine_state self →
  has_edge (network_graph self) u (railway_edge r v) →
  has_edge (network_graph self) v (railway_edge r u).
Proof.
  intros Hs. revert u v r.
  apply (engine_state_keeps
           (λ g, ∀ u v r, has_edge g u (railway_edge r v) →
                          has_edge g v (railway_edge r u))); [| | |done].
  - intros railway current next_stop g Hg u v r H.
    apply has_edge_link. apply has_edge_link in H
      as [H|(cs & ns & Hc & Hn & Hce & Hne & [[-> Heq]|[-> Heq]])].
    + left. by apply Hg.
    + injection Heq as -> ->. right. exists cs, ns. tauto.
    + injection Heq as -> ->. right. exists cs, ns. tauto.
  - intros a b g Hg u v r H. apply has_edge_add_transfer.
    apply has_edge_add_transfer in H as [H|(_ & Heq & _)].
    + left. by apply Hg.
    + by apply railway_edge_not_transfer in Heq.
  - intros u v r (connections & Hg & _). by rewrite lookup_empty in Hg.
Qed.

(** X12.  Railway hops come in pairs: in the graph of any engine, an
    edge from [u] to [v] tagged with a railway has the reverse edge from
    [v] to [u] with the same tag. *)
Theorem railway_edges_symmetric self u v r :
  engine_state self →
  has_edge (network_graph self) u (railway_edge r v) →
  has_edge (network_graph self) v (railway_edge r u).
Proof.
  intros Hs. revert u v r.
  apply (engine_state_keeps
           (λ g, ∀ u v r, has_edge g u (railway_edge r v) →
                          has_edge g v (railway_edge r u))); [| | |done].
  - intros railway current next_stop g Hg u v r H.
    apply has_edge_link. apply has_edge_link in H
      as [H|(cs & ns & Hc & Hn & Hce & Hne & [[-> Heq]|[-> Heq]])].
    + left. by apply Hg.
    + injection Heq as -> ->. right. exists cs, ns. tauto.
    + injection Heq as -> ->. right. exists cs, ns. tauto.
  - intros a b g Hg u v r H. apply has_edge_add_transfer.
    apply has_edge_add_transfer in H as [H|(_ & Heq & _)].
    + left. by apply Hg.
    + by apply railway_edge_not_transfer in Heq.
  - intros u v r (connections & Hg & _). by rewrite lookup_empty in Hg.
Qed.

Lemma railway_edges_symmetric_witness :
  has_edge (network_graph demo_engine) "S3" (railway_edge "L1" "S2") ∧
  has_edge (network_graph demo_engine) "S2" (railway_edge "L1" "S3").
Proof.
  assert (H : has_edge (network_graph demo_engine) "S3" (railway_edge "L1" "S2")).
  { eexists. split; [vm_compute; reflexivity | in_concrete_list]. }
  split; [done|].
  apply (railway_edges_symmetric demo_engine "S3" "S2" "L1");
    [apply engine_built, engine_new | exact H].
Defined.

Lemma graph_append_dom s c g u :
  is_Some (graph_append s c g !! u) ↔ is_Some (g !! u) ∨ u = s.
Proof.
  unfold graph_append. destruct (decide (s = u)) as [->|Hne].
  - rewrite lookup_insert_eq. split; [by right | eauto].
  - rewrite lookup_insert_ne by done. split; [by left|]. intros [?|?]; congruence.
Qed.

Lemma link_stations_dom railway current next_stop g u :
  is_Some (link_stations railway current next_stop g !! u) →
  is_Some (g !! u) ∨
  ∃ c, has_edge (link_stations railway current next_stop g) u c ∧
       c_num_stops c = 1 ∧ ∃ r v, c = railway_edge r v.
Proof.
  intros Hu. destruct (decide (is_Some (g !! u))) as [|Hno]; [by left|]. right.
  unfold link_stations in *.
  destruct (odpt_station current) as [cs|], (odpt_station next_stop) as [ns|];
    try done.
  destruct (falsy (Some cs) || falsy (Some ns)); [done|].
  apply graph_append_dom in Hu as [Hu | ->].
  - apply graph_append_dom in Hu as [Hu | ->]; [done|].
    exists (railway_edge railway ns). split; [|split; [done | eauto]].
    apply has_edge_append. left. apply has_edge_append. by right.
  - exists (railway_edge railway cs). split; [|split; [done | eauto]].
    apply has_edge_append. by right.
Qed.

(** Vertices have a railway hop, and the ends of hops are not empty. *)
Lemma engine_vertices_hop self :
  engine_state self →
  (∀ u, is_Some (network_graph self !! u) →
        ∃ r v, has_edge (network_graph self) u (railway_edge r v)) ∧
  (∀ u c, has_edge (network_graph self) u c →
          u ≠ "" ∧ (c_num_stops c = 1 → c_to_station c ≠ "")).
Proof.
  apply (engine_state_keeps
           (λ g, (∀ u, is_Some (g !! u) → ∃ r v, has_edge g u (railway_edge r v)) ∧
                 (∀ u c, has_edge g u c →
                         u ≠ "" ∧ (c_num_stops c = 1 → c_to_station c ≠ "")))).
  - intros railway current next_stop g [Hv He]. split.
    + intros u [Hu|(c & Hc & _ & r & v & ->)]%link_stations_dom; [|eauto].
      destruct (Hv u Hu) as (r & v & H). exists r, v.
      apply has_edge_link. by left.
    + intros u c [H|(cs & ns & _ & _ & Hcs & Hns & [[-> ->]|[-> ->]])]%has_edge_link;
        [by apply He | done..].
  - intros a b g [Hv He]. split.
    + intros u Hu%add_transfer_dom. destruct (Hv u Hu) as (r & v & H).
      exists r, v. apply has_edge_add_transfer. by left.
    + intros u c [H|(-> & -> & Ha)]%has_edge_add_transfer; [by apply He|].
      destruct (Hv a Ha) as (r & v & H). split; [by apply (He a _ H) | done].
  - split.
    + intros u [x Hx]. by rewrite lookup_empty in Hx.
    + intros u c (connections & Hg & _). by rewrite lookup_empty in Hg.
Qed.

Lemma build_network_adds db self row r l1 l2 u v :
  row ∈ railways db → rw_same_as row = Some r →
  rw_station_order row
  = Some (Parsed (l1 ++ mkOrderEntry (Some u) :: mkOrderEntry (Some v) :: l2)) →
  u ≠ "" → v ≠ "" →
  has_edge (network_graph (build_network db self)) u (railway_edge r v) ∧
  has_edge (network_graph (build_network db self)) v (railway_edge r u).
Proof.
  intros Hrow Hid Horder Hu Hv. unfold build_network. simpl.
  apply list_elem_of_split in Hrow as (rows1 & rows2 & Hrows).
  rewrite Hrows, fold_left_app. simpl.
  set (s1 := fold_left load_railway rows1 _).
  assert (Hhere : has_edge (network_graph (load_railway s1 row)) u (railway_edge r v) ∧
                  has_edge (network_graph (load_railway s1 row)) v (railway_edge r u)).
  { unfold load_railway. rewrite Hid, Horder.
    pose proof (process_railway_order_adds r l1 l2 u v (network_graph s1) Hu Hv)
      as Hadds.
    destruct l1 as [|x l1]; exact Hadds. }
  destruct Hhere as [Huv Hvu].
  split; by apply add_transfer_connections_mono, load_railways_mono.
Qed.

(** X13.  The vertices of the graph a fresh engine builds are exactly
    the non-empty station ids that stand next to a non-empty station id
    in the order list of some railway row; a station that is only in the
    stations table is not a vertex. *)
Theorem vertices_are_linked db u :
  is_Some (network_graph (build_network db new_optimizer) !! u) ↔
  ∃ v, linked_in db u v.
Proof.
  pose proof (engine_vertices_hop _ (engine_built db _ engine_new)) as [Hv He].
  split.
  - intros Hu. destruct (Hv u Hu) as (r & v & Hedge). exists v.
    destruct (He _ _ Hedge) as [Hne Hto]. specialize (Hto eq_refl). simpl in Hto.
    split; [done|]. split; [done|].
    destruct (build_network_origin db u _ Hedge)
      as [(row & r' & order & Hrow & Hid & Ho & Hcons & _)|(_ & _ & Heq)].
    + exists row, r', order. by repeat split.
    + by apply railway_edge_not_transfer in Heq.
  - intros (v & Hu & Hv' & row & r & order & Hrow & Hid & Ho & l1 & l2 & [Hc|Hc]).
    + rewrite Hc in Ho.
      destruct (build_network_adds db new_optimizer row r l1 l2 u v Hrow Hid Ho Hu Hv')
        as [(connections & Hg & _) _]. by rewrite Hg.
    + rewrite Hc in Ho.
      destruct (build_network_adds db new_optimizer row r l1 l2 v u Hrow Hid Ho Hv' Hu)
        as [_ (connections & Hg & _)]. by rewrite Hg.
Qed.

Lemma latest_row_cons s row rows :
  latest_row s (row :: rows) =
  match latest_row s rows with
  | Some r => Some r
  | None => if decide (st_same_as row = Some s) then Some row else None
  end.
Proof.
  unfold latest_row. rewrite filter_cons.
  destruct (decide (st_same_as row = Some s)); [|by destruct (last _)].
  by rewrite last_cons.
Qed.

Lemma load_stations_info s rows self :
  dict_get s (station_info (fold_left load_station rows self)) =
  match latest_row s rows with
  | Some row => Some (info_of_row row)
  | None => dict_get s (station_info self)
  end.
Proof.
  revert self. induction rows as [|row rows IH]; intros self; [done|].
  cbn [fold_left]. rewrite IH, latest_row_cons.
  destruct (latest_row s rows) as [r|]; [done|].
  unfold load_station. destruct (st_same_as row) as [sid|] eqn:Hsid.
  - simpl. destruct (decide (Some sid = Some s)) as [[= ->]|Hne].
    + by rewrite dict_get_set_eq.
    + rewrite dict_get_set_ne; [done | congruence].
  - by destruct (decide (None = Some s)).
Qed.

Lemma station_info_latest_eq db s :
  dict_get s (station_info (build_network db new_optimizer))
  = info_of_row <$> latest_row s (stations db).
Proof.
  unfold build_network. simpl.
  destruct (load_railways_index (railways db)
              (fold_left load_station (stations db) new_optimizer)) as [_ ->].
  rewrite load_stations_info. by destruct (latest_row s (stations db)).
Qed.

(** X14.  After a build by a fresh engine, the station map answers a
    station id with the row that was read last among the rows carrying
    that [same_as], and knows no id that no row carries. *)
Theorem station_info_latest db s :
  dict_get s (station_info (build_network db new_optimizer))
  = info_of_row <$> latest_row s (stations db).
Proof.
  unfold build_network. simpl.
  destruct (load_railways_index (railways db)
              (fold_left load_station (stations db) new_optimizer)) as [_ ->].
  rewrite load_stations_info. by destruct (latest_row s (stations db)).
Qed.

(** ** [search_station]: hits, order, edge cases *)

Lemma search_loop_with_lower term items acc :
  search_loop_with lower term items acc = search_loop term items acc.
Proof.
  revert acc. induction items as [|[id0 info0] items IH]; intros acc; [done|].
  cbn [search_loop_with search_loop].
  change (lower_of_with lower) with lower_of.
  destruct (lower_of (si_title info0)) as [tl|]; [|done].
  destruct (contains term tl); [apply IH|].
  destruct (lower_of (si_title_en info0)) as [tel|]; [|done].
  destruct (contains term tel); apply IH.
Qed.

Lemma search_station_with_lower self term :
  search_station_with lower self term = search_station self term.
Proof. unfold search_station_with, search_station. by rewrite search_loop_with_lower. Qed.

Lemma search_loop_hits str_lower term items acc out :
  search_loop_with str_lower term items acc = Ok out →
  ∀ id title title_en rw,
    (id, title, title_en, rw) ∈ out ↔
    (id, title, title_en, rw) ∈ acc ∨
    ∃ info, (id, info) ∈ items ∧ station_matches str_lower term info title ∧
            si_title_en info = title_en ∧ si_railway info = rw.
Proof.
  revert acc. induction items as [|[id0 info0] items IH]; intros acc Hrun.
  - injection Hrun as <-. intros id title title_en rw. split; [by left|].
    intros [?|(info & ?%elem_of_nil & _)]; done.
  - simpl in Hrun. destruct (si_title info0) as [t0|] eqn:Ht; [|done].
    simpl in Hrun. intros id title title_en rw.
    assert (Hmatch : ∀ acc',
      search_loop_with str_lower term items acc' = Ok out →
      (acc' = acc ++ [(id0, t0, si_title_en info0, si_railway info0)] ∧
       station_matches str_lower term info0 t0) ∨
      (acc' = acc ∧ ∀ t, ¬ station_matches str_lower term info0 t) →
      (id, title, title_en, rw) ∈ out ↔
      (id, title, title_en, rw) ∈ acc ∨
      ∃ info, (id, info) ∈ (id0, info0) :: items ∧
              station_matches str_lower term info title ∧
              si_title_en info = title_en ∧ si_railway info = rw).
    { intros acc' Hrun' Hcase. rewrite (IH _ Hrun' id title title_en rw).
      destruct Hcase as [[-> Hm]|[-> Hno]].
      - rewrite elem_of_app, list_elem_of_singleton. split.
        + intros [[?|[= -> -> -> ->]]|(info & Hin & Hi)]; [by left|right..].
          * exists info0. split; [by left | done].
          * exists info. split; [by right | done].
        + intros [?|(info & [[= -> ->]|Hin]%elem_of_cons & Hi & <- & <-)];
            [by left; left| |right; eauto].
          left. right. destruct Hi as [Ht' _]. congruence.
      - split.
        + intros [?|(info & Hin & Hi)]; [by left|right].
          exists info. split; [by right | done].
        + intros [?|(info & [[= -> ->]|Hin]%elem_of_cons & Hi & <- & <-)];
            [by left| |right; eauto].
          by destruct (Hno title). }
    destruct (contains term (str_lower t0)) eqn:Hc.
    + apply (Hmatch _ Hrun). left. split; [done|]. split; [done | by left].
    + destruct (si_title_en info0) as [te|] eqn:Hte; [|done]. simpl in Hrun.
      destruct (contains term (str_lower te)) eqn:Hce.
      * apply (Hmatch _ Hrun). left. split; [done|]. split; [done|].
        right. eauto.
      * apply (Hmatch _ Hrun). right. split; [done|].
        intros t [Ht' [Hc'|(te' & Hte' & Hce')]].
        -- rewrite Ht in Ht'. injection Ht' as <-. congruence.
        -- congruence.
Qed.

Lemma search_station_hits_iff str_lower self term results id title title_en rw :
  search_station_with str_lower self term = Ok results →
  (id, title, title_en, rw) ∈ results ↔
  ∃ info, (id, info) ∈ station_info self ∧
          station_matches str_lower (str_lower term) info title ∧
          si_title_en info = title_en ∧ si_railway info = rw.
Proof.
  unfold search_station_with.
  destruct (search_loop_with str_lower (str_lower term) (station_info self) [])
    as [out|] eqn:Hrun; [|done].
  intros [= <-]. rewrite py_sort_perm.
  rewrite (search_loop_hits _ _ _ _ _ Hrun). split; [|by right].
  by intros [?%elem_of_nil|?].
Qed.

(** X15.  Whatever [str.lower] does to a string: when [search_station]
    returns, its hits are exactly the loaded stations whose lower-cased
    title, or else lower-cased English title, contains the lower-cased
    term, each with its own title, English title and railway. *)
Theorem search_station_hits str_lower self term results id title title_en rw :
  search_station_with str_lower self term = Ok results →
  (id, title, title_en, rw) ∈ results ↔
  ∃ info, (id, info) ∈ station_info self ∧
          station_matches str_lower (str_lower term) info title ∧
          si_title_en info = title_en ∧ si_railway info = rw.
Proof.
  unfold search_station_with. intros Hres.
  destruct (search_loop_with str_lower (str_lower term) (station_info self) [])
    as [out|] eqn:Hrun; [|done].
  injection Hres as <-. rewrite py_sort_perm.
  rewrite (search_loop_hits _ _ _ _ _ Hrun). split; [|by right].
  by intros [?%elem_of_nil|?].
Qed.

Lemma search_station_hits_witness :
  let title := "CAF" +:+ e_acute_upper in
  ∃ results,
    search_station_with lower_e_acute cafe_engine e_acute_lower = Ok results ∧
    results = [("S1", title, Some title, None)] ∧
    (("S1", title, Some title, None) ∈ results ↔
     ∃ info, ("S1", info) ∈ station_info cafe_engine ∧
             station_matches lower_e_acute (lower_e_acute e_acute_lower) info title ∧
             si_title_en info = Some title ∧ si_railway info = None).
Proof.
  intros title. eexists. split; [vm_compute; reflexivity|]. split; [reflexivity|].
  apply (search_station_hits lower_e_acute cafe_engine e_acute_lower).
  vm_compute; reflexivity.
Defined.

Lemma string_ltb_asym s1 s2 :
  String.ltb s1 s2 = true → String.ltb s2 s1 = false.
Proof.
  unfold String.ltb. rewrite (String.compare_antisym s1 s2).
  by destruct (String.compare s2 s1).
Qed.

(** X16.  The hits come back in ascending order of title: no hit is
    followed by a hit whose title is strictly smaller. *)
Theorem search_station_sorted self term results i x y :
  search_station self term = Ok results →
  results !! i = Some x → results !! S i = Some y →
  String.ltb y.1.1.2 x.1.1.2 = false.
Proof.
  unfold search_station.
  destruct (search_loop (lower term) (station_info self) []) as [out|]; [|done].
  intros [= <-] Hx Hy.
  eapply (Sorted_adjacent (λ a b : search_hit, String.ltb b.1.1.2 a.1.1.2 = false));
    [|exact Hx|exact Hy].
  apply (py_sort_sorted (λ a b : search_hit, String.ltb a.1.1.2 b.1.1.2)).
  intros a b. apply string_ltb_asym.
Qed.

Lemma search_station_sorted_witness :
  ∃ results,
    search_station demo_engine "a" = Ok results ∧
    map (λ hit : search_hit, hit.1.1.2) results = ["Aoba"; "Kita"; "Minato"] ∧
    String.ltb "Kita" "Aoba" = false.
Proof.
  eexists. split; [vm_compute; reflexivity|]. split; [reflexivity|].
  eapply (search_station_sorted demo_engine "a" _ 0%nat
            ("S1", "Aoba", Some "Aoba", None) ("S4", "Kita", Some "Kita", None));
    [vm_compute; reflexivity | reflexivity | reflexivity].
Defined.

Lemma prefix_empty s : String.prefix "" s = true.
Proof. by destruct s. Qed.

Lemma contains_empty s : contains "" s = true.
Proof. destruct s; cbn [contains]; by rewrite prefix_empty. Qed.

Lemma prefix_refl s : String.prefix s s = true.
Proof.
  induction s as [|c s IH]; simpl; [done|].
  by destruct (Ascii.ascii_dec c c).
Qed.

Lemma contains_refl s : contains s s = true.
Proof. destruct s; cbn [contains]; by rewrite prefix_refl. Qed.

Lemma search_loop_empty_term items acc :
  (∀ id info, (id, info) ∈ items → is_Some (si_title info)) →
  ∃ out, search_loop "" items acc = Ok out ∧
         length out = (length acc + length items)%nat.
Proof.
  revert acc. induction items as [|[id0 info0] items IH]; intros acc Hall; simpl.
  - exists acc. split; [done | lia].
  - destruct (Hall id0 info0) as [t Ht]; [by left|]. rewrite Ht. simpl.
    rewrite contains_empty.
    destruct (IH (acc ++ [(id0, t, si_title_en info0, si_railway info0)]))
      as (out & Hrun & Hlen).
    { intros id info Hin. apply (Hall id info). by right. }
    exists out. split; [done|]. rewrite Hlen, length_app. simpl. lia.
Qed.

(** X17.  An empty search term matches every loaded station, provided
    every station has a title: the call returns as many hits as there
    are loaded stations.  English titles are not looked at, so null
    English titles do no harm. *)
Theorem search_station_empty_term self :
  (∀ id info, (id, info) ∈ station_info self → is_Some (si_title info)) →
  ∃ results,
    search_station self "" = Ok results ∧
    length results = length (station_info self).
Proof.
  intros Hall. unfold search_station. simpl.
  destruct (search_loop_empty_term (station_info self) [] Hall) as (out & -> & Hlen).
  eexists. split; [done|].
  by rewrite (Permutation_length (py_sort_perm _ out)), Hlen.
Qed.

Lemma search_station_empty_term_witness :
  let record := mkStationRecord (Some "urn:1") (Some "Tokyo") None None None None
                                (Some "odpt.Station:JR-East.Yamanote.Tokyo") in
  let self := build_network (insert_stations [record] empty_db).1 new_optimizer in
  ∃ results, search_station self "" = Ok results ∧ length results = 1%nat.
Proof.
  intros record self.
  destruct (search_station_empty_term self) as (results & Hres & Hlen).
  - intros id info Hin. vm_compute in Hin.
    apply elem_of_cons in Hin as [Heq|Hin%elem_of_nil]; [|done].
    injection Heq as -> ->. simpl. eauto.
  - exists results. split; [exact Hres | exact Hlen].
Defined.

Lemma search_loop_with_total str_lower term items results :
  (∀ station_id info,
     (station_id, info) ∈ items →
     is_Some (si_title info) ∧ is_Some (si_title_en info)) →
  is_ok (search_loop_with str_lower term items results) = true.
Proof.
  revert results. induction items as [|[id0 info0] items IH]; intros results Hall;
    [done|].
  destruct (Hall id0 info0) as [[title Ht] [te Hte]]; [by left|].
  simpl. rewrite Ht, Hte. simpl.
  assert (Hrest : ∀ station_id info, (station_id, info) ∈ items →
                    is_Some (si_title info) ∧ is_Some (si_title_en info)).
  { intros sid info Hin. apply (Hall sid info). by right. }
  destruct (contains term (str_lower title)); [by apply IH|].
  destruct (contains term (str_lower te)); by apply IH.
Qed.

(** X18.  Whatever [str.lower] does to a string, a station is found by
    its own name in any letter case: when every loaded station has both
    titles, a term whose lower-case form is that of the station's title,
    or of its English title, returns a hit for that station. *)
Theorem search_station_finds_title str_lower self term id info title :
  titles_present self →
  (id, info) ∈ station_info self →
  si_title info = Some title →
  str_lower term = str_lower title ∨
  (∃ title_en, si_title_en info = Some title_en ∧
               str_lower term = str_lower title_en) →
  ∃ results,
    search_station_with str_lower self term = Ok results ∧
    (id, title, si_title_en info, si_railway info) ∈ results.
Proof.
  intros Hall Hin Ht Hterm.
  pose proof (search_loop_with_total str_lower (str_lower term)
                (station_info self) [] Hall) as Hok.
  destruct (search_station_with str_lower self term) as [results|e] eqn:Hres.
  - exists results. split; [done|].
    apply (search_station_hits_iff str_lower self term results _ _ _ _ Hres).
    exists info. split; [done|]. split; [|done]. split; [done|].
    destruct Hterm as [->|(te & Hen & ->)].
    + left. apply contains_refl.
    + right. exists te. split; [done | apply contains_refl].
  - unfold search_station_with in Hres.
    destruct (search_loop_with str_lower (str_lower term) (station_info self) []);
      done.
Qed.

Lemma search_station_finds_title_witness :
  let title := "CAF" +:+ e_acute_upper in
  let term := "Caf" +:+ e_acute_lower in
  lower_e_acute term = lower_e_acute title ∧
  ∃ results,
    search_station_with lower_e_acute cafe_engine term = Ok results ∧
    ("S1", title, Some title, None) ∈ results.
Proof.
  intros title term. split; [reflexivity|].
  apply (search_station_finds_title lower_e_acute cafe_engine term "S1"
           (mkStationInfo (Some title) (Some title) None None None) title).
  - intros id info Hin. vm_compute in Hin.
    apply elem_of_cons in Hin as [[= -> ->]|Hin%elem_of_nil]; [|done].
    split; eauto.
  - vm_compute. in_concrete_list.
  - reflexivity.
  - left. reflexivity.
Defined.

(** ** [insert_stations]: count and upsert *)

Lemma insert_stations_fold records db n :
  fold_left
    (λ (acc : Database * Z) station,
       (mkDatabase (insert_or_replace (row_of_record station) (stations acc.1))
                   (railways acc.1),
        acc.2 + 1))
    records (db, n)
  = (fold_left
       (λ d station,
          mkDatabase (insert_or_replace (row_of_record station) (stations d))
                     (railways d))
       records db,
     n + Z.of_nat (length records)).
Proof.
  revert db n. induction records as [|r records IH]; intros db n.
  - simpl. f_equal. lia.
  - cbn [fold_left length fst snd]. rewrite IH. f_equal. lia.
Qed.

Lemma insert_stations_cons r records db :
  (insert_stations (r :: records) db).1 =
  (insert_stations records
     (mkDatabase (insert_or_replace (row_of_record r) (stations db))
                 (railways db))).1.
Proof.
  unfold insert_stations. cbn [fold_left fst snd].
  by rewrite !insert_stations_fold.
Qed.

Lemma insert_or_replace_length row table :
  (length (insert_or_replace row table) ≤ S (length table))%nat.
Proof.
  unfold insert_or_replace. rewrite length_app. simpl.
  pose proof (length_filter (λ r, conflicts (st_id row) r = false) table). lia.
Qed.

(** X19.  [insert_stations] returns the number of records it was given,
    leaves the railways table alone, and grows the stations table by at
    most that number (by less when records replace rows). *)
Theorem insert_stations_count records db :
  (insert_stations records db).2 = Z.of_nat (length records) ∧
  railways (insert_stations records db).1 = railways db ∧
  (length (stations (insert_stations records db).1)
   ≤ length (stations db) + length records)%nat.
Proof.
  unfold insert_stations. rewrite insert_stations_fold. cbn [fst snd].
  split; [lia|]. revert db. induction records as [|r records IH]; intros db.
  - simpl. split; [done | lia].
  - cbn [fold_left length]. destruct (IH (mkDatabase
      (insert_or_replace (row_of_record r) (stations db)) (railways db)))
      as [Hrw Hlen].
    split; [exact Hrw|]. cbn [stations] in Hlen.
    pose proof (insert_or_replace_length (row_of_record r) (stations db)). lia.
Qed.

Lemma rows_with_id_insert i row table :
  rows_with_id i (insert_or_replace row table) =
  if bool_decide (st_id row = Some i) then [row] else rows_with_id i table.
Proof.
  unfold rows_with_id, insert_or_replace. rewrite filter_app.
  assert (Hlast : filter (λ r : StationRow, st_id r = Some i) [row] =
                  if bool_decide (st_id row = Some i) then [row] else []).
  { rewrite filter_cons, filter_nil.
    destruct (decide (st_id row = Some i)) as [Heq|Hne].
    - by rewrite bool_decide_eq_true_2.
    - by rewrite bool_decide_eq_false_2. }
  rewrite Hlast. clear Hlast.
  induction table as [|r table IH]; [by destruct (bool_decide _)|].
  rewrite (filter_cons _ r table).
  destruct (decide (conflicts (st_id row) r = false)) as [Hkeep|Hdrop].
  - rewrite (filter_cons _ r), (filter_cons (λ r, st_id r = Some i) r table).
    destruct (decide (st_id r = Some i)) as [Hr|Hr].
    + destruct (bool_decide (st_id row = Some i)) eqn:Hrow.
      * apply bool_decide_eq_true in Hrow. exfalso.
        unfold conflicts in Hkeep. rewrite Hrow, Hr in Hkeep.
        by rewrite bool_decide_eq_true_2 in Hkeep.
      * simpl. f_equal. rewrite app_nil_r in IH. by rewrite app_nil_r.
    + exact IH.
  - rewrite (filter_cons (λ r, st_id r = Some i) r table).
    destruct (decide (st_id r = Some i)) as [Hr|Hr]; [|exact IH].
    destruct (bool_decide (st_id row = Some i)) eqn:Hrow; [exact IH|].
    apply bool_decide_eq_false in Hrow. exfalso. apply Hdrop.
    unfold conflicts. rewrite Hr. destruct (st_id row) as [a|]; [|done].
    apply bool_decide_eq_false_2. congruence.
Qed.

Lemma latest_record_cons i r records :
  latest_record i (r :: records) =
  match latest_record i records with
  | Some r' => Some r'
  | None => if bool_decide (at_id r = Some i) then Some r else None
  end.
Proof.
  unfold latest_record. rewrite filter_cons.
  destruct (decide (at_id r = Some i)) as [Heq|Hne].
  - rewrite bool_decide_eq_true_2 by done. rewrite last_cons.
    by destruct (last _).
  - rewrite bool_decide_eq_false_2 by done. by destruct (last _).
Qed.

Lemma insert_stations_rows records db i :
  rows_with_id i (stations (insert_stations records db).1) =
  match latest_record i records with
  | Some record => [row_of_record record]
  | None => rows_with_id i (stations db)
  end.
Proof.
  revert db. induction records as [|r records IH]; intros db; [done|].
  rewrite insert_stations_cons, IH, latest_record_cons. cbn [stations].
  destruct (latest_record i records) as [r'|]; [done|].
  rewrite rows_with_id_insert.
  change (st_id (row_of_record r)) with (at_id r).
  by destruct (bool_decide (at_id r = Some i)).
Qed.

(** X20.  [insert_stations] is an upsert on ["@id"]: afterwards the rows
    with a given id are exactly the row of the last record of the batch
    carrying that id, and, when no record carries it, the rows that
    were there before. *)
Theorem insert_stations_upsert records db i :
  rows_with_id i (stations (insert_stations records db).1) =
  match latest_record i records with
  | Some record => [row_of_record record]
  | None => rows_with_id i (stations db)
  end.
Proof.
  revert db. induction records as [|r records IH]; intros db; [done|].
  rewrite insert_stations_cons, IH, latest_record_cons. cbn [stations].
  destruct (latest_record i records) as [r'|]; [done|].
  rewrite rows_with_id_insert.
  change (st_id (row_of_record r)) with (at_id r).
  by destruct (bool_decide (at_id r = Some i)).
Qed.

(** X21.  A stations table that holds at most one row per id still does
    after [insert_stations], whatever the batch repeats. *)
Theorem insert_stations_keeps_ids_unique records db :
  (∀ i, (length (rows_with_id i (stations db)) ≤ 1)%nat) →
  ∀ i, (length (rows_with_id i (stations (insert_stations records db).1)) ≤ 1)%nat.
Proof.
  intros Hdb i. pose proof (insert_stations_rows records db i) as Hup.
  destruct (latest_record i records).
  - rewrite Hup. simpl. lia.
  - rewrite Hup. apply Hdb.
Qed.

Lemma insert_stations_keeps_ids_unique_witness :
  let old := mkStationRecord (Some "urn:1") (Some "Tokio") None None None None
                             (Some "odpt.Station:JR-East.Yamanote.Tokyo") in
  let new := mkStationRecord (Some "urn:1") (Some "Tokyo") None None None None
                             (Some "odpt.Station:JR-East.Yamanote.Tokyo") in
  (length (rows_with_id "urn:1"
             (stations (insert_stations [old; new] empty_db).1)) ≤ 1)%nat.
Proof.
  intros old new.
  apply (insert_stations_keeps_ids_unique [old; new] empty_db).
  intros i. simpl. lia.
Defined.

(** ** From a fetched record to the engine's station map *)

Lemma insert_stations_app records1 records2 db :
  (insert_stations (records1 ++ records2) db).1 =
  (insert_stations records2 (insert_stations records1 db).1).1.
Proof.
  revert db. induction records1 as [|r records1 IH]; intros db; [done|].
  by rewrite <- app_comm_cons, !insert_stations_cons, IH.
Qed.

Lemma insert_stations_after (s : string) row after : ∀ db l tail,
  stations db = l ++ row :: tail →
  Forall (λ x, st_same_as x ≠ Some s) tail →
  Forall (λ r', conflicts (at_id r') row = false ∧ owl_sameAs r' ≠ Some s) after →
  ∃ l' tail',
    stations (insert_stations after db).1 = l' ++ row :: tail' ∧
    Forall (λ x, st_same_as x ≠ Some s) tail'.
Proof.
  induction after as [|r' after IH]; intros db l tail Hdb Htail Hafter.
  - by exists l, tail.
  - apply Forall_cons in Hafter as [[Hkeep Hsame] Hafter].
    rewrite insert_stations_cons.
    eapply (IH _ (filter (λ x, conflicts (at_id r') x = false) l)
                 (filter (λ x, conflicts (at_id r') x = false) tail
                  ++ [row_of_record r'])); [| |exact Hafter].
    + cbn [stations]. unfold insert_or_replace. rewrite Hdb, filter_app.
      rewrite filter_cons. change (st_id (row_of_record r')) with (at_id r').
      destruct (decide (conflicts (at_id r') row = false)); [|done].
      by rewrite <- app_assoc, <- app_comm_cons.
    + apply Forall_app. split.
      * apply Forall_forall. intros x Hx%list_elem_of_filter.
        rewrite Forall_forall in Htail. apply Htail, Hx.
      * apply Forall_singleton. exact Hsame.
Qed.

(** X22.  From the fetched batch to the engine: a record that no later
    record of its batch replaces (none has the same ["@id"]) and whose
    ["owl:sameAs"] no later record repeats is what a fresh engine, built
    from the database after [insert_stations], knows that station by. *)
Theorem inserted_station_is_loaded before r after db s :
  owl_sameAs r = Some s →
  (∀ r', r' ∈ after →
     (at_id r = None ∨ at_id r' ≠ at_id r) ∧ owl_sameAs r' ≠ Some s) →
  dict_get s (station_info
                (build_network (insert_stations (before ++ r :: after) db).1
                               new_optimizer))
  = Some (info_of_row (row_of_record r)).
Proof.
  intros Hs Hafter. rewrite station_info_latest_eq.
  rewrite insert_stations_app, insert_stations_cons.
  edestruct (insert_stations_after s (row_of_record r) after) as (l' & tail' & -> & Htail).
  - cbn [stations]. unfold insert_or_replace.
    by rewrite <- (app_nil_r [row_of_record r]) at 1.
  - constructor.
  - apply Forall_forall. intros r' Hr'. destruct (Hafter r' Hr') as [Hid Hsame].
    split; [|exact Hsame]. unfold conflicts.
    change (st_id (row_of_record r)) with (at_id r).
    destruct (at_id r') as [a|]; [|done]. destruct (at_id r) as [b|]; [|done].
    apply bool_decide_eq_false_2. destruct Hid as [?|Hne]; congruence.
  - unfold latest_row. rewrite filter_app, filter_cons.
    change (st_same_as (row_of_record r)) with (owl_sameAs r).
    destruct (decide (owl_sameAs r = Some s)); [|done].
    assert (filter (λ row, st_same_as row = Some s) tail' = []) as ->.
    { clear -Htail. induction Htail as [|x tail Hx _ IH]; [done|].
      rewrite filter_cons. by destruct (decide (st_same_as x = Some s)). }
    by rewrite last_snoc.
Qed.

Lemma inserted_station_is_loaded_witness :
  let old := mkStationRecord (Some "urn:1") (Some "Tokio") None None None None
                             (Some "odpt.Station:JR-East.Yamanote.Tokyo") in
  let new := mkStationRecord (Some "urn:1") (Some "Tokyo") None None None None
                             (Some "odpt.Station:JR-East.Yamanote.Tokyo") in
  let other := mkStationRecord (Some "urn:2") (Some "Ueno") None None None None
                               (Some "odpt.Station:JR-East.Yamanote.Ueno") in
  dict_get "odpt.Station:JR-East.Yamanote.Tokyo"
    (station_info (build_network (insert_stations [old; new; other] empty_db).1
                                 new_optimizer))
  = Some (mkStationInfo (Some "Tokyo") None None None None).
Proof.
  intros old new other.
  apply (inserted_station_is_loaded [old] new [other] empty_db
           "odpt.Station:JR-East.Yamanote.Tokyo"); [reflexivity|].
  intros r' Hr'. apply list_elem_of_singleton in Hr' as ->.
  split; [by right | done].
Defined.

(** ** [fetch_all_operators]: unknown keys and missing credentials *)

Lemma fetch_operator_data_unknown {W R} (env : Env W R) k w :
  ¬ known_operator k →
  fetch_operator_data env k w = (Raise (ValueError ("Unknown operator: " +:+ k)), w).
Proof.
  intros Hk. unfold fetch_operator_data.
  destruct (dict_get k OPERATORS) as [cfg|] eqn:Hcfg; [|done].
  destruct Hk. unfold known_operator. rewrite Hcfg. eauto.
Qed.

(** X23.  One unknown operator key aborts the whole batch: the call
    raises [ValueError] naming the key, the data already fetched for
    the operators before it is not returned, and the operators after it
    are never asked (the service is left as the earlier operators left
    it). *)
Theorem fetch_all_operators_unknown_key {W R} (env : Env W R) before k after w :
  Forall known_operator before →
  ¬ known_operator k →
  fetch_all_operators env (Some (before ++ k :: after)) w =
  (Raise (ValueError ("Unknown operator: " +:+ k)),
   (fetch_all_operators env (Some before) w).2).
Proof.
  intros Hb Hk. unfold fetch_all_operators. simpl.
  rewrite fetch_each_app.
  destruct (fetch_each_known env before [] w Hb) as (d & w1 & ->).
  simpl. by rewrite (fetch_operator_data_unknown env k w1 Hk).
Qed.

Lemma fetch_all_operators_unknown_key_witness :
  fetch_all_operators demo_env (Some ["JR_EAST"; "TOEI"; "KEIKYU"]) 0%nat =
  (Raise (ValueError "Unknown operator: TOEI"),
   (fetch_all_operators demo_env (Some ["JR_EAST"]) 0%nat).2).
Proof.
  apply (fetch_all_operators_unknown_key demo_env ["JR_EAST"] "TOEI" ["KEIKYU"]).
  - repeat constructor. vm_compute. eauto.
  - intros [cfg Hcfg]. vm_compute in Hcfg. discriminate.
Defined.

Lemma fetch_operator_data_no_credential {W R} (env : Env W R) k w :
  lacks_credential env k →
  fetch_operator_data env k w = (Ok (mkOperatorData [] []), w).
Proof.
  intros (cfg & Hcfg & Hkey). unfold fetch_operator_data, _fetch_data.
  by rewrite Hcfg, Hkey.
Qed.

Lemma fetch_each_no_credential {W R} (env : Env W R) keys acc w :
  Forall (lacks_credential env) keys →
  ∃ all_data,
    fetch_each env keys acc w = (Ok all_data, w) ∧
    ∀ k, dict_get k all_data =
         if bool_decide (k ∈ keys) then Some (mkOperatorData [] [])
         else dict_get k acc.
Proof.
  revert acc. induction keys as [|k0 keys IH]; intros acc Hall.
  - exists acc. split; [done|]. intros k.
    rewrite bool_decide_eq_false_2; [done|]. apply not_elem_of_nil.
  - apply Forall_cons in Hall as [Hk0 Hall]. cbn [fetch_each].
    rewrite (fetch_operator_data_no_credential env k0 w Hk0).
    destruct (IH (dict_set k0 (mkOperatorData [] []) acc) Hall) as (d & -> & Hd).
    exists d. split; [done|]. intros k. rewrite Hd.
    destruct (decide (k ∈ keys)) as [Hin|Hout].
    + rewrite !bool_decide_eq_true_2; [done | by right | done].
    + rewrite (bool_decide_eq_false_2 (k ∈ keys)) by done.
      destruct (decide (k = k0)) as [->|Hne].
      * rewrite dict_get_set_eq, bool_decide_eq_true_2; [done | by left].
      * rewrite dict_get_set_ne by done. rewrite bool_decide_eq_false_2; [done|].
        intros [?|?]%elem_of_cons; done.
Qed.

(** X24.  Without credentials nothing is requested: when the credential
    of every requested operator is unset or empty, [fetch_all_operators]
    returns, leaves the service untouched, and maps every requested
    operator, and no other, to empty station and railway lists. *)
Theorem fetch_without_credentials {W R} (env : Env W R) keys w :
  Forall (lacks_credential env) keys →
  ∃ all_data,
    fetch_all_operators env (Some keys) w = (Ok all_data, w) ∧
    ∀ k, dict_get k all_data =
         if bool_decide (k ∈ keys) then Some (mkOperatorData [] []) else None.
Proof.
  intros Hall. unfold fetch_all_operators. simpl.
  destruct (fetch_each_no_credential env keys [] w Hall) as (d & Hrun & Hd).
  exists d. split; [done|]. intros k. rewrite Hd. by destruct (bool_decide _).
Qed.

Lemma fetch_without_credentials_witness :
  ∃ all_data,
    fetch_all_operators
      (mkEnv (λ _, Some "") (λ (w : nat) _ _ _, (Ok ["record"], S w)))
      (Some ["JR_EAST"; "TOKYO_METRO"]) 0%nat = (Ok all_data, 0%nat) ∧
    dict_get "TOKYO_METRO" all_data = Some (mkOperatorData [] []) ∧
    dict_get "KEIKYU" all_data = None.
Proof.
  destruct (fetch_without_credentials
              (mkEnv (λ _, Some "") (λ (w : nat) _ _ _, (Ok ["record"], S w)))
              ["JR_EAST"; "TOKYO_METRO"] 0%nat) as (d & Hrun & Hd).
  - repeat constructor; eexists; split; reflexivity.
  - exists d. split; [exact Hrun|]. split.
    + exact (Hd "TOKYO_METRO").
    + exact (Hd "KEIKYU").
Defined.

(** ** [analyze_commute] on validated requests *)

Lemma find_optimal_stations_length db self a b top_n max_time candidates :
  (find_optimal_stations db self a b top_n max_time).2 = Ok candidates →
  0 <= top_n →
  Z.of_nat (length candidates)
  = Z.min top_n (Z.of_nat (size (common_reachable db self a b max_time))).
Proof.
  intros Hres Hn. apply find_optimal_stations_slice in Hres as ->.
  destruct (slice_to_take top_n (ranked_candidates db self a b max_time))
    as (k & -> & Hk).
  rewrite length_take, (Hk Hn).
  pose proof (Permutation_length (ranked_candidates_ids db self a b max_time)) as Hl.
  rewrite length_map in Hl. rewrite Hl. unfold size, set_size. simpl. lia.
Qed.

(** X25.  On a request that passed the [AnalyzeRequest] field checks,
    the only errors the handler raises itself are 400 and 404: the
    [except] around [find_optimal_stations] never fires, so there is no
    "Analysis failed" 500.  The handler raises nothing, and goes on to
    render the response, exactly when the two work stations differ, both
    are loaded, and some other station is reachable from both within
    [max_time]; what it then renders are the two requested stations and
    the candidates of the ranking, between one and [top_n] of them. *)
Theorem analyze_commute_validated db optimizer request :
  AnalyzeRequest_valid request →
  let a := req_station_a request in
  let b := req_station_b request in
  let engine := ensure_built db optimizer in
  let response := (analyze_commute db optimizer request).2 in
  (raised_status response = None ∨ raised_status response = Some 400 ∨
   raised_status response = Some 404) ∧
  (raised_status response = None ↔
   a ≠ b ∧ is_Some (dict_get a (station_info engine)) ∧
   is_Some (dict_get b (station_info engine)) ∧
   common_reachable db engine a b (req_max_time request) ≠ ∅) ∧
  ∀ work_a work_b candidates,
    response = AnalyzeResponse work_a work_b candidates →
    work_a.1 = a ∧ work_b.1 = b ∧
    1 <= Z.of_nat (length candidates) <= req_top_n request ∧
    (find_optimal_stations db engine a b (req_top_n request)
                           (req_max_time request)).2 = Ok candidates.
Proof.
  intros ([Hn1 Hn50] & HT10 & HT300) a b engine response.
  subst response. unfold analyze_commute. fold a b engine. unfold dict_contains.
  destruct (decide (a = b)) as [Hab|Hab].
  { rewrite bool_decide_eq_true_2 by done. simpl.
    split; [tauto|]. split; [|done]. split; [done | tauto]. }
  rewrite bool_decide_eq_false_2 by done.
  destruct (dict_get a (station_info engine)) as [ia|] eqn:Ha; simpl.
  2:{ split; [tauto|]. split; [|done]. split; [done|].
      intros (_ & [? ?] & _). done. }
  destruct (dict_get b (station_info engine)) as [ib|] eqn:Hb; simpl.
  2:{ split; [tauto|]. split; [|done]. split; [done|].
      intros (_ & _ & [? ?] & _). done. }
  assert (HT : ¬ (req_max_time request == 0)%Q) by (intros HT; rewrite HT in HT10; lra).
  pose proof (find_optimal_stations_returns db engine a b (req_top_n request)
                (req_max_time request) HT) as Hok.
  pose proof (find_optimal_stations_length db engine a b (req_top_n request)
                (req_max_time request)) as Hlen.
  destruct (find_optimal_stations db engine a b (req_top_n request)
              (req_max_time request)) as [engine2 [candidates|e]];
    [|done].
  specialize (Hlen candidates eq_refl ltac:(lia)).
  assert (Hsize : size (common_reachable db engine a b (req_max_time request)) = 0%nat
                  ↔ common_reachable db engine a b (req_max_time request) = ∅)
    by (rewrite size_empty_iff; apply leibniz_equiv_iff).
  destruct candidates as [|c candidates]; simpl.
  - split; [tauto|]. split; [|done]. split; [done|].
    intros (_ & _ & _ & Hne). exfalso. apply Hne, Hsize. simpl in Hlen. lia.
  - split; [tauto|]. split.
    + split; [|done]. intros _. repeat split; eauto.
      intros Hempty%Hsize. rewrite Hempty in Hlen. simpl in Hlen. lia.
    + intros wa wb cs [= <- <- <-]. simpl. repeat split; try done; simpl in Hlen; lia.
Qed.

Lemma analyze_commute_validated_witness :
  let request := mkAnalyzeRequest "S1" "S5" 3 120 in
  let response := (analyze_commute demo_db new_optimizer request).2 in
  AnalyzeRequest_valid request ∧
  raised_status response = None ∧
  (raised_status response = None ∨ raised_status response = Some 400 ∨
   raised_status response = Some 404).
Proof.
  intros request response.
  assert (Hvalid : AnalyzeRequest_valid request).
  { unfold AnalyzeRequest_valid. simpl. repeat split; (lia || lra). }
  split; [exact Hvalid|]. split; [vm_compute; reflexivity|].
  exact (proj1 (analyze_commute_validated demo_db new_optimizer request Hvalid)).
Defined.

(** ** Routes of [_dijkstra_with_path] pass no station twice *)

Lemma sum_times_app p1 p2 :
  (sum_times (p1 ++ p2) == sum_times p1 + sum_times p2)%Q.
Proof.
  induction p2 as [|s p2 IH] using rev_ind.
  - rewrite app_nil_r. unfold sum_times at 3. simpl. ring.
  - rewrite app_assoc, !sum_times_snoc, IH. ring.
Qed.

Lemma sum_times_cons s path :
  (sum_times (s :: path) == travel_time s + sum_times path)%Q.
Proof.
  change (s :: path) with ([s] ++ path). rewrite sum_times_app.
  unfold sum_times at 1. simpl. ring.
Qed.

Lemma walk_app origin p1 p2 dest :
  walk origin (p1 ++ p2) dest ↔ ∃ mid, walk origin p1 mid ∧ walk mid p2 dest.
Proof.
  revert origin. induction p1 as [|s p1 IH]; intros origin; simpl.
  - split; [intros H; by exists origin | by intros (mid & -> & H)].
  - rewrite IH. split.
    + intros (Hs & mid & H1 & H2). by exists mid.
    + intros (mid & (Hs & H1) & H2). split; [done | by exists mid].
Qed.

Lemma engine_state_positive self :
  engine_state self → weights_positive (network_graph self).
Proof.
  intros Hs s connections c Hg Hc.
  destruct (engine_state_weights self Hs s c) as [->| ->]; [by eexists|..];
    reflexivity.
Qed.

Lemma sum_times_positive g path :
  weights_positive g → Forall (segment_in g) path → path ≠ [] →
  (0 < sum_times path)%Q.
Proof.
  intros Hw Hp Hne. destruct path as [|s path]; [done|].
  apply Forall_cons in Hp as [(connections & Hg & Hc) Hp].
  pose proof (Hw _ _ _ Hg Hc) as Hs. simpl in Hs.
  assert (Hnn : weights_nonneg g).
  { intros u cs c Hu Hin. apply Qlt_le_weak. by eapply Hw. }
  pose proof (sum_times_nonneg g path Hnn Hp).
  rewrite sum_times_cons. lra.
Qed.

Lemma walk_split origin path dest s :
  walk origin path dest → s ∈ map to_station path →
  ∃ p1 p2, path = p1 ++ p2 ∧ p1 ≠ [] ∧ walk origin p1 s ∧ walk s p2 dest.
Proof.
  revert origin. induction path as [|seg path IH]; intros origin Hwalk Hin.
  - by apply elem_of_nil in Hin.
  - destruct Hwalk as [Hfrom Hwalk]. simpl in Hin.
    apply elem_of_cons in Hin as [->|Hin].
    + exists [seg], path. by repeat split.
    + destruct (IH _ Hwalk Hin) as (p1 & p2 & -> & _ & H1 & H2).
      exists (seg :: p1), p2. by repeat split.
Qed.

Lemma shortest_walk_simple g path : ∀ origin dest,
  weights_positive g →
  walk origin path dest → Forall (segment_in g) path →
  (∀ path', walk origin path' dest → Forall (segment_in g) path' →
            (sum_times path <= sum_times path')%Q) →
  NoDup (stations_on origin path).
Proof.
  induction path as [|seg path IH]; intros origin dest Hw Hwalk Hedges Hbest.
  - apply NoDup_singleton.
  - unfold stations_on. apply NoDup_cons. split.
    + intros Hin.
      destruct (walk_split origin (seg :: path) dest origin Hwalk Hin)
        as (p1 & p2 & Heq & Hne & H1 & H2).
      rewrite Heq in Hedges. apply Forall_app in Hedges as [He1 He2].
      pose proof (sum_times_positive g p1 Hw He1 Hne) as Hpos.
      pose proof (Hbest p2 H2 He2) as Hle.
      rewrite Heq, sum_times_app in Hle. lra.
    + destruct Hwalk as [Hfrom Hwalk].
      apply Forall_cons in Hedges as [Hseg Hedges].
      apply (IH (to_station seg) dest Hw Hwalk Hedges).
      intros path' Hwalk' Hedges'.
      pose proof (Hbest (seg :: path') (conj Hfrom Hwalk')
                    (Forall_cons_2 _ _ _ Hseg Hedges')) as Hle.
      rewrite !sum_times_cons in Hle. lra.
Qed.

(** X26.  On the graph of any engine, a recorded route passes no station
    twice: the start station and the stations its segments arrive at are
    pairwise different. *)
Theorem route_passes_stations_once self start T v t r :
  engine_state self →
  _dijkstra_with_path (network_graph self) start T !! v = Some (t, r) →
  NoDup (stations_on start (segments r)).
Proof.
  intros Hs Hd.
  destruct (rinv_dist _ _ _ _ (route_inv_final (network_graph self) start T) v t r Hd)
    as [[Hwalk Hedges Htime Hbest _] _].
  apply (shortest_walk_simple (network_graph self) _ start v);
    [by apply engine_state_positive | done | done |].
  intros path' Hwalk' Hedges'. rewrite <- Htime, Hbest.
  eapply dijkstra_shortest_nonneg; eauto using engine_state_nonneg.
Qed.

Lemma route_passes_stations_once_witness :
  ∃ t r,
    _dijkstra_with_path (network_graph demo_engine) "S1" 120 !! "S5" = Some (t, r) ∧
    stations_on "S1" (segments r) = ["S1"; "S2"; "T2"; "S5"] ∧
    NoDup (stations_on "S1" (segments r)).
Proof.
  eexists _, _. split; [vm_compute; reflexivity|]. split; [reflexivity|].
  eapply (route_passes_stations_once demo_engine "S1" 120 "S5").
  - apply engine_built, engine_new.
  - vm_compute; reflexivity.
Defined.

(** ** Commute times are the same in both directions *)

Lemma transfer_edge_added db a b :
  let g := network_graph (build_network db new_optimizer) in
  share_title db a b → a ≠ b → is_Some (g !! a) →
  has_edge g a (transfer_edge b).
Proof.
  intros g (ra & rb & Hra & Hrb & Hsa & Hsb & Ht) Hne Hdom.
  subst g. unfold build_network in *. simpl in *.
  destruct (load_railways_index (railways db)
              (fold_left load_station (stations db) new_optimizer)) as [Hts _].
  rewrite Hts in *.
  pose proof (load_stations_index_complete (stations db) new_optimizer []) as Hc.
  simpl in Hc. specialize (Hc ltac:(by intros ? ? ?%elem_of_nil)).
  destruct (Hc ra a Hra Hsa) as (ids & Hd & Ha).
  destruct (Hc rb b Hrb Hsb) as (ids' & Hd' & Hb).
  rewrite <- Ht, Hd in Hd'. injection Hd' as <-.
  apply dict_get_elem in Hd.
  eapply add_transfer_connections_adds; try done.
  by apply add_transfer_connections_dom in Hdom.
Qed.

Lemma build_network_reversible db :
  reversible (network_graph (build_network db new_optimizer)).
Proof.
  intros u c He Hdom.
  destruct (build_network_origin db u c He)
    as [(row & r & order & _ & _ & _ & _ & Heq)|(Hshare & Hne & Heq)].
  - exists (railway_edge r u). split; [|split; [done | by rewrite Heq]].
    apply railway_edges_paired; [apply engine_built, engine_new|].
    by rewrite <- Heq.
  - exists (transfer_edge u). split; [|split; [done | by rewrite Heq]].
    apply transfer_edge_added; [|done|done].
    destruct Hshare as (ra & rb & Hra & Hrb & Hsa & Hsb & Ht).
    by exists rb, ra.
Qed.

Lemma walk_origin_vertex g origin path dest :
  walk origin path dest → Forall (segment_in g) path →
  is_Some (g !! dest) → is_Some (g !! origin).
Proof.
  destruct path as [|s path]; simpl.
  - by intros -> _.
  - intros [<- _] [(connections & Hg & _) _]%Forall_cons _. eauto.
Qed.

Lemma walk_reverse g path : ∀ origin dest,
  reversible g →
  walk origin path dest → Forall (segment_in g) path → is_Some (g !! dest) →
  ∃ path', walk dest path' origin ∧ Forall (segment_in g) path' ∧
           (sum_times path' == sum_times path)%Q.
Proof.
  induction path as [|s path IH]; intros origin dest Hrev Hwalk Hedges Hdest.
  - simpl in Hwalk. subst dest. exists []. by repeat split.
  - destruct Hwalk as [Hfrom Hwalk].
    apply Forall_cons in Hedges as [Hs Hedges].
    destruct (IH _ _ Hrev Hwalk Hedges Hdest) as (back & Hback & Hbe & Hbt).
    pose proof (walk_origin_vertex g _ _ _ Hwalk Hedges Hdest) as Hmid.
    destruct (Hrev (from_station s) (connection_of s) Hs Hmid)
      as (c' & (connections & Hg & Hc) & Hto & Htime).
    simpl in Hg, Hto, Htime.
    exists (back ++ [mkRouteSegment (to_station s) (c_to_station c') (c_railway c')
                                    (c_travel_time c') (c_num_stops c')]).
    split; [|split].
    + apply walk_snoc. simpl. split; [done | congruence].
    + apply Forall_app. split; [done|]. apply Forall_singleton.
      exists connections. split; [done|]. by destruct c'.
    + rewrite sum_times_snoc, sum_times_cons, Hbt. simpl. rewrite Htime. ring.
Qed.

(** X27.  After a build by a fresh engine, travel takes as long back as
    forth: when the search from [a] records [b], a station with
    connections of its own, the search from [b] records [a] with the
    same time. *)
Theorem commute_time_symmetric db a b T t r :
  let g := network_graph (build_network db new_optimizer) in
  _dijkstra_with_path g a T !! b = Some (t, r) →
  is_Some (g !! b) →
  ∃ t' r', _dijkstra_with_path g b T !! a = Some (t', r') ∧ (t' == t)%Q.
Proof.
  intros g Hd Hb.
  destruct (decide (b = a)) as [->|Hne]; [by exists t, r|].
  assert (Hstate : engine_state (build_network db new_optimizer))
    by apply engine_built, engine_new.
  pose proof (engine_state_nonneg _ Hstate) as Hw. fold g in Hw.
  pose proof (build_network_reversible db) as Hrev. fold g in Hrev.
  destruct (rinv_dist _ _ _ _ (route_inv_final g a T) b t r Hd)
    as [[Hwalk Hedges Htime Hbest _] [Hle|[? _]]]; [|done].
  destruct (walk_reverse g _ _ _ Hrev Hwalk Hedges Hb) as (back & Hback & Hbe & Hbt).
  rewrite <- Htime, Hbest in Hbt.
  destruct (dijkstra_complete g b T back a Hw Hback Hbe ltac:(by rewrite Hbt))
    as (t' & r' & Hd' & Hle').
  exists t', r'. split; [done|].
  destruct (rinv_dist _ _ _ _ (route_inv_final g b T) a t' r' Hd')
    as [[Hwalk' Hedges' Htime' Hbest' _] _].
  pose proof (walk_origin_vertex g _ _ _ Hwalk Hedges Hb) as Ha.
  destruct (walk_reverse g _ _ _ Hrev Hwalk' Hedges' Ha)
    as (forth & Hforth & Hfe & Hft).
  rewrite <- Htime', Hbest' in Hft.
  pose proof (dijkstra_shortest_nonneg g a T b t r forth Hw Hd Hforth Hfe).
  lra.
Qed.

Lemma commute_time_symmetric_witness :
  let g := network_graph (build_network demo_db new_optimizer) in
  ∃ t r t' r',
    _dijkstra_with_path g "S1" 120 !! "S5" = Some (t, r) ∧
    _dijkstra_with_path g "S5" 120 !! "S1" = Some (t', r') ∧
    (t == 10)%Q ∧ (t' == t)%Q.
Proof.
  intros g.
  destruct (_dijkstra_with_path g "S1" 120 !! "S5") as [[t r]|] eqn:Hd;
    [|vm_compute in Hd; discriminate].
  destruct (commute_time_symmetric demo_db "S1" "S5" 120 t r Hd)
    as (t' & r' & Hd' & Heq); [vm_compute; eauto|].
  exists t, r, t', r'. split; [reflexivity|]. split; [exact Hd'|].
  split; [|exact Heq].
  vm_compute in Hd. injection Hd as <- _. reflexivity.
Defined.

(** ** [find_optimal_stations] with the work stations exchanged *)

Lemma common_reachable_swap db self a b T :
  common_reachable db self b a T = common_reachable db self a b T.
Proof.
  unfold common_reachable, common_stations. apply set_eq. intros s.
  rewrite !elem_of_difference, !elem_of_intersection. tauto.
Qed.

Lemma find_optimal_stations_result db self a b top_n T :
  (find_optimal_stations db self a b top_n T).2 =
  if decide (common_reachable db self a b T = ∅) then Ok (slice_to top_n [])
  else if Qeq_bool T 0 then Raise ZeroDivisionError
  else Ok (slice_to top_n (ranked_candidates db self a b T)).
Proof.
  unfold find_optimal_stations, ranked_candidates, common_reachable. simpl.
  destruct (elements _) as [|s l] eqn:Hc.
  - rewrite decide_True; [|by apply leibniz_equiv, elements_empty_inv].
    reflexivity.
  - rewrite decide_False; [by destruct (Qeq_bool T 0)|]. intros Hempty.
    rewrite Hempty, elements_empty in Hc. done.
Qed.

Lemma ranked_candidates_elem db self a b T mp :
  mp ∈ ranked_candidates db self a b T ↔
  ∃ s x y,
    s ∈ common_reachable db self a b T ∧
    _dijkstra_with_path (network_graph (ensure_built db self)) a T !! s = Some x ∧
    _dijkstra_with_path (network_graph (ensure_built db self)) b T !! s = Some y ∧
    mp = make_candidate (ensure_built db self) T s x y.
Proof.
  unfold ranked_candidates, common_reachable. simpl.
  rewrite py_sort_perm. unfold candidates_of. rewrite list_elem_of_omap.
  split.
  - intros (s & Hs%elem_of_elements & Hmp).
    destruct (_dijkstra_with_path _ a T !! s) as [x|] eqn:Hx;
      [|simpl in Hmp; discriminate].
    destruct (_dijkstra_with_path _ b T !! s) as [y|] eqn:Hy;
      [|simpl in Hmp; discriminate].
    simpl in Hmp. injection Hmp as <-. by exists s, x, y.
  - intros (s & x & y & Hs & Hx & Hy & ->). exists s.
    split; [by apply elem_of_elements|]. by rewrite Hx, Hy.
Qed.

Lemma make_candidate_mirrored self T s x y :
  mirrored (make_candidate self T s x y) (make_candidate self T s y x).
Proof.
  unfold mirrored, make_candidate. cbn [station_id station_name route_from_a
    route_from_b mp_total_time time_difference balance_score].
  assert (Hd : (Qabs (y.1 - x.1) == Qabs (x.1 - y.1))%Q).
  { rewrite <- (Qabs_opp (x.1 - y.1)%Q). apply Qabs_wd. ring. }
  repeat split; [ring | exact Hd | by rewrite Hd].
Qed.

(** X28.  It does not matter which commuter is called A when [top_n]
    does not cut the list: if the call for [(a, b)] returns, so does the
    call for [(b, a)], and every candidate of the first has its mirror
    image in the second: the same station and name, the two routes
    exchanged, the same total time, time difference and balance
    score. *)
Theorem work_stations_interchangeable db self a b top_n max_time candidates :
  (find_optimal_stations db self a b top_n max_time).2 = Ok candidates →
  Z.of_nat (size (common_reachable db self a b max_time)) <= top_n →
  ∃ candidates',
    (find_optimal_stations db self b a top_n max_time).2 = Ok candidates' ∧
    length candidates' = length candidates ∧
    ∀ mp, mp ∈ candidates → ∃ mp', mp' ∈ candidates' ∧ mirrored mp mp'.
Proof.
  intros Hres Hn. rewrite find_optimal_stations_result in Hres.
  rewrite find_optimal_stations_result, common_reachable_swap.
  assert (Hlen : ∀ x y,
    common_reachable db self x y max_time = common_reachable db self a b max_time →
    slice_to top_n (ranked_candidates db self x y max_time)
    = ranked_candidates db self x y max_time).
  { intros x y Hxy. unfold slice_to.
    pose proof (Permutation_length (ranked_candidates_ids db self x y max_time)) as Hl.
    rewrite length_map, Hxy in Hl.
    change (length (elements (common_reachable db self a b max_time)))
      with (size (common_reachable db self a b max_time)) in Hl.
    assert (0 <= top_n) as ->%Z.leb_le by lia.
    apply take_ge. lia. }
  destruct (decide (common_reachable db self a b max_time = ∅)) as [Hempty|Hne].
  - injection Hres as <-. eexists. split; [done|]. split; [done|].
    intros mp Hmp. unfold slice_to in Hmp. destruct (0 <=? top_n);
      rewrite take_nil in Hmp; by apply elem_of_nil in Hmp.
  - destruct (Qeq_bool max_time 0); [done|]. injection Hres as <-.
    eexists. split; [done|].
    rewrite (Hlen a b eq_refl), (Hlen b a (common_reachable_swap db self a b _)).
    split.
    + pose proof (Permutation_length (ranked_candidates_ids db self a b max_time)) as H1.
      pose proof (Permutation_length (ranked_candidates_ids db self b a max_time)) as H2.
      rewrite length_map in H1, H2. rewrite H1, H2.
      by rewrite common_reachable_swap.
    + intros mp (s & x & y & Hs & Hx & Hy & ->)%ranked_candidates_elem.
      exists (make_candidate (ensure_built db self) max_time s y x).
      split; [|apply make_candidate_mirrored].
      apply ranked_candidates_elem. exists s, y, x.
      by rewrite common_reachable_swap.
Qed.

Lemma work_stations_interchangeable_witness :
  ∃ candidates candidates',
    (find_optimal_stations demo_db demo_engine "S1" "S5" 10 120).2 = Ok candidates ∧
    (find_optimal_stations demo_db demo_engine "S5" "S1" 10 120).2 = Ok candidates' ∧
    length candidates' = length candidates ∧ length candidates = 4%nat.
Proof.
  destruct (find_optimal_stations demo_db demo_engine "S1" "S5" 10 120).2
    as [candidates|] eqn:Hres; [|vm_compute in Hres; discriminate].
  destruct (work_stations_interchangeable demo_db demo_engine "S1" "S5" 10 120
              candidates Hres) as (candidates' & Hres' & Hlen & _).
  { vm_compute. discriminate. }
  exists candidates, candidates'. split; [reflexivity|]. split; [exact Hres'|].
  split; [exact Hlen|]. vm_compute in Hres. injection Hres as <-. reflexivity.
Defined.

(** ** The balance score reads the time difference *)

Lemma candidate_balance db self a b top_n T candidates mp :
  (find_optimal_stations db self a b top_n T).2 = Ok candidates →
  mp ∈ candidates →
  ¬ (T == 0)%Q ∧ (balance_score mp == 1 - time_difference mp / T)%Q.
Proof.
  intros Hres Hmp. split.
  - rewrite find_optimal_stations_result in Hres.
    destruct (decide (common_reachable db self a b T = ∅)).
    + injection Hres as <-. unfold slice_to in Hmp.
      destruct (0 <=? top_n); rewrite take_nil in Hmp; by apply elem_of_nil in Hmp.
    + destruct (Qeq_bool T 0) eqn:E; [done|]. by apply Qeq_bool_neq.
  - destruct (find_optimal_stations_ok _ _ _ _ _ _ _ Hres) as (all & -> & Hall).
    apply slice_to_sublist in Hmp. rewrite py_sort_perm in Hmp.
    destruct (Hall mp Hmp) as (ra & rb & _ & _ & _ & _ & ->).
    unfold make_candidate. cbn [balance_score time_difference]. reflexivity.
Qed.

Lemma sum_times_in_steps g path :
  graph_all configured_weight g → Forall (segment_in g) path →
  ∃ k : Z, (sum_times path == inject_Z k * 2.5)%Q.
Proof.
  intros Hg. induction path as [|s path IH] using rev_ind; intros Hp.
  - exists 0. unfold sum_times. simpl. ring.
  - apply Forall_app in Hp as [Hp Hs%Forall_inv].
    destruct (IH Hp) as (k & Hk).
    destruct (Hg (from_station s) (connection_of s) Hs) as [Hw|Hw];
      simpl in Hw.
    + exists (k + 1). rewrite sum_times_snoc, Hk, Hw, inject_Z_plus.
      unfold DEFAULT_AVG_TIME_PER_STOP. simpl. ring.
    + exists (k + 2). rewrite sum_times_snoc, Hk, Hw, inject_Z_plus.
      unfold DEFAULT_TRANSFER_TIME. simpl. ring.
Qed.

Lemma candidate_difference_steps db self a b top_n T candidates mp :
  engine_state self →
  (find_optimal_stations db self a b top_n T).2 = Ok candidates →
  mp ∈ candidates →
  ∃ k : Z, 0 <= k ∧ (time_difference mp == inject_Z k * 2.5)%Q.
Proof.
  intros Hs Hres Hmp.
  pose proof (engine_state_weights _ (ensure_built_state db self Hs)) as Hg.
  destruct (find_optimal_stations_ok _ _ _ _ _ _ _ Hres) as (all & -> & Hall).
  apply slice_to_sublist in Hmp. rewrite py_sort_perm in Hmp.
  destruct (Hall mp Hmp) as ([ta ra] & [tb rb] & Ha & Hb & _ & _ & ->).
  destruct (rinv_dist _ _ _ _ (route_inv_final _ _ _) _ _ _ Ha)
    as [[_ Hea Hta Hba _] _].
  destruct (rinv_dist _ _ _ _ (route_inv_final _ _ _) _ _ _ Hb)
    as [[_ Heb Htb Hbb _] _].
  destruct (sum_times_in_steps _ _ Hg Hea) as (ka & Hka).
  destruct (sum_times_in_steps _ _ Hg Heb) as (kb & Hkb).
  rewrite <- Hta, Hba in Hka. rewrite <- Htb, Hbb in Hkb.
  unfold make_candidate. cbn [time_difference fst snd].
  destruct (Z.le_ge_cases ka kb) as [Hle|Hle].
  - exists (kb - ka). split; [lia|].
    assert (Hq : (inject_Z ka <= inject_Z kb)%Q) by (by rewrite <- Zle_Qle).
    rewrite Qabs_neg by (rewrite Hka, Hkb; lra).
    unfold Z.sub. rewrite inject_Z_plus, inject_Z_opp, Hka, Hkb. ring.
  - exists (ka - kb). split; [lia|].
    assert (Hq : (inject_Z kb <= inject_Z ka)%Q) by (by rewrite <- Zle_Qle).
    rewrite Qabs_pos by (rewrite Hka, Hkb; lra).
    unfold Z.sub. rewrite inject_Z_plus, inject_Z_opp, Hka, Hkb. ring.
Qed.

(** X29.  Within one call on an engine, with a positive [max_time], the
    balance score follows the time difference.  A candidate whose time
    difference is 0 scores 1.  Any other candidate has a time difference
    of at least 2.5, the smallest step between two travel times, and,
    when [max_time] is within the 300 minutes [AnalyzeRequest] allows,
    scores strictly less than 1: the quotient is then at least 1/120,
    far from where the floating-point score would round to 1.  And a
    candidate with the smaller time difference never has the smaller
    score. *)
Theorem balance_follows_difference db self a b top_n max_time candidates x y :
  engine_state self → (0 < max_time)%Q →
  (find_optimal_stations db self a b top_n max_time).2 = Ok candidates →
  x ∈ candidates → y ∈ candidates →
  ((time_difference x == 0)%Q → (balance_score x == 1)%Q) ∧
  (¬ (time_difference x == 0)%Q →
   (2.5 <= time_difference x)%Q ∧
   ((max_time <= 300)%Q → (balance_score x < 1)%Q)) ∧
  ((time_difference x <= time_difference y)%Q →
   (balance_score y <= balance_score x)%Q).
Proof.
  intros Hs Hpos Hres Hx Hy.
  destruct (candidate_balance _ _ _ _ _ _ _ _ Hres Hx) as [HT Hbx].
  destruct (candidate_balance _ _ _ _ _ _ _ _ Hres Hy) as [_ Hby].
  assert (Hdiv : ∀ p q : Q, (p <= q)%Q → (p / max_time <= q / max_time)%Q).
  { intros p q Hpq. unfold Qdiv. apply Qmult_le_compat_r; [done|].
    apply Qinv_le_0_compat. lra. }
  split; [|split].
  - intros Hzero. rewrite Hbx, Hzero. unfold Qdiv. ring.
  - intros Hnz.
    destruct (candidate_difference_steps _ _ _ _ _ _ _ _ Hs Hres Hx)
      as (k & Hk0 & Hk).
    assert (Hk1 : 1 <= k).
    { destruct (decide (k = 0)) as [->|]; [|lia].
      destruct Hnz. rewrite Hk. simpl. ring. }
    assert (Hq : (inject_Z 1 <= inject_Z k)%Q) by (by rewrite <- Zle_Qle).
    change (inject_Z 1) with 1%Q in Hq.
    assert (Hstep : (2.5 <= time_difference x)%Q) by (rewrite Hk; lra).
    split; [done|]. intros _. rewrite Hbx.
    assert (Hquot : (0 < time_difference x / max_time)%Q).
    { apply Qlt_shift_div_l; [done | lra]. }
    lra.
  - intros Hle. rewrite Hbx, Hby. pose proof (Hdiv _ _ Hle). lra.
Qed.

Lemma balance_follows_difference_witness :
  ∃ candidates x y,
    (find_optimal_stations demo_db demo_engine "S1" "S5" 10 120).2 = Ok candidates ∧
    candidates !! 0%nat = Some x ∧ candidates !! 2%nat = Some y ∧
    station_id x = "S2" ∧ station_id y = "S3" ∧
    (time_difference x == 5)%Q ∧
    (balance_score x < 1)%Q ∧
    (balance_score y <= balance_score x)%Q.
Proof.
  destruct (find_optimal_stations demo_db demo_engine "S1" "S5" 10 120).2
    as [candidates|] eqn:Hres; [|vm_compute in Hres; discriminate].
  destruct (candidates !! 0%nat) as [x|] eqn:Hx;
    [|vm_compute in Hres; injection Hres as <-; discriminate].
  destruct (candidates !! 2%nat) as [y|] eqn:Hy;
    [|vm_compute in Hres; injection Hres as <-; discriminate].
  assert (Hd : station_id x = "S2" ∧ station_id y = "S3" ∧
               (time_difference x == 5)%Q ∧
               (time_difference x <= time_difference y)%Q).
  { vm_compute in Hres. injection Hres as <-.
    injection Hx as <-. injection Hy as <-.
    split; [reflexivity|]. split; [reflexivity|].
    split; [reflexivity|]. vm_compute. discriminate. }
  destruct Hd as (Hsx & Hsy & Hfive & Hle).
  destruct (balance_follows_difference demo_db demo_engine "S1" "S5" 10 120
              candidates x y) as (_ & Hstep & Hmono).
  - apply engine_built, engine_new.
  - reflexivity.
  - exact Hres.
  - by eapply list_elem_of_lookup_2.
  - by eapply list_elem_of_lookup_2.
  - exists candidates, x, y. split; [reflexivity|]. split; [exact Hx|].
    split; [exact Hy|]. split; [exact Hsx|]. split; [exact Hsy|].
    split; [exact Hfive|]. split; [|exact (Hmono Hle)].
    apply Hstep; [rewrite Hfive; discriminate | vm_compute; discriminate].
Defined.

(** ** What [fetch_operator_data] asks the service *)

(** X30.  For a configured operator whose credential is set,
    [fetch_operator_data] asks for the operator's stations first, and
    for its railways only when the station request succeeded; both
    requests carry the operator's id and its own credential, and go to
    the production API for Tokyo Metro and to the challenge API for the
    others.  Nothing else is requested. *)
Theorem fetch_operator_requests {R} env_vars (answer : string → string → result (list R))
    operator_key cfg key served :
  dict_get operator_key OPERATORS = Some cfg →
  env_vars (op_env_key cfg) = Some key → key ≠ "" →
  let base := if bool_decide (operator_key = "TOKYO_METRO")
              then "https://api.odpt.org/api/v4"
              else "https://api-challenge.odpt.org/api/v4" in
  (fetch_operator_data (logging env_vars answer) operator_key served).2 =
  served ++ (base +:+ "/odpt:" +:+ "Station", op_id cfg, key) ::
    (if is_ok (answer (base +:+ "/odpt:" +:+ "Station") (op_id cfg))
     then [(base +:+ "/odpt:" +:+ "Railway", op_id cfg, key)] else []).
Proof.
  intros Hcfg Hkey Hne base.
  assert (Hbase : _get_api_url (op_api_base cfg) = base).
  { unfold OPERATORS in Hcfg. cbn in Hcfg. subst base.
    repeat case_decide; simplify_eq; done. }
  unfold fetch_operator_data. rewrite Hcfg. unfold _fetch_data.
  cbn [getenv http_get logging]. rewrite Hkey, Hbase.
  unfold falsy. rewrite bool_decide_eq_false_2 by done. cbn [default].
  destruct (answer (base +:+ "/odpt:" +:+ "Station") (op_id cfg)) as [stations|e];
    cbn [is_ok].
  - destruct (answer (base +:+ "/odpt:" +:+ "Railway") (op_id cfg)); cbn [snd];
      by rewrite <- app_assoc.
  - done.
Qed.

Lemma fetch_operator_requests_witness :
  (fetch_operator_data
     (logging (λ _, Some "secret")
        (λ _ _, Raise (RequestException "503 Server Error") : result (list string)))
     "TOKYO_METRO" []).2
  = [("https://api.odpt.org/api/v4/odpt:Station", "odpt.Operator:TokyoMetro",
      "secret")].
Proof.
  apply (fetch_operator_requests (λ _, Some "secret")
           (λ _ _, Raise (RequestException "503 Server Error") : result (list string))
           "TOKYO_METRO"
           (mkOperatorConfig "odpt.Operator:TokyoMetro" "Tokyo Metro" "production"
                             "TOKYO_METRO_KEY")
           "secret" []); [reflexivity | reflexivity | discriminate].
Defined.
